(** * Project and workspace resolution of the Elm language server

    A shallow embedding of [elmWorkspace.ts]: the workspace orchestrator
    (dirty flag and derived caches), the module-name derivation of local
    discovery, the bulk population of the forest, the project loader with its
    resolved-package cache, the propagation of exposed modules, and the
    dependency solver the loader calls. *)

From Stdlib Require Import ZArith Lia Ascii.
From Stdlib Require String.
From stdpp Require Import base option list sorting strings gmap fin_maps fin_sets.

(** ** The workspace orchestrator: dirty flag and derived caches *)

Module Orchestrator.

Section Workspace.
(** The collaborators of the workspace are opaque to it: the forest and its
    [synchronize] hook, the type checker instance that
    [createTypeChecker(this)] returns, the type cache, and diagnostics. *)
Context {Forest TypeChecker TypeCache Diagnostic : Type}.
Variable synchronize : Forest → Forest.
Variable createTypeChecker : TypeChecker.
Variable newTypeCache : TypeCache.

(** The fields of [class ElmWorkspace] that the lifecycle reads or writes.
    [diagnosticsCache] is a [Map<string, Diagnostic[]>] keyed by URI. *)
Record ElmWorkspace := {
  typeCache : TypeCache;
  typeChecker : option TypeChecker;
  dirty : bool;
  diagnosticsCache : gmap string (list Diagnostic);
  forest : Forest
}.

(** The constructor: [dirty = true], fresh caches, no type checker. *)
Definition newWorkspace (f : Forest) : ElmWorkspace :=
  {| typeCache := newTypeCache; typeChecker := None; dirty := true;
     diagnosticsCache := ∅; forest := f |}.

(** [getForest(synchronize = true)] *)
Definition getForest (sync : bool) (ws : ElmWorkspace) : Forest * ElmWorkspace :=
  if dirty ws && sync then
    let ws' := {| typeCache := typeCache ws; typeChecker := typeChecker ws;
                  dirty := false; diagnosticsCache := diagnosticsCache ws;
                  forest := synchronize (forest ws) |} in
    (forest ws', ws')
  else (forest ws, ws).

(** [getTypeCache()] *)
Definition getTypeCache (ws : ElmWorkspace) : TypeCache := typeCache ws.

(** [getTypeChecker()]: synchronizes when dirty, then returns the instance,
    creating it when there is none. *)
Definition getTypeChecker (ws : ElmWorkspace) : TypeChecker * ElmWorkspace :=
  let ws1 :=
    if dirty ws then
      {| typeCache := typeCache ws; typeChecker := typeChecker ws;
         dirty := false; diagnosticsCache := diagnosticsCache ws;
         forest := synchronize (forest ws) |}
    else ws in
  match typeChecker ws1 with
  | Some tc => (tc, ws1)
  | None =>
      (createTypeChecker,
       {| typeCache := typeCache ws1; typeChecker := Some createTypeChecker;
          dirty := dirty ws1; diagnosticsCache := diagnosticsCache ws1;
          forest := forest ws1 |})
  end.

(** [markAsDirty()] *)
Definition markAsDirty (ws : ElmWorkspace) : ElmWorkspace :=
  if negb (dirty ws) then
    {| typeCache := typeCache ws; typeChecker := None; dirty := true;
       diagnosticsCache := ∅; forest := forest ws |}
  else ws.

(** [getSemanticDiagnostics(sourceFile)]. [checked] is what
    [typeChecker.getDiagnostics(sourceFile, token)] yields when it is
    called: [Some ds], or [None] when it throws (a cancelled request).
    An array is truthy in JavaScript, also when empty, so a cached entry is
    returned whatever it holds. *)
Definition getSemanticDiagnostics (uri : string)
    (checked : option (list Diagnostic)) (ws : ElmWorkspace)
    : option (list Diagnostic) * ElmWorkspace :=
  match diagnosticsCache ws !! uri with
  | Some cached => (Some cached, ws)
  | None =>
      let '(_, ws1) := getTypeChecker ws in
      match checked with
      | None => (None, ws1)
      | Some ds =>
          (Some ds,
           {| typeCache := typeCache ws1; typeChecker := typeChecker ws1;
              dirty := dirty ws1;
              diagnosticsCache := <[uri := ds]> (diagnosticsCache ws1);
              forest := forest ws1 |})
      end
  end.

(** The calls a client makes on a workspace, one at a time. *)
Inductive Call :=
| MarkAsDirty
| GetForest (sync : bool)
| GetTypeChecker
| GetSemanticDiagnostics (uri : string) (checked : option (list Diagnostic))
| PopulateTypeCache (write : TypeCache → TypeCache).

(** [getTypeCache()] hands out the cache object itself; a downstream
    analysis populates it in place. *)
Definition populateTypeCache (write : TypeCache → TypeCache)
    (ws : ElmWorkspace) : ElmWorkspace :=
  {| typeCache := write (getTypeCache ws); typeChecker := typeChecker ws;
     dirty := dirty ws; diagnosticsCache := diagnosticsCache ws;
     forest := forest ws |}.

Definition call (ws : ElmWorkspace) (c : Call) : ElmWorkspace :=
  match c with
  | MarkAsDirty => markAsDirty ws
  | GetForest sync => snd (getForest sync ws)
  | GetTypeChecker => snd (getTypeChecker ws)
  | GetSemanticDiagnostics uri checked =>
      snd (getSemanticDiagnostics uri checked ws)
  | PopulateTypeCache write => populateTypeCache write ws
  end.

Definition calls (ws : ElmWorkspace) (cs : list Call) : ElmWorkspace :=
  foldl call ws cs.

(** A workspace state is reachable when a sequence of calls leads to it
    from a freshly constructed workspace. *)
Definition reachable (ws : ElmWorkspace) : Prop :=
  ∃ f cs, ws = calls (newWorkspace f) cs.

Definition isDiagnosticsRead (c : Call) : bool :=
  match c with GetSemanticDiagnostics _ _ => true | _ => false end.

(** *** The dirty flag and the diagnostics cache *)

Definition dirty_cache_inv (ws : ElmWorkspace) : Prop :=
  dirty ws = true → diagnosticsCache ws = ∅.

Lemma getTypeChecker_clean ws : dirty (snd (getTypeChecker ws)) = false.
Proof.
  unfold getTypeChecker.
  destruct (dirty ws) eqn:Hd; simpl; destruct (typeChecker ws); simpl; done.
Qed.

Lemma getTypeChecker_diagnostics ws :
  diagnosticsCache (snd (getTypeChecker ws)) = diagnosticsCache ws.
Proof.
  unfold getTypeChecker.
  destruct (dirty ws); simpl; destruct (typeChecker ws); simpl; done.
Qed.

Lemma getTypeChecker_typeCache ws :
  typeCache (snd (getTypeChecker ws)) = typeCache ws.
Proof.
  unfold getTypeChecker.
  destruct (dirty ws); simpl; destruct (typeChecker ws); simpl; done.
Qed.

Lemma getSemanticDiagnostics_clean uri checked ws :
  diagnosticsCache ws !! uri = None →
  dirty (snd (getSemanticDiagnostics uri checked ws)) = false.
Proof.
  intros Hmiss. unfold getSemanticDiagnostics. rewrite Hmiss.
  pose proof (getTypeChecker_clean ws) as Hc.
  destruct (getTypeChecker ws) as [tc ws1]; simpl in *.
  destruct checked; simpl; done.
Qed.

Lemma call_preserves_inv ws c :
  dirty_cache_inv ws → dirty_cache_inv (call ws c).
Proof.
  unfold dirty_cache_inv. intros Hinv.
  destruct c as [|sync| |uri checked|write]; simpl; [| | | |done].
  - unfold markAsDirty. destruct (dirty ws) eqn:Hd; simpl; auto.
  - unfold getForest. destruct (dirty ws) eqn:Hd; simpl; [|congruence].
    destruct sync; simpl; [discriminate|]. intros _. by apply Hinv.
  - rewrite getTypeChecker_clean. discriminate.
  - destruct (diagnosticsCache ws !! uri) as [cached|] eqn:Hc.
    + unfold getSemanticDiagnostics. rewrite Hc. simpl. intros Hd.
      specialize (Hinv Hd). rewrite Hinv in Hc. by rewrite lookup_empty in Hc.
    + rewrite getSemanticDiagnostics_clean by done. discriminate.
Qed.

Lemma calls_preserve_inv cs : ∀ ws,
  dirty_cache_inv ws → dirty_cache_inv (calls ws cs).
Proof.
  induction cs as [|c cs IH]; intros ws Hinv; simpl; [done|].
  apply IH. by apply call_preserves_inv.
Qed.

Lemma reachable_inv ws : reachable ws → dirty_cache_inv ws.
Proof.
  intros (f & cs & ->). apply calls_preserve_inv. by intros _.
Qed.

Lemma markAsDirty_diagnostics_empty ws :
  dirty_cache_inv ws → diagnosticsCache (markAsDirty ws) = ∅.
Proof.
  intros Hinv. unfold markAsDirty.
  destruct (dirty ws) eqn:Hd; simpl; [by apply Hinv | done].
Qed.

Lemma markAsDirty_dirty ws : dirty (markAsDirty ws) = true.
Proof. unfold markAsDirty. by destruct (dirty ws) eqn:Hd. Qed.

(** Calls other than a diagnostics read never add a cache entry. *)
Lemma call_keeps_empty ws c :
  isDiagnosticsRead c = false →
  diagnosticsCache ws = ∅ → diagnosticsCache (call ws c) = ∅.
Proof.
  destruct c as [|sync| |uri checked|write]; simpl; intros Hr He; try done.
  - unfold markAsDirty. by destruct (dirty ws).
  - unfold getForest. by destruct (dirty ws), sync.
  - by rewrite getTypeChecker_diagnostics.
Qed.

Lemma calls_keep_empty cs : ∀ ws,
  forallb (λ c, negb (isDiagnosticsRead c)) cs = true →
  diagnosticsCache ws = ∅ → diagnosticsCache (calls ws cs) = ∅.
Proof.
  induction cs as [|c cs IH]; intros ws Hall He; simpl in *; [done|].
  apply andb_prop in Hall as [Hc Hall]. apply IH; [done|].
  apply call_keeps_empty; [|done]. by destruct (isDiagnosticsRead c).
Qed.

(** C10: after any sequence of calls on a fresh workspace, a set dirty
    flag means that the diagnostics cache holds no entry. *)
Theorem dirty_workspace_has_no_diagnostics (f : Forest) (cs : list Call) :
  dirty (calls (newWorkspace f) cs) = true →
  diagnosticsCache (calls (newWorkspace f) cs) = ∅.
Proof.
  assert (Hfresh : dirty_cache_inv (newWorkspace f)) by (by intros _).
  revert Hfresh. unfold calls. generalize (newWorkspace f).
  induction cs as [|c cs IH]; intros ws Hinv; simpl; [exact Hinv|].
  apply IH. by apply call_preserves_inv.
Qed.

(** When every call is synchronous: in every workspace reached by such
    calls, after [markAsDirty] no URI has a
    cached diagnostics entry, so the next diagnostics read, whatever calls
    other than a diagnostics read come before it, yields what the type
    checker computes then; [markAsDirty] on a clean workspace clears the
    cache and sets the flag, and on a dirty workspace changes nothing. *)
Theorem markAsDirty_drops_cached_diagnostics (f : Forest) (cs : list Call) :
  let ws := calls (newWorkspace f) cs in
  (∀ uri, diagnosticsCache (markAsDirty ws) !! uri = None)
  ∧ (∀ between uri checked,
       forallb (λ c, negb (isDiagnosticsRead c)) between = true →
       fst (getSemanticDiagnostics uri checked
              (calls (markAsDirty ws) between)) = checked)
  ∧ (dirty ws = false →
       dirty (markAsDirty ws) = true ∧ diagnosticsCache (markAsDirty ws) = ∅)
  ∧ (dirty ws = true → markAsDirty ws = ws).
Proof.
  intros ws.
  assert (Hinv : dirty_cache_inv ws) by (apply reachable_inv; by exists f, cs).
  pose proof (markAsDirty_diagnostics_empty ws Hinv) as Hempty.
  split_and!.
  - intros uri. by rewrite Hempty, lookup_empty.
  - intros between uri checked Hnr.
    pose proof (calls_keep_empty between _ Hnr Hempty) as He.
    unfold getSemanticDiagnostics. rewrite He, lookup_empty.
    destruct (getTypeChecker _) as [tc ws1]. by destruct checked.
  - intros Hd. split; [apply markAsDirty_dirty | done].
  - intros Hd. unfold markAsDirty. by rewrite Hd.
Qed.

(** C5, as the code has it: on a clean-to-dirty transition [markAsDirty]
    clears the diagnostics cache and drops the type checker instance; the
    type cache is left as it is. *)
Theorem markAsDirty_clean_to_dirty (ws : ElmWorkspace) :
  dirty ws = false →
  dirty (markAsDirty ws) = true
  ∧ diagnosticsCache (markAsDirty ws) = ∅
  ∧ typeChecker (markAsDirty ws) = None
  ∧ typeCache (markAsDirty ws) = typeCache ws.
Proof. intros Hd. unfold markAsDirty. rewrite Hd. simpl. done. Qed.

(** *** What the calls keep between two edits *)

Definition isMarkAsDirty (c : Call) : bool :=
  match c with MarkAsDirty => true | _ => false end.

Definition withoutMarkAsDirty (cs : list Call) : Prop :=
  forallb (λ c, negb (isMarkAsDirty c)) cs = true.

Lemma getTypeChecker_forest ws :
  forest (snd (getTypeChecker ws))
  = if dirty ws then synchronize (forest ws) else forest ws.
Proof.
  unfold getTypeChecker.
  destruct (dirty ws); simpl; destruct (typeChecker ws); simpl; done.
Qed.

Lemma call_keeps_no_checker ws c :
  (dirty ws = true → typeChecker ws = None) →
  dirty (call ws c) = true → typeChecker (call ws c) = None.
Proof.
  intros Hinv. destruct c as [|sync| |uri checked|write]; simpl.
  - unfold markAsDirty. destruct (dirty ws) eqn:Hd; simpl; auto.
  - unfold getForest. destruct (dirty ws) eqn:Hd; simpl; [|congruence].
    destruct sync; simpl; [discriminate|]. intros _. by apply Hinv.
  - rewrite getTypeChecker_clean. discriminate.
  - destruct (diagnosticsCache ws !! uri) as [cached|] eqn:Hc.
    + unfold getSemanticDiagnostics. rewrite Hc. simpl. exact Hinv.
    + rewrite getSemanticDiagnostics_clean by done. discriminate.
  - exact Hinv.
Qed.

(** X1: after any sequence of calls on a fresh workspace, a dirty
    workspace holds no type checker instance: [markAsDirty] drops it when
    it sets the flag, and only [getTypeChecker], which clears the flag,
    creates one. *)
Theorem dirty_workspace_has_no_typeChecker (f : Forest) (cs : list Call) :
  dirty (calls (newWorkspace f) cs) = true →
  typeChecker (calls (newWorkspace f) cs) = None.
Proof.
  assert (Hfresh : dirty (newWorkspace f) = true →
                   typeChecker (newWorkspace f) = None) by done.
  revert Hfresh. unfold calls. generalize (newWorkspace f).
  induction cs as [|c cs IH]; intros ws Hinv; simpl; [exact Hinv|].
  apply IH. by apply call_keeps_no_checker.
Qed.

Lemma call_keeps_entry ws c uri ds :
  isMarkAsDirty c = false →
  diagnosticsCache ws !! uri = Some ds →
  diagnosticsCache (call ws c) !! uri = Some ds.
Proof.
  destruct c as [|sync| |uri' checked|write]; simpl; intros Hc Hentry;
    try done.
  - unfold getForest. by destruct (dirty ws), sync.
  - by rewrite getTypeChecker_diagnostics.
  - unfold getSemanticDiagnostics.
    destruct (diagnosticsCache ws !! uri') as [cached|] eqn:Hhit; [done|].
    pose proof (getTypeChecker_diagnostics ws) as Hsame.
    destruct (getTypeChecker ws) as [tc ws1]. simpl in Hsame.
    destruct checked as [ds'|]; simpl; [|by rewrite Hsame].
    rewrite lookup_insert_ne; [by rewrite Hsame|]. congruence.
Qed.

Lemma calls_keep_entry cs : ∀ ws uri ds,
  withoutMarkAsDirty cs →
  diagnosticsCache ws !! uri = Some ds →
  diagnosticsCache (calls ws cs) !! uri = Some ds.
Proof.
  unfold withoutMarkAsDirty.
  induction cs as [|c cs IH]; intros ws uri ds Hall Hentry; simpl in *;
    [done|].
  apply andb_prop in Hall as [Hc Hall]. apply IH; [done|].
  apply call_keeps_entry; [|done]. by destruct (isMarkAsDirty c).
Qed.

Lemma call_synchronizes_once ws c :
  isMarkAsDirty c = false →
  (dirty ws = false →
     dirty (call ws c) = false ∧ forest (call ws c) = forest ws)
  ∧ (dirty ws = true →
       (dirty (call ws c) = true ∧ forest (call ws c) = forest ws)
       ∨ (dirty (call ws c) = false
          ∧ forest (call ws c) = synchronize (forest ws))).
Proof.
  destruct c as [|sync| |uri checked|write]; simpl; intros Hc; [done| | | |].
  - unfold getForest. destruct (dirty ws) eqn:Hd, sync; simpl; split;
      try done; intros _; auto.
  - pose proof (getTypeChecker_clean ws) as Hclean.
    pose proof (getTypeChecker_forest ws) as Hforest.
    split; intros Hd; rewrite Hd in Hforest; auto.
  - unfold getSemanticDiagnostics.
    destruct (diagnosticsCache ws !! uri) as [cached|]; simpl.
    { split; intros Hd; auto. }
    pose proof (getTypeChecker_clean ws) as Hclean.
    pose proof (getTypeChecker_forest ws) as Hforest.
    destruct (getTypeChecker ws) as [tc ws1]. simpl in *.
    destruct checked; simpl; split; intros Hd; rewrite Hd in Hforest; auto.
  - split; intros Hd; auto.
Qed.

(** X3: between two calls of [markAsDirty] the forest is synchronized at
    most once, and exactly when the dirty flag is cleared: calls on a clean
    workspace leave the forest as it is, and calls on a dirty one either
    leave it dirty and unsynchronized or leave it clean and synchronized
    once. *)
Theorem forest_synchronized_once (ws : ElmWorkspace) (cs : list Call) :
  withoutMarkAsDirty cs →
  (dirty ws = false →
     dirty (calls ws cs) = false ∧ forest (calls ws cs) = forest ws)
  ∧ (dirty ws = true →
       (dirty (calls ws cs) = true ∧ forest (calls ws cs) = forest ws)
       ∨ (dirty (calls ws cs) = false
          ∧ forest (calls ws cs) = synchronize (forest ws))).
Proof.
  unfold withoutMarkAsDirty. revert ws.
  induction cs as [|c cs IH]; intros ws Hall; simpl in *.
  { split; intros Hd; auto. }
  apply andb_prop in Hall as [Hc Hall].
  apply negb_true_iff in Hc.
  destruct (call_synchronizes_once ws c Hc) as [Hclean Hdirty].
  destruct (IH (call ws c) Hall) as [IHclean IHdirty].
  split; intros Hd.
  - destruct (Hclean Hd) as [Hd' Hf']. destruct (IHclean Hd') as [? Hf].
    split; [done|]. by rewrite Hf.
  - destruct (Hdirty Hd) as [[Hd' Hf']|[Hd' Hf']].
    + destruct (IHdirty Hd') as [[? Hf]|[? Hf]]; [left|right];
        (split; [done|]); by rewrite Hf, ?Hf'.
    + destruct (IHclean Hd') as [? Hf]. right. split; [done|].
      by rewrite Hf.
Qed.

(** *** A check that is awaited *)

(** [getSemanticDiagnosticsAsync] up to its [await]: the cached
    diagnostics when there are some, and otherwise the call of
    [getTypeChecker] that starts the check. *)
Definition getSemanticDiagnosticsAsync_begin (uri : string) (ws : ElmWorkspace)
    : option (list Diagnostic) * ElmWorkspace :=
  match diagnosticsCache ws !! uri with
  | Some cached => (Some cached, ws)
  | None => (None, snd (getTypeChecker ws))
  end.

(** [getSemanticDiagnosticsAsync] from its [await] on, when the check has
    resolved with [diagnostics]: they are stored in the state the workspace
    is in by then. *)
Definition getSemanticDiagnosticsAsync_resume (uri : string)
    (diagnostics : list Diagnostic) (ws : ElmWorkspace) : ElmWorkspace :=
  {| typeCache := typeCache ws; typeChecker := typeChecker ws;
     dirty := dirty ws;
     diagnosticsCache := <[uri := diagnostics]> (diagnosticsCache ws);
     forest := forest ws |}.

(** X26: [getSemanticDiagnosticsAsync] whose [await] no other call falls
    into does what [getSemanticDiagnostics] does. When [markAsDirty] is
    called during the [await], the diagnostics of the check that was
    started before it are stored in the cache of the dirty workspace, and
    they are what the later reads of the URI return, up to the next
    [markAsDirty]. *)
Theorem getSemanticDiagnosticsAsync_interleaved (ws : ElmWorkspace)
    (uri : string) (ds : list Diagnostic) (between : list Call)
    (later : option (list Diagnostic)) :
  diagnosticsCache ws !! uri = None →
  withoutMarkAsDirty between →
  getSemanticDiagnosticsAsync_resume uri ds
    (snd (getSemanticDiagnosticsAsync_begin uri ws))
  = snd (getSemanticDiagnostics uri (Some ds) ws)
  ∧ dirty (getSemanticDiagnosticsAsync_resume uri ds
             (markAsDirty (snd (getSemanticDiagnosticsAsync_begin uri ws))))
    = true
  ∧ fst (getSemanticDiagnostics uri later
           (calls (getSemanticDiagnosticsAsync_resume uri ds
                     (markAsDirty
                        (snd (getSemanticDiagnosticsAsync_begin uri ws))))
                  between))
    = Some ds.
Proof.
  intros Hmiss Hbetween.
  unfold getSemanticDiagnosticsAsync_begin. rewrite Hmiss. simpl.
  pose proof (getTypeChecker_clean ws) as Hclean.
  split_and!.
  - unfold getSemanticDiagnostics. rewrite Hmiss.
    by destruct (getTypeChecker ws).
  - unfold markAsDirty. by rewrite Hclean.
  - assert (Hentry : diagnosticsCache
                       (getSemanticDiagnosticsAsync_resume uri ds
                          (markAsDirty (snd (getTypeChecker ws)))) !! uri
                     = Some ds).
    { simpl. by rewrite lookup_insert_eq. }
    pose proof (calls_keep_entry between _ uri ds Hbetween Hentry) as Hlater.
    unfold getSemanticDiagnostics at 1. by rewrite Hlater.
Qed.

(** *** Calls and awaited checks one after the other *)

(** What happens to a workspace, one thing at a time: a synchronous call,
    the part of [getSemanticDiagnosticsAsync] before its [await], or the
    part after it, when the check has resolved with [diagnostics]. *)
Inductive Step :=
| Sync (c : Call)
| AsyncBegin (uri : string)
| AsyncResume (uri : string) (diagnostics : list Diagnostic).

Definition step (ws : ElmWorkspace) (s : Step) : ElmWorkspace :=
  match s with
  | Sync c => call ws c
  | AsyncBegin uri => snd (getSemanticDiagnosticsAsync_begin uri ws)
  | AsyncResume uri diagnostics =>
      getSemanticDiagnosticsAsync_resume uri diagnostics ws
  end.

Definition steps (ws : ElmWorkspace) (ss : list Step) : ElmWorkspace :=
  foldl step ws ss.

(** A step that is no [markAsDirty] and no end of an awaited check of
    [uri]. *)
Definition leavesEntryOf (uri : string) (s : Step) : bool :=
  match s with
  | Sync c => negb (isMarkAsDirty c)
  | AsyncBegin _ => true
  | AsyncResume uri' _ => negb (String.eqb uri' uri)
  end.

Lemma step_keeps_entry ws s uri ds :
  leavesEntryOf uri s = true →
  diagnosticsCache ws !! uri = Some ds →
  diagnosticsCache (step ws s) !! uri = Some ds.
Proof.
  destruct s as [c|uri'|uri' ds']; simpl; intros Hs Hentry.
  - apply call_keeps_entry; [|done]. by destruct (isMarkAsDirty c).
  - unfold getSemanticDiagnosticsAsync_begin.
    destruct (diagnosticsCache ws !! uri'); simpl; [done|].
    by rewrite getTypeChecker_diagnostics.
  - apply negb_true_iff, String.eqb_neq in Hs.
    by rewrite lookup_insert_ne.
Qed.

Lemma steps_keep_entry ss : ∀ ws uri ds,
  forallb (leavesEntryOf uri) ss = true →
  diagnosticsCache ws !! uri = Some ds →
  diagnosticsCache (steps ws ss) !! uri = Some ds.
Proof.
  induction ss as [|s ss IH]; intros ws uri ds Hall Hentry; simpl in *;
    [done|].
  apply andb_prop in Hall as [Hs Hall]. apply IH; [done|].
  by apply step_keeps_entry.
Qed.

(** X2: the diagnostics that [getSemanticDiagnostics] computes for a URI
    are what every later read of that URI returns, whatever the type
    checker would compute then and whatever comes in between, synchronous
    calls and awaited checks alike, as long as [markAsDirty] is not called
    and no awaited check of that URI resolves in between. *)
Theorem computed_diagnostics_are_reused (ws : ElmWorkspace) (uri : string)
    (ds : list Diagnostic) (between : list Step)
    (later : option (list Diagnostic)) :
  diagnosticsCache ws !! uri = None →
  forallb (leavesEntryOf uri) between = true →
  fst (getSemanticDiagnostics uri (Some ds) ws) = Some ds
  ∧ fst (getSemanticDiagnostics uri later
           (steps (snd (getSemanticDiagnostics uri (Some ds) ws)) between))
    = Some ds
  ∧ fst (getSemanticDiagnosticsAsync_begin uri
           (steps (snd (getSemanticDiagnostics uri (Some ds) ws)) between))
    = Some ds.
Proof.
  intros Hmiss Hbetween.
  assert (Hfirst : fst (getSemanticDiagnostics uri (Some ds) ws) = Some ds
                   ∧ diagnosticsCache
                       (snd (getSemanticDiagnostics uri (Some ds) ws)) !! uri
                     = Some ds).
  { unfold getSemanticDiagnostics. rewrite Hmiss.
    destruct (getTypeChecker ws) as [tc ws1]. simpl.
    by rewrite lookup_insert_eq. }
  destruct Hfirst as [Hfirst Hentry]. split; [done|].
  pose proof (steps_keep_entry between _ uri ds Hbetween Hentry) as Hlater.
  split.
  - unfold getSemanticDiagnostics at 1. by rewrite Hlater.
  - unfold getSemanticDiagnosticsAsync_begin. by rewrite Hlater.
Qed.

End Workspace.

(** *** A concrete workspace

    One file is checked, a type is recorded in the type cache by the
    downstream analysis, and the text is edited. *)

Definition demoCalls : list (@Call (gmap string string) string) :=
  [ GetSemanticDiagnostics "file:///src/Main.elm" (Some ["type mismatch"]);
    PopulateTypeCache (λ tc, <["Main.view" := "Html msg"]> tc) ].

Definition demoWorkspace : @ElmWorkspace unit unit (gmap string string) string :=
  calls (λ f, f) tt (newWorkspace ∅ tt) demoCalls.

Lemma dirty_workspace_has_no_diagnostics_witness :
  diagnosticsCache
    (calls (λ f, f) tt (newWorkspace (∅ : gmap string string) tt)
       (demoCalls ++ [MarkAsDirty])) = ∅.
Proof.
  apply (dirty_workspace_has_no_diagnostics (λ f : unit, f) tt
           (∅ : gmap string string) tt (demoCalls ++ [MarkAsDirty])).
  reflexivity.
Defined.

Lemma markAsDirty_drops_cached_diagnostics_witness :
  markAsDirty (markAsDirty demoWorkspace) = markAsDirty demoWorkspace.
Proof.
  pose proof (markAsDirty_drops_cached_diagnostics (λ f : unit, f) tt
                (∅ : gmap string string) tt (demoCalls ++ [MarkAsDirty]))
    as (_ & _ & _ & Hdirty).
  apply Hdirty. reflexivity.
Defined.

Lemma markAsDirty_clean_to_dirty_witness :
  dirty demoWorkspace = false
  ∧ diagnosticsCache (markAsDirty demoWorkspace) = ∅
  ∧ typeCache (markAsDirty demoWorkspace) = typeCache demoWorkspace.
Proof.
  split; [reflexivity|].
  destruct (markAsDirty_clean_to_dirty demoWorkspace) as (_ & Hdiag & _ & Htc);
    [reflexivity|].
  split; [exact Hdiag | exact Htc].
Defined.

(** C5 as stated fails: the workspace is clean, [markAsDirty] makes it dirty,
    and the type cache still holds the entry recorded before. *)
Lemma markAsDirty_keeps_typeCache :
  dirty demoWorkspace = false
  ∧ dirty (markAsDirty demoWorkspace) = true
  ∧ typeCache (markAsDirty demoWorkspace) !! "Main.view" = Some "Html msg"
  ∧ typeCache (markAsDirty demoWorkspace) ≠ ∅.
Proof.
  split_and!; try reflexivity.
  intros Heq.
  assert (Hl : typeCache (markAsDirty demoWorkspace) !! "Main.view"
               = Some "Html msg") by reflexivity.
  rewrite Heq, lookup_empty in Hl. discriminate.
Qed.

Lemma dirty_workspace_has_no_typeChecker_witness :
  typeChecker
    (calls (λ f, f) tt (newWorkspace (∅ : gmap string string) tt)
       (demoCalls ++ [MarkAsDirty])) = None.
Proof.
  apply (dirty_workspace_has_no_typeChecker (λ f : unit, f) tt
           (∅ : gmap string string) tt (demoCalls ++ [MarkAsDirty])).
  reflexivity.
Defined.

(** A forest that counts how often it was synchronized. *)
Definition countingWorkspace : @ElmWorkspace nat unit (gmap string string) string :=
  newWorkspace ∅ 0.

Definition demoReads : list (@Call (gmap string string) string) :=
  [ GetTypeChecker; GetForest true;
    GetSemanticDiagnostics "file:///src/Other.elm" (Some []);
    PopulateTypeCache (λ tc, <["Main.view" := "Html msg"]> tc);
    GetForest false ].

(** A read of another file is awaited while the entry of [Main.elm] is in
    the cache. *)
Definition demoSteps : list (@Step (gmap string string) string) :=
  [ Sync GetTypeChecker; AsyncBegin "file:///src/Other.elm";
    Sync (GetForest true);
    Sync (PopulateTypeCache (λ tc, <["Main.view" := "Html msg"]> tc));
    AsyncResume "file:///src/Other.elm" ["unused import"];
    Sync (GetForest false) ].

Lemma computed_diagnostics_are_reused_witness :
  fst (getSemanticDiagnostics S tt "file:///src/Main.elm"
         (Some ["naming error"])
         (steps S tt
            (snd (getSemanticDiagnostics S tt "file:///src/Main.elm"
                    (Some ["type mismatch"]) countingWorkspace))
            demoSteps))
  = Some ["type mismatch"].
Proof.
  apply (computed_diagnostics_are_reused S tt countingWorkspace
           "file:///src/Main.elm" ["type mismatch"] demoSteps
           (Some ["naming error"])); reflexivity.
Defined.

(** An awaited check of the same file that resolves in between replaces
    the entry. *)
Example awaited_check_replaces_entry :
  fst (getSemanticDiagnostics S tt "file:///src/Main.elm" None
         (steps S tt
            (snd (getSemanticDiagnostics S tt "file:///src/Main.elm"
                    (Some ["type mismatch"]) countingWorkspace))
            [AsyncResume "file:///src/Main.elm" ["naming error"]]))
  = Some ["naming error"].
Proof. reflexivity. Qed.

Lemma getSemanticDiagnosticsAsync_interleaved_witness :
  dirty (getSemanticDiagnosticsAsync_resume "file:///src/Main.elm"
           ["type mismatch"]
           (markAsDirty
              (snd (getSemanticDiagnosticsAsync_begin S tt
                      "file:///src/Main.elm" countingWorkspace))))
  = true
  ∧ fst (getSemanticDiagnostics S tt "file:///src/Main.elm"
           (Some ["naming error"])
           (calls S tt
              (getSemanticDiagnosticsAsync_resume "file:///src/Main.elm"
                 ["type mismatch"]
                 (markAsDirty
                    (snd (getSemanticDiagnosticsAsync_begin S tt
                            "file:///src/Main.elm" countingWorkspace))))
              demoReads))
    = Some ["type mismatch"].
Proof.
  apply (getSemanticDiagnosticsAsync_interleaved S tt countingWorkspace
           "file:///src/Main.elm" ["type mismatch"] demoReads
           (Some ["naming error"])); reflexivity.
Defined.

(** C7 fails on the code when a diagnostics read is awaited: the check of
    [Main.elm] is started on a clean workspace, [markAsDirty] is called
    during the [await] and clears the cache, and the check then resolves and
    stores its diagnostics in the dirty workspace. The next [markAsDirty]
    changes nothing, and the read after it returns the entry cached before
    it, where the type checker would now find something else. *)
Theorem markAsDirty_keeps_entry_of_awaited_check :
  let started :=
    snd (getSemanticDiagnosticsAsync_begin S tt "file:///src/Main.elm"
           countingWorkspace) in
  let resumed :=
    getSemanticDiagnosticsAsync_resume "file:///src/Main.elm"
      ["type mismatch"] (markAsDirty started) in
  dirty started = false
  ∧ diagnosticsCache (markAsDirty started) = ∅
  ∧ dirty resumed = true
  ∧ diagnosticsCache resumed !! "file:///src/Main.elm"
    = Some ["type mismatch"]
  ∧ markAsDirty resumed = resumed
  ∧ getSemanticDiagnostics S tt "file:///src/Main.elm"
      (Some ["naming error"]) (markAsDirty resumed)
    = (Some ["type mismatch"], resumed).
Proof. vm_compute. by split_and!. Qed.

Lemma forest_synchronized_once_witness :
  (dirty (calls S tt countingWorkspace demoReads) = true
   ∧ forest (calls S tt countingWorkspace demoReads) = 0)
  ∨ (dirty (calls S tt countingWorkspace demoReads) = false
     ∧ forest (calls S tt countingWorkspace demoReads) = 1).
Proof.
  apply (forest_synchronized_once S tt countingWorkspace demoReads);
    reflexivity.
Defined.

End Orchestrator.

(** ** Local discovery: module names from file paths *)

Module Discovery.

(** [s.replace(pattern, replacement)] with a string pattern replaces the
    first occurrence of the pattern and no other. *)
Fixpoint dropChars (n : nat) (s : string) : string :=
  match n, s with
  | S n', String _ rest => dropChars n' rest
  | _, _ => s
  end.

Fixpoint replace (pattern replacement s : string) : string :=
  if String.prefix pattern s
  then replacement +:+ dropChars (String.length pattern) s
  else match s with
       | EmptyString => EmptyString
       | String c rest => String c (replace pattern replacement rest)
       end.

(** [s.split(sep)] for a separator of one character. *)
Fixpoint split (sep : ascii) (s : string) : list string :=
  match s with
  | EmptyString => [EmptyString]
  | String c rest =>
      if Stdlib.Strings.Ascii.eqb c sep then EmptyString :: split sep rest
      else match split sep rest with
           | piece :: pieces => String c piece :: pieces
           | [] => [String c EmptyString]
           end
  end.

(** [pieces.join(sep)] *)
Fixpoint join (sep : string) (pieces : list string) : string :=
  match pieces with
  | [] => EmptyString
  | [piece] => piece
  | piece :: rest => piece +:+ sep +:+ join sep rest
  end.

(** The module name that [findElmFilesInProjectWorker] derives from the
    path of a file relative to its source directory:
    [relative.replace(".elm", "").split(sep).join(".")]. The newer worker
    splits at ["/"], the older one at a backslash. *)
Definition moduleNameOf (sep : ascii) (relative : string) : string :=
  join "." (split sep (replace ".elm" "" relative)).

Definition slash : ascii := "/"%char.
Definition backslash : ascii := "\"%char.

Section Worker.
(** [path.relative] and [normalizeUri] of [./util/path] and [URI.file] of
    vscode-uri are taken as given. *)
Variable relative : string → string → string.
Variable normalizeUri : string → string.
Variable uriFile : string → string.

(** One step of the [forEach] over the directory listing: the entry that is
    set in [project.moduleToUriMap]. *)
Definition discovered (sourceDir matchingPath : string) : string * string :=
  let matching := normalizeUri matchingPath in
  (moduleNameOf slash (relative sourceDir matching), uriFile matching).

(** [findElmFilesInProjectWorker(sourceDir, project)] over the listing that
    [host.readDirectory(sourceDir)] returned: the module table after it and
    the files found. *)
Definition findElmFilesInProjectWorker (sourceDir : string)
    (listing : list string) (moduleToUriMap : gmap string string)
    : gmap string string * list string :=
  (foldl (λ table matchingPath,
            let '(moduleName, uri) := discovered sourceDir matchingPath in
            <[moduleName := uri]> table)
         moduleToUriMap listing,
   normalizeUri <$> listing).
End Worker.

(** The module name in the words of the specification: the trailing
    extension is removed and every separator becomes a dot. *)
Fixpoint stripExtension (ext s : string) : string :=
  if String.eqb s ext then EmptyString
  else match s with
       | EmptyString => EmptyString
       | String c rest => String c (stripExtension ext rest)
       end.

Fixpoint dotted (sep : ascii) (s : string) : string :=
  match s with
  | EmptyString => EmptyString
  | String c rest =>
      String (if Stdlib.Strings.Ascii.eqb c sep then "."%char else c) (dotted sep rest)
  end.

Definition specModuleName (sep : ascii) (relative : string) : string :=
  dotted sep (stripExtension ".elm" relative).

(** The first [".elm"] of the path is its end. *)
Fixpoint elmOnlyAtEnd (s : string) : bool :=
  if String.prefix ".elm" s then String.eqb s ".elm"
  else match s with
       | EmptyString => true
       | String _ rest => elmOnlyAtEnd rest
       end.

Example moduleNameOf_nested :
  moduleNameOf slash "Page/Home.elm" = "Page.Home"
  ∧ specModuleName slash "Page/Home.elm" = "Page.Home".
Proof. split; reflexivity. Qed.

Lemma split_nonempty sep s : split sep s ≠ [].
Proof.
  destruct s as [|c rest]; simpl; [done|].
  destruct (Stdlib.Strings.Ascii.eqb c sep); [done|]. by destruct (split sep rest).
Qed.

Lemma join_cons_char sep c piece pieces :
  join sep (String c piece :: pieces) = String c (join sep (piece :: pieces)).
Proof. simpl. by destruct pieces. Qed.

(** Splitting at a character and joining with a dot replaces every
    occurrence of the character by a dot and alters nothing else. *)
Lemma join_split_dotted sep s : join "." (split sep s) = dotted sep s.
Proof.
  induction s as [|c rest IH]; simpl; [done|].
  destruct (Stdlib.Strings.Ascii.eqb c sep).
  - pose proof (split_nonempty sep rest) as Hne.
    destruct (split sep rest) as [|piece pieces] eqn:Hs; [done|].
    rewrite <- IH. reflexivity.
  - pose proof (split_nonempty sep rest) as Hne.
    destruct (split sep rest) as [|piece pieces] eqn:Hs; [done|].
    rewrite join_cons_char. by rewrite IH.
Qed.

Lemma replace_unfold pattern replacement s :
  replace pattern replacement s
  = if String.prefix pattern s
    then replacement +:+ dropChars (String.length pattern) s
    else match s with
         | EmptyString => EmptyString
         | String c rest => String c (replace pattern replacement rest)
         end.
Proof. by destruct s. Qed.

Lemma stripExtension_unfold ext s :
  stripExtension ext s
  = if String.eqb s ext then EmptyString
    else match s with
         | EmptyString => EmptyString
         | String c rest => String c (stripExtension ext rest)
         end.
Proof. by destruct s. Qed.

Lemma elmOnlyAtEnd_unfold s :
  elmOnlyAtEnd s
  = if String.prefix ".elm" s then String.eqb s ".elm"
    else match s with
         | EmptyString => true
         | String _ rest => elmOnlyAtEnd rest
         end.
Proof. by destruct s. Qed.

Lemma prefix_refl (s : string) : String.prefix s s = true.
Proof.
  induction s as [|c s IH]; simpl; [done|].
  by destruct (ascii_dec c c).
Qed.

(** On such a path the worker removes the extension, and the module name is
    the one of the specification. *)
Lemma replace_strips_extension s :
  elmOnlyAtEnd s = true → replace ".elm" "" s = stripExtension ".elm" s.
Proof.
  induction s as [|c rest IH]; [done|].
  rewrite elmOnlyAtEnd_unfold, replace_unfold, stripExtension_unfold.
  destruct (String.prefix ".elm" (String c rest)) eqn:Hprefix.
  - intros Heq. rewrite Heq. apply String.eqb_eq in Heq. by rewrite Heq.
  - destruct (String.eqb (String c rest) ".elm") eqn:Heq.
    + apply String.eqb_eq in Heq. rewrite Heq in Hprefix.
      by rewrite prefix_refl in Hprefix.
    + intros Hrest. by rewrite IH.
Qed.

Lemma moduleNameOf_specModuleName sep relative :
  elmOnlyAtEnd relative = true →
  moduleNameOf sep relative = specModuleName sep relative.
Proof.
  intros Hend. unfold moduleNameOf, specModuleName.
  by rewrite join_split_dotted, replace_strips_extension.
Qed.

(** The worker on a listing of two files, with paths made relative by
    dropping the source directory and its separator. *)
Example findElmFilesInProjectWorker_demo :
  (findElmFilesInProjectWorker
     (λ from to, dropChars (S (String.length from)) to) (λ p, p)
     (λ p, "file://" +:+ p) "/app/src"
     ["/app/src/Main.elm"; "/app/src/Page/Home.elm"] ∅).1
  = <["Page.Home" := "file:///app/src/Page/Home.elm"]>
      {["Main" := "file:///app/src/Main.elm"]}.
Proof. reflexivity. Qed.

(** C9 fails on the newer worker: [replace] removes the first [".elm"] of
    the relative path, which is not the extension when a directory name
    holds one. The specification's module name for the same file differs. *)
Theorem moduleNameOf_removes_first_elm :
  moduleNameOf slash "Views.elm/Main.elm" = "Views.Main.elm"
  ∧ specModuleName slash "Views.elm/Main.elm" = "Views.elm.Main"
  ∧ moduleNameOf slash "Views.elm/Main.elm"
    ≠ specModuleName slash "Views.elm/Main.elm".
Proof. split_and!; [reflexivity | reflexivity | discriminate]. Qed.

(** The older worker splits at a backslash: a relative path with forward
    slashes keeps them. *)
Example moduleNameOf_backslash_keeps_slashes :
  moduleNameOf backslash "Page/Home.elm" = "Page/Home".
Proof. reflexivity. Qed.

(** *** From a module name to its file and back *)

(** A piece of a module name: no separator and no dot in it. *)
Definition plainSegment (sep : ascii) (segment : string) : bool :=
  forallb (λ c, negb (Stdlib.Strings.Ascii.eqb c sep)
                && negb (Stdlib.Strings.Ascii.eqb c "."))
          (String.list_ascii_of_string segment).

Definition dotFree (s : string) : bool :=
  forallb (λ c, negb (Stdlib.Strings.Ascii.eqb c "."))
          (String.list_ascii_of_string s).

Lemma append_cons c (a b : string) : String c a +:+ b = String c (a +:+ b).
Proof. reflexivity. Qed.

Lemma append_nil (b : string) : EmptyString +:+ b = b.
Proof. reflexivity. Qed.

Lemma dotFree_append a b :
  dotFree a = true → dotFree b = true → dotFree (a +:+ b) = true.
Proof.
  unfold dotFree. induction a as [|c a IH]; intros Ha Hb; [done|].
  rewrite append_cons. simpl in *.
  apply andb_prop in Ha as [Hc Ha]. rewrite Hc. simpl. by apply IH.
Qed.

Lemma plainSegment_dotFree sep segment :
  plainSegment sep segment = true → dotFree segment = true.
Proof.
  unfold plainSegment, dotFree.
  induction (String.list_ascii_of_string segment) as [|c l IH]; [done|].
  simpl. intros H. apply andb_prop in H as [Hc Hl].
  apply andb_prop in Hc as [_ Hdot]. rewrite Hdot. simpl. by apply IH.
Qed.

Lemma join_dotFree sep segments :
  Stdlib.Strings.Ascii.eqb sep "." = false →
  Forall (λ segment, plainSegment sep segment = true) segments →
  dotFree (join (String sep EmptyString) segments) = true.
Proof.
  intros Hsep Hall. induction Hall as [|segment rest Hseg Hrest IH]; [done|].
  destruct rest as [|next rest].
  - simpl. by eapply plainSegment_dotFree.
  - change (join (String sep EmptyString) (segment :: next :: rest))
      with (segment +:+ String sep EmptyString
            +:+ join (String sep EmptyString) (next :: rest)).
    apply dotFree_append; [by eapply plainSegment_dotFree|].
    apply dotFree_append; [|done].
    unfold dotFree. simpl. by rewrite Hsep.
Qed.

Lemma replace_extension_of_dotFree s :
  dotFree s = true → replace ".elm" "" (s +:+ ".elm") = s.
Proof.
  unfold dotFree. induction s as [|c s IH]; [intros _; reflexivity|].
  simpl String.list_ascii_of_string. simpl forallb. intros H.
  apply andb_prop in H as [Hc Hs].
  rewrite append_cons, replace_unfold.
  assert (Hprefix : String.prefix ".elm" (String c (s +:+ ".elm")) = false).
  { change (String.prefix ".elm" (String c (s +:+ ".elm")))
      with (if ascii_dec "." c then String.prefix "elm" (s +:+ ".elm")
            else false).
    destruct (ascii_dec "." c) as [Heq|Hne]; [|done].
    subst c. by rewrite Stdlib.Strings.Ascii.eqb_refl in Hc. }
  rewrite Hprefix. by rewrite IH.
Qed.

Lemma dotted_append sep a b :
  dotted sep (a +:+ b) = dotted sep a +:+ dotted sep b.
Proof.
  induction a as [|c a IH]; [done|].
  rewrite append_cons. simpl. by rewrite IH.
Qed.

Lemma dotted_plainSegment sep segment :
  plainSegment sep segment = true → dotted sep segment = segment.
Proof.
  unfold plainSegment. induction segment as [|c segment IH]; [done|].
  simpl. intros H. apply andb_prop in H as [Hc Hrest].
  apply andb_prop in Hc as [Hsep _]. apply negb_true_iff in Hsep.
  rewrite Hsep. by rewrite IH.
Qed.

Lemma dotted_join sep segments :
  Forall (λ segment, plainSegment sep segment = true) segments →
  dotted sep (join (String sep EmptyString) segments) = join "." segments.
Proof.
  intros Hall. induction Hall as [|segment rest Hseg Hrest IH]; [done|].
  destruct rest as [|next rest].
  - simpl. by apply dotted_plainSegment.
  - change (join (String sep EmptyString) (segment :: next :: rest))
      with (segment +:+ String sep EmptyString
            +:+ join (String sep EmptyString) (next :: rest)).
    change (join "." (segment :: next :: rest))
      with (segment +:+ "." +:+ join "." (next :: rest)).
    rewrite !dotted_append, IH, dotted_plainSegment by done.
    simpl. by rewrite Stdlib.Strings.Ascii.eqb_refl.
Qed.

(** X4: the module name that the worker derives from the file of a module
    is the name of that module: for pieces without separator and dot, the
    path made of the pieces joined by the separator and followed by
    [".elm"] yields the pieces joined by dots. *)
Theorem moduleNameOf_of_module_path (sep : ascii) (segments : list string) :
  Stdlib.Strings.Ascii.eqb sep "." = false →
  Forall (λ segment, plainSegment sep segment = true) segments →
  moduleNameOf sep (join (String sep EmptyString) segments +:+ ".elm")
  = join "." segments.
Proof.
  intros Hsep Hall. unfold moduleNameOf.
  rewrite replace_extension_of_dotFree by by apply join_dotFree.
  rewrite join_split_dotted. by apply dotted_join.
Qed.

Lemma moduleNameOf_of_module_path_witness :
  moduleNameOf slash "Page/Home/View.elm" = "Page.Home.View".
Proof.
  apply (moduleNameOf_of_module_path slash ["Page"; "Home"; "View"]).
  - reflexivity.
  - repeat constructor.
Defined.

(** *** The module table after a directory listing *)

Section WorkerTable.
Variable relative : string → string → string.
Variable normalizeUri : string → string.
Variable uriFile : string → string.

Local Abbreviation entryOf :=
  (discovered relative normalizeUri uriFile).
Local Abbreviation worker :=
  (findElmFilesInProjectWorker relative normalizeUri uriFile).

Lemma worker_untouched sourceDir listing : ∀ table moduleName,
  (∀ matchingPath, matchingPath ∈ listing →
                   (entryOf sourceDir matchingPath).1 ≠ moduleName) →
  (worker sourceDir listing table).1 !! moduleName = table !! moduleName.
Proof.
  unfold findElmFilesInProjectWorker. cbn [fst].
  induction listing as [|matchingPath rest IH]; intros table moduleName Hall;
    cbn [foldl]; [done|].
  rewrite IH.
  - assert (Hne : (entryOf sourceDir matchingPath).1 ≠ moduleName).
    { apply Hall. by apply elem_of_cons; left. }
    destruct (discovered relative normalizeUri uriFile sourceDir matchingPath)
      as [name uri].
    by rewrite lookup_insert_ne.
  - intros q Hq. apply Hall. by apply elem_of_cons; right.
Qed.

(** X5: after the worker has gone through a directory listing, the module
    name of a file is bound to the URI of that file unless a later file of
    the listing yields the same module name, and a module name that no file
    of the listing yields keeps the binding it had. *)
Theorem findElmFilesInProjectWorker_last_wins (sourceDir : string)
    (before after : list string) (matchingPath : string)
    (table : gmap string string) :
  (∀ later, later ∈ after →
     (discovered relative normalizeUri uriFile sourceDir later).1
     ≠ (discovered relative normalizeUri uriFile sourceDir matchingPath).1) →
  (findElmFilesInProjectWorker relative normalizeUri uriFile sourceDir
     (before ++ matchingPath :: after) table).1
    !! (discovered relative normalizeUri uriFile sourceDir matchingPath).1
  = Some (discovered relative normalizeUri uriFile sourceDir matchingPath).2
  ∧ ∀ moduleName,
      (∀ listed, listed ∈ before ++ matchingPath :: after →
         (discovered relative normalizeUri uriFile sourceDir listed).1
         ≠ moduleName) →
      (findElmFilesInProjectWorker relative normalizeUri uriFile sourceDir
         (before ++ matchingPath :: after) table).1 !! moduleName
      = table !! moduleName.
Proof.
  intros Hlater. split; [|intros moduleName; apply worker_untouched].
  pose proof (worker_untouched sourceDir after) as Hrest.
  unfold findElmFilesInProjectWorker in *. cbn [fst] in *.
  rewrite foldl_app. cbn [foldl]. rewrite Hrest by done.
  destruct (discovered relative normalizeUri uriFile sourceDir matchingPath)
    as [name uri]. cbn [fst snd]. by rewrite lookup_insert_eq.
Qed.

End WorkerTable.

Lemma findElmFilesInProjectWorker_last_wins_witness :
  (findElmFilesInProjectWorker
     (λ from to, dropChars (S (String.length from)) to) (λ p, p)
     (λ p, "file://" +:+ p) "/app/src"
     (["/app/src/Main.elm"] ++ "/app/src/Page/Home.elm"
        :: ["/app/src/Util.elm"]) ∅).1 !! "Page.Home"
  = Some "file:///app/src/Page/Home.elm".
Proof.
  apply (findElmFilesInProjectWorker_last_wins
           (λ from to, dropChars (S (String.length from)) to) (λ p, p)
           (λ p, "file://" +:+ p) "/app/src"
           ["/app/src/Main.elm"] ["/app/src/Util.elm"]
           "/app/src/Page/Home.elm" ∅).
  intros later Hin. apply list_elem_of_singleton in Hin. by subst.
Defined.

End Discovery.

(** ** Bulk population of the forest at initialization *)

Module Population.

(** An [IElmFile]; the owning project is the identity of a project object. *)
Record IElmFile := {
  path : string;
  maintainerAndPackageName : option string;
  project : nat
}.

Inductive LogLine :=
| Info (text : string)
| Error (text : string).

Definition isError (l : LogLine) : bool :=
  match l with Error _ => true | Info _ => false end.

Section Populate.
Context {Tree : Type}.
(** The host and the parser: [host.readFile] rejects ([None]) or resolves
    with the text, [parser.parse] throws ([None]) or returns a tree;
    [stackOf] is the text of the error either one raises for a path. *)
Variable readFile : string → option string.
Variable parse : string → option Tree.
Variable uriFile : string → string.
Variable stackOf : string → string.
Variable rootProject : nat.

(** Modelled from the spec: the class [Forest] of [./forest] is not part of
    the sources. An entry holds the URI, the parsed tree, the writable flag,
    the owning project and the optional package qualifier; [setTree] upserts
    the entry of a URI. *)
Record SourceFile := {
  uri : string;
  writeable : bool;
  referenced : bool;
  tree : Tree;
  owner : nat;
  qualifier : option string
}.

(** Modelled from the spec: [Forest.setTree] upserts the entry of the
    URI. *)
Definition setTree (u : string) (w r : bool) (t : Tree) (p : nat)
    (q : option string) (forest : gmap string SourceFile)
    : gmap string SourceFile :=
  <[u := {| uri := u; writeable := w; referenced := r; tree := t;
            owner := p; qualifier := q |}]> forest.

(** What population reads and writes: the forest, the console of the
    connection, and the number of progress callbacks made. *)
Record Init := {
  forest : gmap string SourceFile;
  console : list LogLine;
  progress : nat
}.

Definition log (l : LogLine) (st : Init) : Init :=
  {| forest := forest st; console := console st ++ [l];
     progress := progress st |}.

(** [readAndAddToForest(filePath, callback)]: everything from the read to
    the callback sits in one [try], whose [catch] logs the error. *)
Definition readAndAddToForest (st : Init) (filePath : IElmFile) : Init :=
  let st1 := log (Info ("Adding " +:+ path filePath)) st in
  match readFile (path filePath) with
  | None => log (Error (stackOf (path filePath))) st1
  | Some fileContent =>
      match parse fileContent with
      | None => log (Error (stackOf (path filePath))) st1
      | Some t =>
          {| forest :=
               setTree (uriFile (path filePath))
                 (bool_decide (project filePath = rootProject)) true t
                 (project filePath) (maintainerAndPackageName filePath)
                 (forest st1);
             console := console st1;
             progress := S (progress st1) |}
      end
  end.

(** The batch of [initWorkspace]: one promise per file, all awaited by
    [Promise.all]. No promise rejects, and each writes the entry of its own
    file, so the batch is the files taken one after the other, in the order
    in which their reads complete. *)
Definition populate (st : Init) (elmFilePaths : list IElmFile) : Init :=
  foldl readAndAddToForest st elmFilePaths.

(** The tree a file yields, when it can be read and parsed. *)
Definition parsed (filePath : IElmFile) : option Tree :=
  readFile (path filePath) ≫= parse.

Definition errorsLogged (st : Init) : nat :=
  length (filter (λ l, isError l = true) (console st)).

Definition failures (elmFilePaths : list IElmFile) : nat :=
  length (filter (λ f, parsed f = None) elmFilePaths).

Lemma readAndAddToForest_failure st f :
  parsed f = None →
  forest (readAndAddToForest st f) = forest st
  ∧ errorsLogged (readAndAddToForest st f) = S (errorsLogged st).
Proof.
  unfold parsed, readAndAddToForest, errorsLogged. intros Hf.
  destruct (readFile (path f)) as [content|]; simpl in *.
  - rewrite Hf. simpl. split; [done|].
    rewrite !filter_app, !length_app. simpl. lia.
  - split; [done|]. rewrite !filter_app, !length_app. simpl. lia.
Qed.

Lemma readAndAddToForest_success st f t :
  parsed f = Some t →
  forest (readAndAddToForest st f)
  = setTree (uriFile (path f)) (bool_decide (project f = rootProject)) true t
      (project f) (maintainerAndPackageName f) (forest st)
  ∧ errorsLogged (readAndAddToForest st f) = errorsLogged st.
Proof.
  unfold parsed, readAndAddToForest, errorsLogged. intros Hf.
  destruct (readFile (path f)) as [content|]; simpl in *; [|done].
  rewrite Hf. simpl. split; [done|].
  rewrite !filter_app, !length_app. simpl. lia.
Qed.

Lemma populate_snoc st fs f :
  populate st (fs ++ [f]) = readAndAddToForest (populate st fs) f.
Proof. unfold populate. by rewrite foldl_app. Qed.

Lemma failures_snoc fs f :
  failures (fs ++ [f])
  = failures fs + (if parsed f is None then 1 else 0).
Proof.
  unfold failures. rewrite filter_app, length_app. f_equal.
  destruct (parsed f) eqn:Hp.
  - rewrite filter_cons_False; [done|]. by rewrite Hp.
  - by rewrite filter_cons_True.
Qed.

(** C8: whatever files of the batch fail, every file that can be read and
    parsed has its entry in the forest afterwards, holding a tree parsed
    from a file of the batch with that URI; an entry differs from the one
    before the batch only where a file of the batch was read and parsed, so
    a failing file creates none; and one error is logged per failing file. *)
Theorem populate_isolates_failures (st : Init) (elmFilePaths : list IElmFile) :
  (∀ f, f ∈ elmFilePaths → is_Some (parsed f) →
     ∃ entry g, forest (populate st elmFilePaths) !! uriFile (path f)
                = Some entry
       ∧ g ∈ elmFilePaths ∧ uriFile (path g) = uriFile (path f)
       ∧ parsed g = Some (tree entry))
  ∧ (∀ u, forest (populate st elmFilePaths) !! u ≠ forest st !! u →
       ∃ g, g ∈ elmFilePaths ∧ uriFile (path g) = u ∧ is_Some (parsed g))
  ∧ errorsLogged (populate st elmFilePaths)
    = errorsLogged st + failures elmFilePaths.
Proof.
  induction elmFilePaths as [|f fs IH] using rev_ind.
  - split_and!.
    + intros f Hin. by apply elem_of_nil in Hin.
    + intros u Hne. done.
    + unfold failures. simpl. lia.
  - destruct IH as (IHadd & IHonly & IHerr).
    rewrite populate_snoc, failures_snoc.
    destruct (parsed f) as [t|] eqn:Hp.
    + destruct (readAndAddToForest_success (populate st fs) f t Hp)
        as [Hforest Herrs].
      rewrite Hforest, Herrs. unfold setTree. split_and!.
      * intros g Hin Hg.
        destruct (decide (uriFile (path g) = uriFile (path f))) as [Heq|Hne].
        -- rewrite Heq, lookup_insert_eq. eexists _, f. simpl.
           split_and!; [done| |done|done]. apply elem_of_app. right.
           by apply list_elem_of_singleton.
        -- rewrite lookup_insert_ne by done.
           apply elem_of_app in Hin as [Hin|Hin].
           ++ destruct (IHadd g Hin Hg) as (entry & h & He & Hh & Hu & Ht).
              exists entry, h. split_and!; try done. apply elem_of_app. by left.
           ++ apply list_elem_of_singleton in Hin. by subst.
      * intros u Hne.
        destruct (decide (uriFile (path f) = u)) as [Heq|Hneq].
        -- exists f. split_and!; [|done|by rewrite Hp].
           apply elem_of_app. right. by apply list_elem_of_singleton.
        -- rewrite lookup_insert_ne in Hne by done.
           destruct (IHonly u Hne) as (g & Hg & Hu & Hs).
           exists g. split_and!; try done. apply elem_of_app. by left.
      * lia.
    + destruct (readAndAddToForest_failure (populate st fs) f Hp)
        as [Hforest Herrs].
      rewrite Hforest, Herrs. split_and!.
      * intros g Hin Hg. apply elem_of_app in Hin as [Hin|Hin].
        -- destruct (IHadd g Hin Hg) as (entry & h & He & Hh & Hu & Ht).
           exists entry, h. split_and!; try done. apply elem_of_app. by left.
        -- apply list_elem_of_singleton in Hin. subst g.
           rewrite Hp in Hg. by destruct Hg.
      * intros u Hne. destruct (IHonly u Hne) as (g & Hg & Hu & Hs).
        exists g. split_and!; try done. apply elem_of_app. by left.
      * lia.
Qed.

(** *** What the batch writes *)

Definition infosLogged (st : Init) : nat :=
  length (filter (λ l, isError l = false) (console st)).

(** X6: every entry that the batch leaves in the forest and that was not
    there before was made from a file of the batch that could be read and
    parsed: it is stored under the URI of that file, holds its tree, its
    project and its package qualifier, is marked as referenced, and is
    writeable exactly when the file belongs to the root project. *)
Theorem populate_entries_of_files (st : Init) (elmFilePaths : list IElmFile)
    (u : string) (entry : SourceFile) :
  forest (populate st elmFilePaths) !! u = Some entry →
  forest st !! u = Some entry
  ∨ ∃ f, f ∈ elmFilePaths ∧ uriFile (path f) = u ∧ uri entry = u
         ∧ parsed f = Some (tree entry)
         ∧ owner entry = project f
         ∧ qualifier entry = maintainerAndPackageName f
         ∧ referenced entry = true
         ∧ writeable entry = bool_decide (project f = rootProject).
Proof.
  revert entry. induction elmFilePaths as [|f fs IH] using rev_ind;
    intros entry; [by left|].
  rewrite populate_snoc.
  assert (Hkeep : ∀ e, forest (populate st fs) !! u = Some e →
    forest st !! u = Some e
    ∨ ∃ g, g ∈ fs ++ [f] ∧ uriFile (path g) = u ∧ uri e = u
           ∧ parsed g = Some (tree e) ∧ owner e = project g
           ∧ qualifier e = maintainerAndPackageName g
           ∧ referenced e = true
           ∧ writeable e = bool_decide (project g = rootProject)).
  { intros e He. destruct (IH e He) as [Hold|(g & Hg & Hrest)]; [by left|].
    right. exists g. split; [|done]. apply elem_of_app. by left. }
  destruct (parsed f) as [t|] eqn:Hp.
  - destruct (readAndAddToForest_success (populate st fs) f t Hp)
      as [Hforest _].
    rewrite Hforest. unfold setTree.
    destruct (decide (uriFile (path f) = u)) as [Heq|Hne].
    + rewrite Heq, lookup_insert_eq. intros [= <-]. right. exists f. simpl.
      split_and!; try done. apply elem_of_app. right.
      by apply list_elem_of_singleton.
    + rewrite lookup_insert_ne by done. apply Hkeep.
  - destruct (readAndAddToForest_failure (populate st fs) f Hp)
      as [Hforest _].
    rewrite Hforest. apply Hkeep.
Qed.

Lemma readAndAddToForest_counts st f :
  progress (readAndAddToForest st f)
  = progress st + (if parsed f is None then 0 else 1)
  ∧ infosLogged (readAndAddToForest st f) = S (infosLogged st)
  ∧ ∃ logged, console (readAndAddToForest st f) = console st ++ logged.
Proof.
  unfold parsed, readAndAddToForest, infosLogged.
  destruct (readFile (path f)) as [content|]; simpl;
    [destruct (parse content) as [t|]; simpl|].
  - split_and!; [lia| |by eexists].
    rewrite !filter_app, !length_app. simpl. lia.
  - split_and!; [lia| |by rewrite <- app_assoc; eexists].
    rewrite !filter_app, !length_app. simpl. lia.
  - split_and!; [lia| |by rewrite <- app_assoc; eexists].
    rewrite !filter_app, !length_app. simpl. lia.
Qed.

(** X7: the batch calls the progress callback once for each file that it
    read and parsed and never for a file that failed; it logs one
    information line per file, failing or not, and only appends to the
    console. *)
Theorem populate_progress (st : Init) (elmFilePaths : list IElmFile) :
  progress (populate st elmFilePaths) + failures elmFilePaths
  = progress st + length elmFilePaths
  ∧ infosLogged (populate st elmFilePaths)
    = infosLogged st + length elmFilePaths
  ∧ ∃ logged, console (populate st elmFilePaths) = console st ++ logged.
Proof.
  induction elmFilePaths as [|f fs IH] using rev_ind.
  - unfold failures. simpl. split_and!; [lia|lia|].
    exists []. by rewrite app_nil_r.
  - destruct IH as (IHp & IHi & logged & IHc).
    rewrite populate_snoc, failures_snoc, length_app. simpl.
    destruct (readAndAddToForest_counts (populate st fs) f)
      as (Hp & Hi & logged' & Hc).
    rewrite Hp, Hi, Hc, IHc. split_and!.
    + destruct (parsed f); lia.
    + lia.
    + exists (logged ++ logged'). by rewrite app_assoc.
Qed.

End Populate.

(** A batch of three files whose second one cannot be read. *)
Definition demoRead (p : string) : option string :=
  if decide (p = "/app/src/Broken.elm") then None else Some p.

Definition demoBatch : list IElmFile :=
  [ {| path := "/app/src/Main.elm"; maintainerAndPackageName := None;
       project := 0 |};
    {| path := "/app/src/Broken.elm"; maintainerAndPackageName := None;
       project := 0 |};
    {| path := "/app/src/Page/Home.elm"; maintainerAndPackageName := None;
       project := 0 |} ].

Definition demoInit : @Init string :=
  {| forest := ∅; console := []; progress := 0 |}.

Definition demoPopulated : @Init string :=
  populate demoRead Some (λ p, "file://" +:+ p) (λ p, "ENOENT " +:+ p) 0
    demoInit demoBatch.

Example populate_skips_unreadable_file :
  (tree <$> forest demoPopulated !! "file:///app/src/Main.elm")
    = Some "/app/src/Main.elm"
  ∧ forest demoPopulated !! "file:///app/src/Broken.elm" = None
  ∧ (tree <$> forest demoPopulated !! "file:///app/src/Page/Home.elm")
    = Some "/app/src/Page/Home.elm"
  ∧ errorsLogged demoPopulated = 1
  ∧ progress demoPopulated = 2.
Proof. vm_compute. done. Qed.

(** The batch with a file of a dependency, the project [1]. *)
Definition demoDependencyFile : IElmFile :=
  {| path := "/pkg/elm/core/1.0.5/src/Basics.elm";
     maintainerAndPackageName := Some "elm/core"; project := 1 |}.

Definition demoDependencyEntry : @SourceFile string :=
  {| uri := "file:///pkg/elm/core/1.0.5/src/Basics.elm"; writeable := false;
     referenced := true; tree := "/pkg/elm/core/1.0.5/src/Basics.elm";
     owner := 1; qualifier := Some "elm/core" |}.

Lemma populate_entries_of_files_witness :
  forest demoInit !! "file:///pkg/elm/core/1.0.5/src/Basics.elm"
  = Some demoDependencyEntry
  ∨ ∃ f, f ∈ demoBatch ++ [demoDependencyFile]
         ∧ "file://" +:+ path f = "file:///pkg/elm/core/1.0.5/src/Basics.elm"
         ∧ uri demoDependencyEntry
           = "file:///pkg/elm/core/1.0.5/src/Basics.elm"
         ∧ parsed demoRead Some f = Some (tree demoDependencyEntry)
         ∧ owner demoDependencyEntry = project f
         ∧ qualifier demoDependencyEntry = maintainerAndPackageName f
         ∧ referenced demoDependencyEntry = true
         ∧ writeable demoDependencyEntry = bool_decide (project f = 0).
Proof.
  apply (populate_entries_of_files demoRead Some (λ p, "file://" +:+ p)
           (λ p, "ENOENT " +:+ p) 0 demoInit
           (demoBatch ++ [demoDependencyFile])
           "file:///pkg/elm/core/1.0.5/src/Basics.elm" demoDependencyEntry).
  vm_compute. reflexivity.
Defined.

End Population.

(** ** The project graph

    Project objects are shared: the resolved-package cache hands the same
    [IElmPackage] to every dependent, and the module table of a project is
    updated in place. A project is therefore referred to by the identity of
    its object, and the objects live in a store. *)

Module Projects.

Inductive ProjectType := Application | Package.

(** [IElmProject], with the two fields [IElmPackage] adds. A dependency map
    is a [Map<string, IElmPackage>] in insertion order whose values are
    object identities; [exposedModules] is the empty set for an
    application, which has none. *)
Record ElmProject := {
  type : ProjectType;
  uri : string;
  dependencies : list (string * nat);
  testDependencies : list (string * nat);
  sourceDirectories : list string;
  testDirectories : list string;
  moduleToUriMap : gmap string string;
  maintainerAndPackageName : option string;
  exposedModules : gset string
}.

Definition withModuleToUriMap (table : gmap string string) (p : ElmProject)
    : ElmProject :=
  {| type := type p; uri := uri p; dependencies := dependencies p;
     testDependencies := testDependencies p;
     sourceDirectories := sourceDirectories p;
     testDirectories := testDirectories p;
     moduleToUriMap := table;
     maintainerAndPackageName := maintainerAndPackageName p;
     exposedModules := exposedModules p |}.

End Projects.

(** ** Exposure propagation *)

Module Exposure.
Import Projects.

(** The inner loop of [loadForDependencies]:
    [dep.moduleToUriMap.forEach((uri, module) => { if
    (dep.exposedModules.has(module)) project.moduleToUriMap.set(module, uri) })].
    The keys of one table are distinct, so the order of the [forEach] does
    not show in the result. *)
Definition copyExposed (dep project : ElmProject) : ElmProject :=
  withModuleToUriMap
    (map_fold (λ module uri table,
                 if decide (module ∈ exposedModules dep)
                 then <[module := uri]> table else table)
              (moduleToUriMap project) (moduleToUriMap dep))
    project.

(** [loadForDependencies(deps)] of the project [project], with the
    recursive call of [findExposedModulesOfDependencies] as [recurse]. *)
Fixpoint loadForDependencies
    (recurse : nat → gmap nat ElmProject → option (gmap nat ElmProject))
    (project : nat) (deps : list (string * nat)) (heap : gmap nat ElmProject)
    : option (gmap nat ElmProject) :=
  match deps with
  | [] => Some heap
  | (_, dep) :: rest =>
      d ← heap !! dep;
      p ← heap !! project;
      heap' ← recurse dep (<[project := copyExposed d p]> heap);
      loadForDependencies recurse project rest heap'
  end.

(** [findExposedModulesOfDependencies(project)]. The recursion follows the
    dependency maps; [fuel] bounds its depth, and [None] is a run that
    needs more. *)
Fixpoint findExposedModulesOfDependencies (fuel : nat) (rootProject : nat)
    (project : nat) (heap : gmap nat ElmProject)
    : option (gmap nat ElmProject) :=
  match fuel with
  | 0 => None
  | S fuel' =>
      p ← heap !! project;
      heap1 ← loadForDependencies
                 (findExposedModulesOfDependencies fuel' rootProject)
                 project (dependencies p) heap;
      if decide (project = rootProject)
      then loadForDependencies
             (findExposedModulesOfDependencies fuel' rootProject)
             project (testDependencies p) heap1
      else Some heap1
  end.

(** What propagation never changes in a project. *)
Definition shape (p : ElmProject) : list (string * nat) * list (string * nat)
                                   * gset string :=
  (dependencies p, testDependencies p, exposedModules p).

(** The dependencies whose tables [project] reads: its dependencies, and
    its test dependencies when it is the root. *)
Definition reads (rootProject project : nat) (p : ElmProject) (dep : nat)
    : Prop :=
  dep ∈ (dependencies p).*2
  ∨ (project = rootProject ∧ dep ∈ (testDependencies p).*2).

(** [module] is exposed by a dependency that [project] reads. *)
Definition exposedTo (heap : gmap nat ElmProject) (rootProject project : nat)
    (module : string) : Prop :=
  ∃ p dep d, heap !! project = Some p ∧ reads rootProject project p dep
             ∧ heap !! dep = Some d ∧ module ∈ exposedModules d.

(** [heap'] comes from [heap] by writes of exposed modules only. *)
Definition propagated (rootProject : nat) (heap heap' : gmap nat ElmProject)
    : Prop :=
  ∀ project,
    match heap !! project, heap' !! project with
    | Some p, Some p' =>
        shape p' = shape p
        ∧ ∀ module uri,
            moduleToUriMap p' !! module = Some uri →
            moduleToUriMap p !! module = Some uri
            ∨ exposedTo heap rootProject project module
    | None, None => True
    | _, _ => False
    end.

(** The projects of [heap'] are those of [heap], each with the dependencies
    and the exposed modules it had. *)
Definition sameShape (heap heap' : gmap nat ElmProject) : Prop :=
  ∀ project,
    match heap !! project, heap' !! project with
    | Some p, Some p' => shape p' = shape p
    | None, None => True
    | _, _ => False
    end.

(** Every dependency of a project of [heap] is a project of [heap], of a
    lower [rank]. *)
Definition ranked (rank : nat → nat) (heap : gmap nat ElmProject) : Prop :=
  ∀ project p dep,
    heap !! project = Some p →
    dep ∈ (dependencies p).*2 ∨ dep ∈ (testDependencies p).*2 →
    rank dep < rank project ∧ is_Some (heap !! dep).

(** *** What propagation may write *)

Lemma copyExposed_lookup dep project module :
  moduleToUriMap (copyExposed dep project) !! module
  = match moduleToUriMap dep !! module with
    | Some uri => if decide (module ∈ exposedModules dep) then Some uri
                  else moduleToUriMap project !! module
    | None => moduleToUriMap project !! module
    end.
Proof.
  unfold copyExposed. simpl.
  apply (map_fold_weak_ind (λ table depTable,
    table !! module
    = match depTable !! module with
      | Some uri => if decide (module ∈ exposedModules dep) then Some uri
                    else moduleToUriMap project !! module
      | None => moduleToUriMap project !! module
      end)).
  - by rewrite lookup_empty.
  - intros i x m r Hfresh IH.
    destruct (decide (i = module)) as [->|Hne].
    + rewrite lookup_insert_eq. rewrite Hfresh in IH.
      destruct (decide (module ∈ exposedModules dep)).
      * by rewrite lookup_insert_eq.
      * done.
    + rewrite (lookup_insert_ne m) by done.
      destruct (decide (i ∈ exposedModules dep)).
      * by rewrite lookup_insert_ne.
      * done.
Qed.

(** A module that the dependency does not expose is not copied. *)
Lemma copyExposed_unexposed dep project module :
  module ∉ exposedModules dep →
  moduleToUriMap (copyExposed dep project) !! module
  = moduleToUriMap project !! module.
Proof.
  intros Hout. rewrite copyExposed_lookup.
  destruct (moduleToUriMap dep !! module); [|done].
  by destruct (decide (module ∈ exposedModules dep)).
Qed.

Lemma propagated_refl rootProject heap : propagated rootProject heap heap.
Proof.
  intros project. destruct (heap !! project) as [p|]; [|done].
  split; [done|]. intros module uri Hl. by left.
Qed.

Lemma propagated_exposedTo rootProject heap heap' project module :
  propagated rootProject heap heap' →
  exposedTo heap' rootProject project module →
  exposedTo heap rootProject project module.
Proof.
  intros Hp (p' & dep & d' & Hproj & Hreads & Hdep & Hexp).
  pose proof (Hp project) as H1. pose proof (Hp dep) as H2.
  rewrite Hproj in H1. rewrite Hdep in H2.
  destruct (heap !! project) as [p|] eqn:Ep; [|done].
  destruct (heap !! dep) as [d|] eqn:Ed; [|done].
  destruct H1 as [Hs1 _]. destruct H2 as [Hs2 _].
  injection Hs1 as Hdeps1 Htest1 Hexp1. injection Hs2 as Hdeps2 Htest2 Hexp2.
  exists p, dep, d. split_and!; try done.
  - unfold reads in *. by rewrite <- Hdeps1, <- Htest1.
  - by rewrite <- Hexp2.
Qed.

Lemma propagated_trans rootProject h1 h2 h3 :
  propagated rootProject h1 h2 → propagated rootProject h2 h3 →
  propagated rootProject h1 h3.
Proof.
  intros H12 H23 project.
  pose proof (H12 project) as A. pose proof (H23 project) as B.
  destruct (h1 !! project) as [p1|], (h2 !! project) as [p2|],
    (h3 !! project) as [p3|]; try done.
  destruct A as [As Am], B as [Bs Bm]. split; [congruence|].
  intros module uri Hl. destruct (Bm module uri Hl) as [Hin|Hexp].
  - by apply Am.
  - right. by eapply propagated_exposedTo.
Qed.

Lemma propagated_copy rootProject heap project p dep d :
  heap !! project = Some p → heap !! dep = Some d →
  reads rootProject project p dep →
  propagated rootProject heap (<[project := copyExposed d p]> heap).
Proof.
  intros Hp Hd Hreads q.
  destruct (decide (project = q)) as [<-|Hne].
  - rewrite lookup_insert_eq, Hp. split; [done|].
    intros module uri. rewrite copyExposed_lookup.
    destruct (moduleToUriMap d !! module) as [u|] eqn:Hm; [|by left].
    destruct (decide (module ∈ exposedModules d)); [|by left].
    intros _. right. by exists p, dep, d.
  - rewrite lookup_insert_ne by done.
    destruct (heap !! q); [|done]. split; [done|]. by left.
Qed.

Lemma propagated_lookup rootProject heap heap' project p :
  propagated rootProject heap heap' → heap' !! project = Some p →
  ∃ p0, heap !! project = Some p0 ∧ shape p = shape p0.
Proof.
  intros Hprop Hl. specialize (Hprop project). rewrite Hl in Hprop.
  destruct (heap !! project) as [p0|]; [|done]. exists p0. by destruct Hprop.
Qed.

Lemma loadForDependencies_propagated rootProject recurse project :
  (∀ dep heap heap', recurse dep heap = Some heap' →
                     propagated rootProject heap heap') →
  ∀ deps heap0 heap heap' p0,
    heap0 !! project = Some p0 →
    (∀ dep, dep ∈ deps.*2 → reads rootProject project p0 dep) →
    propagated rootProject heap0 heap →
    loadForDependencies recurse project deps heap = Some heap' →
    propagated rootProject heap0 heap'.
Proof.
  intros Hrec deps.
  induction deps as [|[name dep] rest IH]; intros heap0 heap heap' p0 Hp0 Hreads H0 Hrun;
    simpl in Hrun.
  - by simplify_eq.
  - destruct (heap !! dep) as [d|] eqn:Ed; simpl in Hrun; [|done].
    destruct (heap !! project) as [p|] eqn:Ep; simpl in Hrun; [|done].
    destruct (recurse dep (<[project:=copyExposed d p]> heap)) as [h2|] eqn:Er;
      simpl in Hrun; [|done].
    eapply (IH heap0 h2 heap' p0); try done.
    + intros dep' Hin. apply Hreads. simpl. by apply elem_of_cons; right.
    + eapply propagated_trans; [exact H0|].
      eapply propagated_trans; [|by eapply Hrec].
      destruct (propagated_lookup _ _ _ _ _ H0 Ep) as (p0' & Hp0' & Hshape).
      rewrite Hp0 in Hp0'. injection Hp0' as <-.
      eapply propagated_copy; try done.
      assert (Hr : reads rootProject project p0 dep).
      { apply Hreads. simpl. by apply elem_of_cons; left. }
      injection Hshape as Hdeps Htest Hexp.
      unfold reads in *. by rewrite Hdeps, Htest.
Qed.

Lemma findExposedModulesOfDependencies_propagated fuel rootProject :
  ∀ project heap heap',
    findExposedModulesOfDependencies fuel rootProject project heap = Some heap' →
    propagated rootProject heap heap'.
Proof.
  induction fuel as [|fuel IH]; intros project heap heap' Hrun; simpl in Hrun;
    [done|].
  destruct (heap !! project) as [p|] eqn:Ep; simpl in Hrun; [|done].
  destruct (loadForDependencies _ project (dependencies p) heap) as [h1|] eqn:E1;
    simpl in Hrun; [|done].
  assert (H1 : propagated rootProject heap h1).
  { eapply (loadForDependencies_propagated rootProject _ project IH
              (dependencies p) heap heap h1 p); try done.
    - intros dep Hin. by left.
    - apply propagated_refl. }
  destruct (decide (project = rootProject)) as [Hroot|Hnot]; [|by simplify_eq].
  eapply (loadForDependencies_propagated rootProject _ project IH
            (testDependencies p) heap h1 heap' p); try done.
  intros dep Hin. by right.
Qed.

(** *** Propagation ends on a graph without cycles *)

Lemma propagated_sameShape rootProject heap heap' :
  propagated rootProject heap heap' → sameShape heap heap'.
Proof.
  intros Hprop project. specialize (Hprop project).
  destruct (heap !! project), (heap' !! project); try done. by destruct Hprop.
Qed.

Lemma sameShape_trans h1 h2 h3 :
  sameShape h1 h2 → sameShape h2 h3 → sameShape h1 h3.
Proof.
  intros H12 H23 project. specialize (H12 project). specialize (H23 project).
  destruct (h1 !! project), (h2 !! project), (h3 !! project); try done.
  congruence.
Qed.

Lemma sameShape_copy heap project p d :
  heap !! project = Some p →
  sameShape heap (<[project := copyExposed d p]> heap).
Proof.
  intros Hp q. destruct (decide (project = q)) as [<-|Hne].
  - by rewrite lookup_insert_eq, Hp.
  - rewrite lookup_insert_ne by done. by destruct (heap !! q).
Qed.

Lemma sameShape_is_Some heap heap' project :
  sameShape heap heap' → is_Some (heap !! project) → is_Some (heap' !! project).
Proof.
  intros Hsame. specialize (Hsame project).
  destruct (heap !! project), (heap' !! project); try done.
Qed.

Lemma sameShape_ranked rank heap heap' :
  sameShape heap heap' → ranked rank heap → ranked rank heap'.
Proof.
  intros Hsame Hranked project p' dep Hp' Hdep.
  pose proof (Hsame project) as Hproject. rewrite Hp' in Hproject.
  destruct (heap !! project) as [p|] eqn:Hp; [|done].
  injection Hproject as Hdeps Htest _. rewrite Hdeps, Htest in Hdep.
  destruct (Hranked project p dep Hp Hdep) as [Hlt Hsome].
  split; [done|]. by eapply sameShape_is_Some.
Qed.

Lemma loadForDependencies_returns rank fuel recurse project :
  (∀ dep heap, ranked rank heap → is_Some (heap !! dep) → rank dep < fuel →
               ∃ heap', recurse dep heap = Some heap' ∧ sameShape heap heap') →
  ∀ deps heap,
    ranked rank heap → is_Some (heap !! project) →
    (∀ dep, dep ∈ deps.*2 → rank dep < fuel ∧ is_Some (heap !! dep)) →
    ∃ heap', loadForDependencies recurse project deps heap = Some heap'
             ∧ sameShape heap heap'.
Proof.
  intros Hrec deps.
  induction deps as [|[name dep] rest IH]; intros heap Hranked Hproject Hdeps;
    simpl.
  - exists heap. split; [done|]. intros q. by destruct (heap !! q).
  - destruct (Hdeps dep) as [Hlt [d Hd]]; [simpl; by left|].
    destruct Hproject as [p Hp]. rewrite Hd, Hp. simpl.
    pose proof (sameShape_copy heap project p d Hp) as Hcopy.
    destruct (Hrec dep (<[project := copyExposed d p]> heap))
      as (heap2 & Hrun & Hshape2); [by eapply sameShape_ranked| |done|].
    { eapply sameShape_is_Some; [exact Hcopy|by rewrite Hd]. }
    rewrite Hrun. simpl.
    pose proof (sameShape_trans _ _ _ Hcopy Hshape2) as Hshape.
    destruct (IH heap2) as (heap' & Hrest & Hshape').
    + by eapply sameShape_ranked.
    + eapply sameShape_is_Some; [exact Hshape|by rewrite Hp].
    + intros dep' Hin. destruct (Hdeps dep') as [Hlt' Hsome'];
        [simpl; by right|].
      split; [done|]. by eapply sameShape_is_Some.
    + exists heap'. split; [done|]. by eapply sameShape_trans.
Qed.

(** On a graph whose dependencies go down in [rank], fuel above the rank
    of a project is enough for propagation from it to end. *)
Lemma findExposedModulesOfDependencies_returns rank rootProject :
  ∀ fuel project heap,
    ranked rank heap → is_Some (heap !! project) → rank project < fuel →
    ∃ heap', findExposedModulesOfDependencies fuel rootProject project heap
             = Some heap'
             ∧ sameShape heap heap'.
Proof.
  induction fuel as [|fuel IH]; intros project heap Hranked [p Hp] Hlt; [lia|].
  simpl. rewrite Hp. simpl.
  destruct (loadForDependencies_returns rank fuel
              (findExposedModulesOfDependencies fuel rootProject) project IH
              (dependencies p) heap) as (heap1 & Hrun1 & Hshape1);
    [done|by rewrite Hp| |].
  { intros dep Hin. destruct (Hranked project p dep Hp) as [Hd Hsome];
      [by left|]. split; [lia|done]. }
  rewrite Hrun1. simpl.
  destruct (decide (project = rootProject)) as [Hroot|Hnot];
    [|by exists heap1].
  destruct (loadForDependencies_returns rank fuel
              (findExposedModulesOfDependencies fuel rootProject) project IH
              (testDependencies p) heap1) as (heap2 & Hrun2 & Hshape2).
  - by eapply sameShape_ranked.
  - eapply sameShape_is_Some; [exact Hshape1|by rewrite Hp].
  - intros dep Hin. destruct (Hranked project p dep Hp) as [Hd Hsome];
      [by right|]. split; [lia|]. by eapply sameShape_is_Some.
  - exists heap2. split; [done|]. by eapply sameShape_trans.
Qed.

(** C2: in the project graph after exposure propagation, every entry of a
    project's module table was in that table before, or its module name is
    in the exposed-module set of a dependency the project reads; nothing
    else of a project changes. A name that no such dependency exposes is
    never inserted. *)
Theorem unexposed_modules_never_propagate
    (fuel rootProject start : nat) (heap heap' : gmap nat ElmProject)
    (project : nat) (p : ElmProject) :
  findExposedModulesOfDependencies fuel rootProject start heap = Some heap' →
  heap !! project = Some p →
  ∃ p', heap' !! project = Some p'
    ∧ dependencies p' = dependencies p
    ∧ testDependencies p' = testDependencies p
    ∧ exposedModules p' = exposedModules p
    ∧ (∀ module uri,
         moduleToUriMap p' !! module = Some uri →
         moduleToUriMap p !! module = Some uri
         ∨ ∃ dep d, reads rootProject project p dep ∧ heap !! dep = Some d
                    ∧ module ∈ exposedModules d)
    ∧ (∀ module,
         (∀ dep d, reads rootProject project p dep → heap !! dep = Some d →
                   module ∉ exposedModules d) →
         moduleToUriMap p !! module = None →
         moduleToUriMap p' !! module = None).
Proof.
  intros Hrun Hp.
  pose proof (findExposedModulesOfDependencies_propagated _ _ _ _ _ Hrun project)
    as Hprop.
  rewrite Hp in Hprop. destruct (heap' !! project) as [p'|]; [|done].
  destruct Hprop as [Hshape Hmods]. injection Hshape as Hdeps Htest Hexp.
  exists p'. split_and!; try done.
  - intros module uri Hl. destruct (Hmods module uri Hl) as [Hold|Hto];
      [by left|right].
    destruct Hto as (p0 & dep & d & Hp0 & Hreads & Hd & Hin).
    rewrite Hp in Hp0. injection Hp0 as <-. by exists dep, d.
  - intros module Hnone Hfresh.
    destruct (moduleToUriMap p' !! module) as [uri|] eqn:Hl; [|done].
    destruct (Hmods module uri Hl) as [Hold|Hto]; [congruence|].
    destruct Hto as (p0 & dep & d & Hp0 & Hreads & Hd & Hin).
    rewrite Hp in Hp0. injection Hp0 as <-. by destruct (Hnone dep d).
Qed.

(** *** A graph of three projects

    The application [0] depends on the package [1], which depends on the
    package [2]. Package [1] exposes [Json.Decode] and keeps
    [Json.Internal] to itself. *)

Definition demoPackage (u : string) (deps : list (string * nat))
    (table : gmap string string) (exposed : gset string) : ElmProject :=
  {| type := Package; uri := u; dependencies := deps; testDependencies := [];
     sourceDirectories := [u +:+ "/src"]; testDirectories := [u +:+ "/tests"];
     moduleToUriMap := table; maintainerAndPackageName := None;
     exposedModules := exposed |}.

Definition demoRoot : ElmProject :=
  {| type := Application; uri := "file:///app";
     dependencies := [("elm/json", 1)]; testDependencies := [];
     sourceDirectories := ["/app/src"]; testDirectories := ["/app/tests"];
     moduleToUriMap := {["Main" := "file:///app/src/Main.elm"]};
     maintainerAndPackageName := None; exposedModules := ∅ |}.

Definition demoHeap : gmap nat ElmProject :=
  <[0 := demoRoot]>
  (<[1 := demoPackage "file:///pkg/elm/json/1.1.3" [("elm/core", 2)]
            (<["Json.Decode" := "file:///pkg/elm/json/1.1.3/src/Json/Decode.elm"]>
               {["Json.Internal" := "file:///pkg/elm/json/1.1.3/src/Json/Internal.elm"]})
            {["Json.Decode"]}]>
  (<[2 := demoPackage "file:///pkg/elm/core/1.0.5" []
            {["Basics" := "file:///pkg/elm/core/1.0.5/src/Basics.elm"]}
            {["Basics"]}]> ∅)).

Definition demoPropagated : gmap nat ElmProject :=
  default ∅ (findExposedModulesOfDependencies 3 0 0 demoHeap).

Definition demoTable (project : nat) (module : string) : option string :=
  demoPropagated !! project ≫= λ p, moduleToUriMap p !! module.

Example propagation_of_demo :
  demoTable 0 "Main" = Some "file:///app/src/Main.elm"
  ∧ demoTable 0 "Json.Decode"
    = Some "file:///pkg/elm/json/1.1.3/src/Json/Decode.elm"
  ∧ demoTable 0 "Json.Internal" = None
  ∧ demoTable 0 "Basics" = None
  ∧ demoTable 1 "Basics" = Some "file:///pkg/elm/core/1.0.5/src/Basics.elm".
Proof. vm_compute. done. Qed.

Lemma unexposed_modules_never_propagate_witness :
  ∃ p', demoPropagated !! 0 = Some p'
    ∧ moduleToUriMap p' !! "Json.Internal" = None.
Proof.
  destruct (unexposed_modules_never_propagate 3 0 0 demoHeap demoPropagated
              0 demoRoot) as (p' & Hp' & _ & _ & _ & _ & Hnever).
  - vm_compute. reflexivity.
  - vm_compute. reflexivity.
  - exists p'. split; [exact Hp'|]. apply Hnever.
    + intros dep d [Hin|[_ Hin]] Hd.
      * simpl in Hin. apply list_elem_of_singleton in Hin. subst dep.
        assert (d = demoPackage "file:///pkg/elm/json/1.1.3" [("elm/core", 2)]
                  (<["Json.Decode" := "file:///pkg/elm/json/1.1.3/src/Json/Decode.elm"]>
                     {["Json.Internal" := "file:///pkg/elm/json/1.1.3/src/Json/Internal.elm"]})
                  {["Json.Decode"]}) as ->.
        { unfold demoHeap in Hd. rewrite lookup_insert_ne in Hd by done.
          rewrite lookup_insert_eq in Hd. by injection Hd. }
        simpl. intros Hin. apply elem_of_singleton in Hin. discriminate.
      * simpl in Hin. by apply elem_of_nil in Hin.
    + reflexivity.
Defined.

(** *** What propagation adds and keeps *)

(** [hasAccessibleModule(moduleName)] of the workspace whose root project
    is the object [rootProject]. *)
Definition hasAccessibleModule (heap : gmap nat ElmProject)
    (rootProject : nat) (moduleName : string) : bool :=
  match heap !! rootProject with
  | Some p => bool_decide (is_Some (moduleToUriMap p !! moduleName))
  | None => false
  end.

(** The projects of [heap'] are those of [heap], and each table binds the
    module names it bound. *)
Definition tablesGrow (heap heap' : gmap nat ElmProject) : Prop :=
  ∀ project,
    match heap !! project, heap' !! project with
    | Some p, Some p' =>
        shape p' = shape p
        ∧ ∀ module, is_Some (moduleToUriMap p !! module) →
                    is_Some (moduleToUriMap p' !! module)
    | None, None => True
    | _, _ => False
    end.

(** The dependencies of every project of [heap] are projects of [heap] of
    a lower [rank]. *)
Definition wellRanked (rank : nat → nat) (heap : gmap nat ElmProject) : Prop :=
  map_Forall
    (λ project p,
       Forall (λ dep, rank dep < rank project ∧ is_Some (heap !! dep))
              ((dependencies p).*2 ++ (testDependencies p).*2))
    heap.

Lemma tablesGrow_refl heap : tablesGrow heap heap.
Proof. intros project. by destruct (heap !! project). Qed.

Lemma tablesGrow_trans h1 h2 h3 :
  tablesGrow h1 h2 → tablesGrow h2 h3 → tablesGrow h1 h3.
Proof.
  intros H12 H23 project. specialize (H12 project). specialize (H23 project).
  destruct (h1 !! project), (h2 !! project), (h3 !! project); try done.
  destruct H12 as [Hs12 Hm12], H23 as [Hs23 Hm23]. split; [congruence|].
  intros module Hin. by apply Hm23, Hm12.
Qed.

Lemma tablesGrow_copy heap project p d :
  heap !! project = Some p →
  tablesGrow heap (<[project := copyExposed d p]> heap).
Proof.
  intros Hp q. destruct (decide (project = q)) as [<-|Hne].
  - rewrite lookup_insert_eq, Hp. split; [done|].
    intros module Hin. rewrite copyExposed_lookup.
    destruct (moduleToUriMap d !! module); [|done].
    by destruct (decide (module ∈ exposedModules d)).
  - rewrite lookup_insert_ne by done. by destruct (heap !! q).
Qed.

Lemma tablesGrow_lookup heap heap' project p module :
  tablesGrow heap heap' → heap !! project = Some p →
  is_Some (moduleToUriMap p !! module) →
  ∃ p', heap' !! project = Some p' ∧ shape p' = shape p
        ∧ is_Some (moduleToUriMap p' !! module).
Proof.
  intros Hgrow Hp Hin. specialize (Hgrow project). rewrite Hp in Hgrow.
  destruct (heap' !! project) as [p'|]; [|done]. destruct Hgrow as [Hs Hm].
  exists p'. split_and!; [done|done|by apply Hm].
Qed.

Lemma loadForDependencies_tablesGrow recurse project :
  (∀ dep heap heap', recurse dep heap = Some heap' → tablesGrow heap heap') →
  ∀ deps heap heap',
    loadForDependencies recurse project deps heap = Some heap' →
    tablesGrow heap heap'.
Proof.
  intros Hrec deps.
  induction deps as [|[name dep] rest IH]; intros heap heap' Hrun;
    simpl in Hrun.
  - injection Hrun as <-. apply tablesGrow_refl.
  - destruct (heap !! dep) as [d|] eqn:Ed; simpl in Hrun; [|done].
    destruct (heap !! project) as [p|] eqn:Ep; simpl in Hrun; [|done].
    destruct (recurse dep (<[project:=copyExposed d p]> heap)) as [h2|] eqn:Er;
      simpl in Hrun; [|done].
    eapply tablesGrow_trans; [by apply tablesGrow_copy|].
    eapply tablesGrow_trans; [by eapply Hrec|by apply IH].
Qed.

Lemma findExposedModulesOfDependencies_tablesGrow fuel rootProject :
  ∀ project heap heap',
    findExposedModulesOfDependencies fuel rootProject project heap = Some heap' →
    tablesGrow heap heap'.
Proof.
  induction fuel as [|fuel IH]; intros project heap heap' Hrun; simpl in Hrun;
    [done|].
  destruct (heap !! project) as [p|] eqn:Ep; simpl in Hrun; [|done].
  destruct (loadForDependencies _ project (dependencies p) heap) as [h1|] eqn:E1;
    simpl in Hrun; [|done].
  pose proof (loadForDependencies_tablesGrow _ project IH _ _ _ E1) as H1.
  destruct (decide (project = rootProject)) as [Hroot|Hnot].
  - eapply tablesGrow_trans; [exact H1|].
    by eapply (loadForDependencies_tablesGrow _ project IH).
  - by injection Hrun as <-.
Qed.

(** The loop over a dependency map copies what each of its dependencies
    exposes. *)
Lemma loadForDependencies_copies recurse project module :
  (∀ dep heap heap', recurse dep heap = Some heap' → tablesGrow heap heap') →
  ∀ deps heap heap' dep d,
    loadForDependencies recurse project deps heap = Some heap' →
    dep ∈ deps.*2 → heap !! dep = Some d →
    module ∈ exposedModules d → is_Some (moduleToUriMap d !! module) →
    ∃ p', heap' !! project = Some p'
          ∧ is_Some (moduleToUriMap p' !! module).
Proof.
  intros Hrec deps.
  induction deps as [|[name dep0] rest IH];
    intros heap heap' dep d Hrun Hin Hd Hexposed Hbound; simpl in *.
  { by apply elem_of_nil in Hin. }
  destruct (heap !! dep0) as [d0|] eqn:Ed; simpl in Hrun; [|done].
  destruct (heap !! project) as [p|] eqn:Ep; simpl in Hrun; [|done].
  destruct (recurse dep0 (<[project:=copyExposed d0 p]> heap)) as [h2|] eqn:Er;
    simpl in Hrun; [|done].
  pose proof (tablesGrow_copy heap project p d0 Ep) as Hcopy.
  pose proof (Hrec _ _ _ Er) as Hinner.
  pose proof (loadForDependencies_tablesGrow _ project Hrec _ _ _ Hrun)
    as Hrest.
  apply elem_of_cons in Hin as [->|Hin].
  - rewrite Ed in Hd. injection Hd as ->.
    assert (Hcopied : is_Some (moduleToUriMap (copyExposed d p) !! module)).
    { rewrite copyExposed_lookup. destruct Hbound as [uri ->].
      by destruct (decide (module ∈ exposedModules d)). }
    destruct (tablesGrow_lookup _ heap' project (copyExposed d p) module
                (tablesGrow_trans _ _ _ Hinner Hrest))
      as (p' & Hp' & _ & Hin'); [by rewrite lookup_insert_eq|done|].
    by exists p'.
  - destruct (tablesGrow_lookup _ h2 dep d module
                (tablesGrow_trans _ _ _ Hcopy Hinner) Hd Hbound)
      as (d2 & Hd2 & Hshape & Hbound2).
    injection Hshape as _ _ Hexp.
    eapply (IH h2 heap' dep d2); try done. by rewrite Hexp.
Qed.

Lemma findExposedModulesOfDependencies_copies fuel rootProject start heap heap'
    p dep d module :
  findExposedModulesOfDependencies fuel rootProject start heap = Some heap' →
  heap !! start = Some p → reads rootProject start p dep →
  heap !! dep = Some d →
  module ∈ exposedModules d → is_Some (moduleToUriMap d !! module) →
  ∃ p', heap' !! start = Some p' ∧ is_Some (moduleToUriMap p' !! module).
Proof.
  intros Hrun Hp Hreads Hd Hexposed Hbound.
  destruct fuel as [|fuel]; simpl in Hrun; [done|].
  rewrite Hp in Hrun. simpl in Hrun.
  destruct (loadForDependencies _ start (dependencies p) heap) as [h1|] eqn:E1;
    simpl in Hrun; [|done].
  pose proof (findExposedModulesOfDependencies_tablesGrow fuel rootProject)
    as Hrec.
  pose proof (loadForDependencies_tablesGrow _ start Hrec _ _ _ E1) as H1.
  destruct Hreads as [Hin|[Hroot Hin]].
  - destruct (loadForDependencies_copies _ start module Hrec _ _ _ dep d E1)
      as (p1 & Hp1 & Hin1); try done.
    destruct (decide (start = rootProject)) as [Hroot|Hnot].
    + pose proof (loadForDependencies_tablesGrow _ start Hrec _ _ _ Hrun)
        as H2.
      destruct (tablesGrow_lookup _ _ _ _ _ H2 Hp1 Hin1) as (p' & ? & _ & ?).
      by exists p'.
    + injection Hrun as <-. by exists p1.
  - destruct (decide (start = rootProject)) as [_|Hnot]; [|done].
    destruct (tablesGrow_lookup _ _ _ _ _ H1 Hd Hbound)
      as (d1 & Hd1 & Hshape & Hbound1).
    injection Hshape as _ _ Hexp.
    eapply (loadForDependencies_copies _ start module Hrec _ _ _ dep d1);
      try done.
    by rewrite Hexp.
Qed.

Lemma wellRanked_ranked rank heap : wellRanked rank heap → ranked rank heap.
Proof.
  intros Hwell project p dep Hp Hdep.
  specialize (Hwell project p Hp). simpl in Hwell.
  rewrite Forall_forall in Hwell. apply Hwell. apply elem_of_app.
  by destruct Hdep; [left|right].
Qed.

(** X8: after propagation from the root project, [hasAccessibleModule]
    holds of every module that it held of before and of every module that
    a dependency or test dependency of the root exposes and has in its own
    table; and it holds of no module that was neither in the table of the
    root nor in the exposed-module set of one of these dependencies. *)
Theorem hasAccessibleModule_after_propagation (fuel rootProject : nat)
    (heap heap' : gmap nat ElmProject) (root : ElmProject) (module : string) :
  findExposedModulesOfDependencies fuel rootProject rootProject heap
  = Some heap' →
  heap !! rootProject = Some root →
  (hasAccessibleModule heap rootProject module = true
   ∨ (∃ dep d, reads rootProject rootProject root dep ∧ heap !! dep = Some d
               ∧ module ∈ exposedModules d
               ∧ is_Some (moduleToUriMap d !! module)) →
   hasAccessibleModule heap' rootProject module = true)
  ∧ (hasAccessibleModule heap' rootProject module = true →
     hasAccessibleModule heap rootProject module = true
     ∨ ∃ dep d, reads rootProject rootProject root dep ∧ heap !! dep = Some d
                ∧ module ∈ exposedModules d).
Proof.
  intros Hrun Hroot. unfold hasAccessibleModule. rewrite Hroot. split.
  - intros [Hbefore|(dep & d & Hreads & Hd & Hexposed & Hbound)].
    + apply bool_decide_eq_true in Hbefore.
      destruct (tablesGrow_lookup heap heap' rootProject root module)
        as (p' & -> & _ & Hin); try done.
      { by eapply findExposedModulesOfDependencies_tablesGrow. }
      by apply bool_decide_eq_true.
    + destruct (findExposedModulesOfDependencies_copies _ _ _ _ _ _ _ _ _
                  Hrun Hroot Hreads Hd Hexposed Hbound) as (p' & -> & Hin).
      by apply bool_decide_eq_true.
  - pose proof (findExposedModulesOfDependencies_propagated _ _ _ _ _ Hrun
                  rootProject) as Hprop.
    rewrite Hroot in Hprop.
    destruct (heap' !! rootProject) as [p'|]; [|done].
    destruct Hprop as [_ Hmods]. intros Hafter.
    apply bool_decide_eq_true in Hafter as [uri Huri].
    destruct (Hmods module uri Huri) as [Hold|Hto].
    + left. apply bool_decide_eq_true. by exists uri.
    + right. destruct Hto as (p0 & dep & d & Hp0 & Hreads & Hd & Hin).
      rewrite Hroot in Hp0. injection Hp0 as <-. by exists dep, d.
Qed.

(** X9: propagation removes no module name from the table of any project:
    a name bound in a table before is bound in it afterwards. *)
Theorem propagation_keeps_module_names (fuel rootProject start : nat)
    (heap heap' : gmap nat ElmProject) (project : nat) (p : ElmProject)
    (module : string) :
  findExposedModulesOfDependencies fuel rootProject start heap = Some heap' →
  heap !! project = Some p →
  is_Some (moduleToUriMap p !! module) →
  ∃ p', heap' !! project = Some p'
        ∧ is_Some (moduleToUriMap p' !! module).
Proof.
  intros Hrun Hp Hin.
  destruct (tablesGrow_lookup heap heap' project p module)
    as (p' & Hp' & _ & Hin'); try done.
  - by eapply findExposedModulesOfDependencies_tablesGrow.
  - by exists p'.
Qed.

(** X10: on a project graph whose dependencies go down in rank, which has
    no cycle, propagation from a project ends within a recursion depth of
    its rank, and the graph afterwards has the same projects with the same
    dependencies and exposed modules. *)
Theorem propagation_ends_on_ranked_graph (rank : nat → nat)
    (rootProject project : nat) (heap : gmap nat ElmProject) :
  wellRanked rank heap → is_Some (heap !! project) →
  ∃ heap',
    findExposedModulesOfDependencies (S (rank project)) rootProject project
      heap = Some heap'
    ∧ sameShape heap heap'.
Proof.
  intros Hwell Hproject.
  apply (findExposedModulesOfDependencies_returns rank); [|done|lia].
  by apply wellRanked_ranked.
Qed.

Lemma hasAccessibleModule_after_propagation_witness :
  hasAccessibleModule demoPropagated 0 "Json.Decode" = true.
Proof.
  apply (hasAccessibleModule_after_propagation 3 0 demoHeap demoPropagated
           demoRoot "Json.Decode");
    [vm_compute; reflexivity | vm_compute; reflexivity |].
  right.
  exists 1, (demoPackage "file:///pkg/elm/json/1.1.3" [("elm/core", 2)]
               (<["Json.Decode" := "file:///pkg/elm/json/1.1.3/src/Json/Decode.elm"]>
                  {["Json.Internal" := "file:///pkg/elm/json/1.1.3/src/Json/Internal.elm"]})
               {["Json.Decode"]}).
  split_and!.
  - left. simpl. by apply list_elem_of_singleton.
  - vm_compute. reflexivity.
  - simpl. by apply elem_of_singleton.
  - simpl. rewrite lookup_insert_eq. by eexists.
Defined.

Lemma propagation_keeps_module_names_witness :
  ∃ p', demoPropagated !! 0 = Some p'
        ∧ is_Some (moduleToUriMap p' !! "Main").
Proof.
  apply (propagation_keeps_module_names 3 0 0 demoHeap demoPropagated 0
           demoRoot "Main").
  - vm_compute. reflexivity.
  - vm_compute. reflexivity.
  - simpl. rewrite lookup_singleton_eq. by eexists.
Defined.

Lemma propagation_ends_on_ranked_graph_witness :
  ∃ heap', findExposedModulesOfDependencies 3 0 0 demoHeap = Some heap'
           ∧ sameShape demoHeap heap'.
Proof.
  apply (propagation_ends_on_ranked_graph (λ project, 2 - project) 0 0
           demoHeap).
  - eapply bool_decide_unpack. vm_compute. reflexivity.
  - by eexists.
Defined.

End Exposure.

(** ** Versions and constraints *)

Module Versions.

(** [IVersion]: the three components and the string the version was parsed
    from (the field [string] of the interface). *)
Record IVersion := {
  major : N;
  minor : N;
  patch : N;
  versionString : string
}.

Global Instance IVersion_eq_dec : EqDecision IVersion.
Proof. solve_decision. Defined.

(** The operators ["<"] and ["<="] of a constraint. *)
Inductive Operator := LessThan | LessOrEqual.

Global Instance Operator_eq_dec : EqDecision Operator.
Proof. solve_decision. Defined.

(** [IConstraint]: [lower lowerOperator v upperOperator upper]. *)
Record IConstraint := {
  upper : IVersion;
  lower : IVersion;
  upperOperator : Operator;
  lowerOperator : Operator
}.

Global Instance IConstraint_eq_dec : EqDecision IConstraint.
Proof. solve_decision. Defined.

(** [IPackage]: one version of a package in the local store, with the
    constraints its own manifest declares. *)
Record IPackage := {
  dependencies : gmap string IConstraint;
  version : IVersion
}.

(** Modelled from the spec: the version order of [./util/elmUtils], which is
    not part of the sources. Versions are ordered lexicographically by
    (major, minor, patch). *)
Definition versionLt (a b : IVersion) : bool :=
  (major a <? major b)%N
  || ((major a =? major b)%N
      && ((minor a <? minor b)%N
          || ((minor a =? minor b)%N && (patch a <? patch b)%N))).

(** Modelled from the spec: two versions are equal in the order when their
    components are. *)
Definition versionEq (a b : IVersion) : bool :=
  (major a =? major b)%N && (minor a =? minor b)%N && (patch a =? patch b)%N.

(** Modelled from the spec: [a <= b] in the version order. *)
Definition versionLe (a b : IVersion) : bool := versionLt a b || versionEq a b.

(** Modelled from the spec: a bound holds per its operator, [a < b] or
    [a <= b]. *)
Definition holds (op : Operator) (a b : IVersion) : bool :=
  match op with
  | LessThan => versionLt a b
  | LessOrEqual => versionLe a b
  end.

(** Modelled from the spec: a version satisfies a constraint iff it is
    within both bounds per their operators. *)
Definition versionSatisfiesConstraint (v : IVersion) (c : IConstraint) : bool :=
  holds (lowerOperator c) (lower c) v && holds (upperOperator c) v (upper c).

(** Modelled from the spec: of two operators at the same bound, the
    intersection keeps the strict one. *)
Definition stricter (a b : Operator) : Operator :=
  match a, b with
  | LessOrEqual, LessOrEqual => LessOrEqual
  | _, _ => LessThan
  end.

(** Modelled from the spec: versions are triples of non-negative integers,
    so the version right above [v] in the order is its next patch. *)
Definition nextVersion (v : IVersion) : IVersion :=
  {| major := major v; minor := minor v; patch := N.succ (patch v);
     versionString := versionString v |}.

(** Modelled from the spec: the intersection of two ranges is empty when no
    version lies within its bounds, which [constraintEmpty_spec] below shows
    this test to decide. *)
Definition constraintEmpty (c : IConstraint) : bool :=
  if versionLt (upper c) (lower c) then true
  else if versionEq (lower c) (upper c)
       then negb (bool_decide (lowerOperator c = LessOrEqual
                               ∧ upperOperator c = LessOrEqual))
       else bool_decide (lowerOperator c = LessThan
                         ∧ upperOperator c = LessThan)
            && versionEq (upper c) (nextVersion (lower c)).

(** Modelled from the spec: the intersection of two constraints, the
    greater lower bound with the lesser upper bound, and at equal bounds the
    stricter operator; [None] when the intersection is empty. *)
Definition constraintIntersect (a b : IConstraint) : option IConstraint :=
  let '(lo, loOp) :=
    if versionLt (lower a) (lower b) then (lower b, lowerOperator b)
    else if versionLt (lower b) (lower a) then (lower a, lowerOperator a)
    else (lower a, stricter (lowerOperator a) (lowerOperator b)) in
  let '(up, upOp) :=
    if versionLt (upper a) (upper b) then (upper a, upperOperator a)
    else if versionLt (upper b) (upper a) then (upper b, upperOperator b)
    else (upper a, stricter (upperOperator a) (upperOperator b)) in
  let c := {| upper := up; lower := lo; upperOperator := upOp;
              lowerOperator := loOp |} in
  if constraintEmpty c then None else Some c.

(** *** The order and the intersection *)

Lemma versionLt_true a b :
  versionLt a b = true ↔
  ((major a < major b)
   ∨ (major a = major b
      ∧ ((minor a < minor b) ∨ (minor a = minor b ∧ patch a < patch b))))%N.
Proof.
  unfold versionLt.
  repeat first [rewrite orb_true_iff | rewrite andb_true_iff
               | rewrite N.ltb_lt | rewrite N.eqb_eq].
  reflexivity.
Qed.

Lemma versionLt_false a b :
  versionLt a b = false ↔
  ¬ ((major a < major b)
     ∨ (major a = major b
        ∧ ((minor a < minor b) ∨ (minor a = minor b ∧ patch a < patch b))))%N.
Proof. by rewrite <- versionLt_true, not_true_iff_false. Qed.

Lemma versionEq_true a b :
  versionEq a b = true ↔
  major a = major b ∧ minor a = minor b ∧ patch a = patch b.
Proof.
  unfold versionEq.
  repeat first [rewrite andb_true_iff | rewrite N.eqb_eq]. tauto.
Qed.

Lemma versionEq_false a b :
  versionEq a b = false ↔
  ¬ (major a = major b ∧ minor a = minor b ∧ patch a = patch b).
Proof. by rewrite <- versionEq_true, not_true_iff_false. Qed.

Lemma holds_true op a b :
  holds op a b = true ↔
  versionLt a b = true ∨ (op = LessOrEqual ∧ versionEq a b = true).
Proof.
  destruct op; simpl; unfold versionLe; rewrite ?orb_true_iff;
    intuition discriminate.
Qed.

Lemma strict_is_not_inclusive : LessThan = LessOrEqual ↔ False.
Proof. split; [discriminate|done]. Qed.

Lemma inclusive_is_inclusive : LessOrEqual = LessOrEqual ↔ True.
Proof. done. Qed.

(** Turns the comparisons of versions in the context and the goal into
    arithmetic on their components. *)
Ltac version_order :=
  rewrite ?holds_true in *;
  rewrite ?versionLt_true, ?versionLt_false, ?versionEq_true,
    ?versionEq_false, ?strict_is_not_inclusive, ?inclusive_is_inclusive in *.

Lemma holds_below op op' x y v :
  versionLt x y = true → holds op y v = true → holds op' x v = true.
Proof. version_order. lia. Qed.

Lemma holds_above op op' v x y :
  holds op v x = true → versionLt x y = true → holds op' v y = true.
Proof. version_order. lia. Qed.

Lemma holds_stricter_lower o1 o2 x y v :
  versionLt x y = false → versionLt y x = false →
  holds (stricter o1 o2) x v = true →
  holds o1 x v = true ∧ holds o2 y v = true.
Proof. destruct o1, o2; simpl stricter; version_order; lia. Qed.

Lemma holds_stricter_upper o1 o2 x y v :
  versionLt x y = false → versionLt y x = false →
  holds (stricter o1 o2) v x = true →
  holds o1 v x = true ∧ holds o2 v y = true.
Proof. destruct o1, o2; simpl stricter; version_order; lia. Qed.

(** A version that satisfies the intersection satisfies both constraints. *)
Lemma constraintIntersect_sound a b c v :
  constraintIntersect a b = Some c →
  versionSatisfiesConstraint v c = true →
  versionSatisfiesConstraint v a = true ∧ versionSatisfiesConstraint v b = true.
Proof.
  unfold constraintIntersect.
  destruct (if versionLt (lower a) (lower b) then _ else _) as [lo loOp] eqn:Elo.
  destruct (if versionLt (upper a) (upper b) then _ else _) as [up upOp] eqn:Eup.
  destruct (constraintEmpty _); [done|]. intros [= <-].
  unfold versionSatisfiesConstraint. simpl.
  rewrite !andb_true_iff. intros [Hlo Hup].
  assert (holds (lowerOperator a) (lower a) v = true
          ∧ holds (lowerOperator b) (lower b) v = true) as [La Lb].
  { destruct (versionLt (lower a) (lower b)) eqn:E1.
    { injection Elo as <- <-. split; [by eapply holds_below|done]. }
    destruct (versionLt (lower b) (lower a)) eqn:E2.
    { injection Elo as <- <-. split; [done|by eapply holds_below]. }
    injection Elo as <- <-. by apply holds_stricter_lower. }
  assert (holds (upperOperator a) v (upper a) = true
          ∧ holds (upperOperator b) v (upper b) = true) as [Ua Ub].
  { destruct (versionLt (upper a) (upper b)) eqn:E1.
    { injection Eup as <- <-. split; [done|by eapply holds_above]. }
    destruct (versionLt (upper b) (upper a)) eqn:E2.
    { injection Eup as <- <-. split; [by eapply holds_above|done]. }
    injection Eup as <- <-. by apply holds_stricter_upper. }
  done.
Qed.

(** [constraintEmpty] is exact: it holds iff no version satisfies the
    constraint. *)
Lemma constraintEmpty_spec c :
  constraintEmpty c = true ↔ ∀ v, versionSatisfiesConstraint v c = false.
Proof.
  unfold constraintEmpty, versionSatisfiesConstraint. split.
  - intros Hempty v. apply not_true_iff_false. rewrite andb_true_iff.
    intros [Hlo Hup]. revert Hempty.
    destruct (versionLt (upper c) (lower c)) eqn:E1.
    { intros _. version_order. lia. }
    destruct (versionEq (lower c) (upper c)) eqn:E2.
    { rewrite negb_true_iff, bool_decide_eq_false. intros Hops.
      destruct (lowerOperator c), (upperOperator c); version_order; lia. }
    rewrite andb_true_iff, bool_decide_eq_true. intros [[Hl Hu] Hnext].
    rewrite Hl, Hu in *. unfold nextVersion in Hnext.
    version_order. simpl in Hnext. lia.
  - intros Hnone.
    destruct (versionLt (upper c) (lower c)) eqn:E1; [done|].
    destruct (versionEq (lower c) (upper c)) eqn:E2.
    { rewrite negb_true_iff, bool_decide_eq_false. intros [Hl Hu].
      specialize (Hnone (lower c)). rewrite Hl, Hu in Hnone.
      apply not_true_iff_false in Hnone. apply Hnone.
      rewrite andb_true_iff. version_order. lia. }
    rewrite andb_true_iff, bool_decide_eq_true.
    destruct (lowerOperator c) eqn:Hl.
    + destruct (upperOperator c) eqn:Hu.
      * split; [done|].
        specialize (Hnone (nextVersion (lower c))).
        apply not_true_iff_false in Hnone.
        rewrite andb_true_iff in Hnone. unfold nextVersion in *.
        version_order. simpl in *. lia.
      * specialize (Hnone (upper c)). apply not_true_iff_false in Hnone.
        exfalso. apply Hnone. rewrite andb_true_iff. version_order. lia.
    + specialize (Hnone (lower c)). apply not_true_iff_false in Hnone.
      exfalso. apply Hnone. rewrite andb_true_iff.
      destruct (upperOperator c); version_order; lia.
Qed.

End Versions.

(** ** The dependency solver *)

Module Solver.
Import Versions.

(** What a run of the solver ends in: versions for every package needed,
    explicit unsatisfiability, a package whose folder the local store does
    not have, or a recursion deeper than the fuel given. *)
Inductive SolveResult :=
| Solved (versions : gmap string IVersion)
| Unsatisfiable
| MissingPackage (name : string)
| OutOfFuel.

Section WithStore.
(** The local package store as [ElmPackageCache.get] lists it: for a
    package name, every version present with the constraints of its
    manifest; no entry for a package whose folder is missing. *)
Variable store : gmap string (list IPackage).

(** [solveDependencies] of [./util/elmUtils] is not part of the sources;
    the definitions of this section follow section 4.3 of the
    specification, step by step. *)

(** Modelled from the spec: [solveDependencies], steps 1 and 2. The state
    is a partial assignment and a frontier of unresolved constraints, one
    per package name; an unresolved package is picked from the frontier. *)
Definition pickDep (frontier : gmap string IConstraint)
    : option (string * IConstraint * gmap string IConstraint) :=
  match map_to_list frontier with
  | [] => None
  | (name, c) :: _ => Some (name, c, delete name frontier)
  end.

(** Modelled from the spec: [solveDependencies], step 2, the order of the
    candidates: the greater version comes first. *)
Definition descending (a b : IPackage) : Prop :=
  versionLe (version b) (version a) = true.

Local Instance descending_dec : RelDecision descending.
Proof. intros a b. unfold descending. apply _. Defined.

(** Modelled from the spec: [solveDependencies], step 2, the filter of the
    candidates: a candidate satisfies the constraint of the frontier, and
    when the name has a version in the partial assignment it is that
    version. *)
Definition eligible (c : IConstraint) (assigned : option IVersion)
    (p : IPackage) : Prop :=
  versionSatisfiesConstraint (version p) c = true
  ∧ match assigned with
    | Some chosen => version p = chosen
    | None => True
    end.

Local Instance eligible_dec c assigned p : Decision (eligible c assigned p).
Proof. unfold eligible. destruct assigned; apply _. Defined.

(** Modelled from the spec: [solveDependencies], step 2. The candidates of
    a package are the versions of the store that satisfy every constraint
    known for its name, the greatest first. A name that already has a
    version in the partial assignment keeps it: what is known for the name
    includes the choice made. *)
Definition candidatesFor (name : string) (c : IConstraint)
    (solutions : gmap string IVersion) (available : list IPackage)
    : list IPackage :=
  merge_sort descending
    (filter (eligible c (solutions !! name)) available).

(** Modelled from the spec: [solveDependencies], step 3. The constraints a
    candidate declares are added to the frontier, each intersected with the
    constraint the frontier has on the same name; an empty intersection
    rejects the candidate. *)
Definition combineDeps (frontier declared : gmap string IConstraint)
    : option (gmap string IConstraint) :=
  map_fold (λ name c combined,
              frontier' ← combined;
              match frontier' !! name with
              | Some known =>
                  both ← constraintIntersect known c;
                  Some (<[name := both]> frontier')
              | None => Some (<[name := c]> frontier')
              end)
           (Some frontier) declared.

(** Modelled from the spec: [solveDependencies], steps 3 to 5. The
    candidates are tried in order; the first whose recursion succeeds gives
    the result, a rejected or failed candidate makes place for the next
    lower one, and when none is left the failure goes upward. A package
    whose folder the store lacks ends the run, and so does a recursion
    deeper than [fuel]. *)
Fixpoint firstSolved (attempt : IPackage → SolveResult)
    (candidates : list IPackage) : SolveResult :=
  match candidates with
  | [] => Unsatisfiable
  | candidate :: lower =>
      match attempt candidate with
      | Unsatisfiable => firstSolved attempt lower
      | result => result
      end
  end.

(** Modelled from the spec: [solveDependencies], the recursion of steps 2
    to 5 on the frontier and the partial assignment. *)
Fixpoint solveWorker (fuel : nat) (frontier : gmap string IConstraint)
    (solutions : gmap string IVersion) : SolveResult :=
  match fuel with
  | 0 => OutOfFuel
  | S fuel' =>
      match pickDep frontier with
      | None => Solved solutions
      | Some (name, c, rest) =>
          match store !! name with
          | None => MissingPackage name
          | Some available =>
              firstSolved
                (λ candidate,
                   match combineDeps rest (dependencies candidate) with
                   | None => Unsatisfiable
                   | Some frontier' =>
                       solveWorker fuel' frontier'
                         (<[name := version candidate]> solutions)
                   end)
                (candidatesFor name c solutions available)
          end
      end
  end.

(** Modelled from the spec: [solveDependencies], step 6 and the entry
    point. The root's constraints are the first frontier, and nothing is
    assigned. *)
Definition solveDependencies (fuel : nat) (deps : gmap string IConstraint)
    : SolveResult :=
  solveWorker fuel deps ∅.

(** *** Soundness of a result *)

(** Every constraint of [cs] is on a package that [versions] resolves, to a
    version that satisfies it. *)
Definition satisfied (versions : gmap string IVersion)
    (cs : gmap string IConstraint) : Prop :=
  ∀ name c, cs !! name = Some c →
    ∃ v, versions !! name = Some v ∧ versionSatisfiesConstraint v c = true.

(** [v] is a version of [name] in the store whose declared constraints
    [versions] satisfies. *)
Definition chosen (versions : gmap string IVersion) (name : string)
    (v : IVersion) : Prop :=
  ∃ available p, store !! name = Some available ∧ p ∈ available
                 ∧ version p = v ∧ satisfied versions (dependencies p).

(** Every constraint of the frontier and every declared constraint is
    implied by the constraint the combined frontier has on its name. *)
Definition covers (frontier' cs : gmap string IConstraint) : Prop :=
  ∀ name c, cs !! name = Some c →
    ∃ c', frontier' !! name = Some c'
          ∧ ∀ v, versionSatisfiesConstraint v c' = true →
                 versionSatisfiesConstraint v c = true.

(** [versions] is a solution of the constraints [deps]: it satisfies them,
    and each of its versions is in the store with declared constraints
    that it satisfies as well. *)
Definition consistent (deps : gmap string IConstraint)
    (versions : gmap string IVersion) : Prop :=
  satisfied versions deps
  ∧ ∀ name v, versions !! name = Some v → chosen versions name v.

(** The folder of a package has one subfolder per version: a version
    names one package version of the store. *)
Definition storeFunctional : Prop :=
  map_Forall (λ _ available, NoDup (version <$> available)) store.

Lemma pickDep_Some frontier name c rest :
  pickDep frontier = Some (name, c, rest) →
  frontier !! name = Some c ∧ rest = delete name frontier.
Proof.
  unfold pickDep. destruct (map_to_list frontier) as [|[n c'] l] eqn:E; [done|].
  intros [= -> -> <-]. split; [|done].
  apply elem_of_map_to_list. rewrite E. by left.
Qed.

Lemma firstSolved_Solved attempt candidates versions :
  firstSolved attempt candidates = Solved versions →
  ∃ p, p ∈ candidates ∧ attempt p = Solved versions.
Proof.
  induction candidates as [|p rest IH]; simpl; [done|].
  destruct (attempt p) eqn:E; try done.
  - intros [= ->]. exists p. split; [by left|done].
  - intros H. destruct (IH H) as (q & Hq & Ha). exists q. split; [by right|done].
Qed.

Lemma candidatesFor_elem name c solutions available p :
  p ∈ candidatesFor name c solutions available →
  p ∈ available ∧ versionSatisfiesConstraint (version p) c = true
  ∧ ∀ v, solutions !! name = Some v → version p = v.
Proof.
  unfold candidatesFor. rewrite merge_sort_Permutation, list_elem_of_filter.
  intros [[Hsat Hkeep] Hin]. split_and!; try done.
  intros v Hv. by rewrite Hv in Hkeep.
Qed.

Lemma covers_refl cs : covers cs cs.
Proof. intros name c Hc. by exists c. Qed.

Lemma covers_insert_fresh frontier' cs name c :
  frontier' !! name = None → covers frontier' cs →
  covers (<[name := c]> frontier') cs.
Proof.
  intros Hfresh Hcov n c0 Hc0. destruct (Hcov n c0 Hc0) as (c' & Hc' & Himp).
  exists c'. split; [|done]. rewrite lookup_insert_ne; [done|]. congruence.
Qed.

Lemma covers_insert_intersect frontier' cs name known c both :
  frontier' !! name = Some known → constraintIntersect known c = Some both →
  covers frontier' cs → covers (<[name := both]> frontier') cs.
Proof.
  intros Hknown Hboth Hcov n c0 Hc0.
  destruct (Hcov n c0 Hc0) as (c' & Hc' & Himp).
  destruct (decide (name = n)) as [<-|Hne].
  - exists both. rewrite lookup_insert_eq. split; [done|].
    intros v Hv. apply Himp. rewrite Hknown in Hc'. injection Hc' as <-.
    by destruct (constraintIntersect_sound _ _ _ v Hboth Hv).
  - exists c'. by rewrite lookup_insert_ne.
Qed.

Lemma combineDeps_covers frontier declared frontier' :
  combineDeps frontier declared = Some frontier' →
  covers frontier' frontier ∧ covers frontier' declared.
Proof.
  unfold combineDeps. revert frontier'.
  apply (map_fold_weak_ind (λ combined seen,
    ∀ frontier', combined = Some frontier' →
      covers frontier' frontier ∧ covers frontier' seen)).
  - intros frontier' [= <-]. split; [apply covers_refl|].
    intros name c Hc. by rewrite lookup_empty in Hc.
  - intros name c seen combined Hfresh IH frontier' Hstep.
    destruct combined as [fr|]; simpl in Hstep; [|done].
    destruct (IH fr eq_refl) as [Hfr Hseen].
    destruct (fr !! name) as [known|] eqn:Hknown.
    + destruct (constraintIntersect known c) as [both|] eqn:Hboth;
        simpl in Hstep; [|done].
      injection Hstep as <-. split.
      * by eapply covers_insert_intersect.
      * intros n c0 Hc0. destruct (decide (name = n)) as [<-|Hne].
        -- rewrite lookup_insert_eq in Hc0. injection Hc0 as <-.
           exists both. rewrite lookup_insert_eq. split; [done|].
           intros v Hv. by destruct (constraintIntersect_sound _ _ _ v Hboth Hv).
        -- rewrite lookup_insert_ne in Hc0 by done.
           by apply (covers_insert_intersect fr seen name known c both
                       Hknown Hboth Hseen n c0).
    + injection Hstep as <-. split.
      * by apply covers_insert_fresh.
      * intros n c0 Hc0. destruct (decide (name = n)) as [<-|Hne].
        -- rewrite lookup_insert_eq in Hc0. injection Hc0 as <-.
           exists c. by rewrite lookup_insert_eq.
        -- rewrite lookup_insert_ne in Hc0 by done.
           by apply (covers_insert_fresh fr seen name c Hknown Hseen n c0).
Qed.

Lemma satisfied_covers versions frontier' cs :
  satisfied versions frontier' → covers frontier' cs → satisfied versions cs.
Proof.
  intros Hsat Hcov name c Hc. destruct (Hcov name c Hc) as (c' & Hc' & Himp).
  destruct (Hsat name c' Hc') as (v & Hv & Hsatv). exists v. auto.
Qed.

(** The invariant of the recursion: a result extends the partial
    assignment, satisfies the frontier, and every version it adds is a
    version of the store whose declared constraints it satisfies. *)
Lemma solveWorker_sound fuel : ∀ frontier solutions versions,
  solveWorker fuel frontier solutions = Solved versions →
  solutions ⊆ versions
  ∧ satisfied versions frontier
  ∧ ∀ name v, versions !! name = Some v →
      solutions !! name = Some v ∨ chosen versions name v.
Proof.
  induction fuel as [|fuel IH]; intros frontier solutions versions; simpl;
    [done|].
  destruct (pickDep frontier) as [[[name c] rest]|] eqn:Hpick.
  - apply pickDep_Some in Hpick as [Hname ->].
    destruct (store !! name) as [available|] eqn:Hstore; [|done].
    intros Hfirst. apply firstSolved_Solved in Hfirst as (p & Hp & Hattempt).
    apply candidatesFor_elem in Hp as (Havail & Hsat & Hkeep).
    destruct (combineDeps _ (dependencies p)) as [frontier'|] eqn:Hcomb; [|done].
    apply combineDeps_covers in Hcomb as [Hrest Hdecl].
    destruct (IH _ _ _ Hattempt) as (Hsub & Hfr & Hnew).
    assert (Hp_in : versions !! name = Some (version p)).
    { eapply lookup_weaken; [|exact Hsub]. by rewrite lookup_insert_eq. }
    split_and!.
    + apply map_subseteq_spec. intros n v Hn.
      destruct (decide (name = n)) as [<-|Hne].
      * by rewrite <- (Hkeep v Hn).
      * eapply lookup_weaken; [|exact Hsub]. by rewrite lookup_insert_ne.
    + intros n c0 Hc0. destruct (decide (name = n)) as [<-|Hne].
      * rewrite Hname in Hc0. injection Hc0 as <-. by exists (version p).
      * eapply satisfied_covers; [exact Hfr|exact Hrest|].
        by rewrite lookup_delete_ne.
    + intros n v Hn. destruct (Hnew n v Hn) as [Hold|Hch]; [|by right].
      destruct (decide (name = n)) as [<-|Hne].
      * rewrite lookup_insert_eq in Hold. injection Hold as <-. right.
        exists available, p. split_and!; try done.
        by eapply satisfied_covers.
      * rewrite lookup_insert_ne in Hold by done. by left.
  - intros [= <-]. split_and!; [done| |by left].
    intros name c Hc. unfold pickDep in Hpick.
    destruct (map_to_list frontier) as [|[n c'] l] eqn:E; [|done].
    apply map_to_list_empty_iff in E. subst. by rewrite lookup_empty in Hc.
Qed.

Lemma solveDependencies_consistent fuel deps versions :
  solveDependencies fuel deps = Solved versions → consistent deps versions.
Proof.
  intros Hsolved.
  destruct (solveWorker_sound _ _ _ _ Hsolved) as (_ & Hroot & Hchosen).
  split; [done|]. intros name v Hv.
  destruct (Hchosen name v Hv) as [Hempty|Hch]; [|done].
  by rewrite lookup_empty in Hempty.
Qed.

(** Constraints that have no solution are never solved, whatever the
    fuel. *)
Lemma solveDependencies_unsatisfiable fuel deps :
  (∀ versions, ¬ consistent deps versions) →
  ∀ versions, solveDependencies fuel deps ≠ Solved versions.
Proof.
  intros Hnone versions Hsolved.
  by apply (Hnone versions), (solveDependencies_consistent fuel).
Qed.

Lemma storeFunctional_eq name available p q :
  storeFunctional → store !! name = Some available →
  p ∈ available → q ∈ available → version p = version q → p = q.
Proof.
  intros Hfun Hstore. specialize (Hfun name available Hstore). simpl in Hfun.
  clear Hstore. induction available as [|a l IH]; intros Hp Hq Heq.
  - by apply elem_of_nil in Hp.
  - rewrite fmap_cons in Hfun. apply NoDup_cons in Hfun as [Hnotin Hnodup].
    apply elem_of_cons in Hp as [->|Hp]; apply elem_of_cons in Hq as [->|Hq].
    + done.
    + destruct Hnotin. rewrite Heq. by apply list_elem_of_fmap_2.
    + destruct Hnotin. rewrite <- Heq. by apply list_elem_of_fmap_2.
    + by apply IH.
Qed.

(** C1: when the solver returns versions, the version of every package
    name in the result satisfies the constraint the root declares on that
    name, and the constraint that the manifest of any package version
    chosen in the result declares on it. *)
Theorem solveDependencies_sound (fuel : nat) (deps : gmap string IConstraint)
    (versions : gmap string IVersion) :
  storeFunctional →
  solveDependencies fuel deps = Solved versions →
  ∀ name v, versions !! name = Some v →
    (∀ c, deps !! name = Some c → versionSatisfiesConstraint v c = true)
    ∧ (∀ other chosenVersion available p c,
         versions !! other = Some chosenVersion →
         store !! other = Some available → p ∈ available →
         version p = chosenVersion →
         dependencies p !! name = Some c →
         versionSatisfiesConstraint v c = true).
Proof.
  intros Hfun Hsolved name v Hname.
  destruct (solveWorker_sound _ _ _ _ Hsolved) as (_ & Hroot & Hchosen).
  split.
  - intros c Hc. destruct (Hroot name c Hc) as (v' & Hv' & Hsat). congruence.
  - intros other vo available p c Hother Hstore Hp Hversion Hc.
    destruct (Hchosen other vo Hother) as [Hempty|Hch].
    { by rewrite lookup_empty in Hempty. }
    destruct Hch as (available' & q & Hstore' & Hq & Hqv & Hdeps).
    rewrite Hstore in Hstore'. injection Hstore' as <-.
    assert (p = q) as -> by (eapply storeFunctional_eq; [done..|congruence]).
    destruct (Hdeps name c Hc) as (v' & Hv' & Hsat). congruence.
Qed.

End WithStore.

(** *** The scenarios of the specification *)

Definition v (a b c : N) (s : string) : IVersion :=
  {| major := a; minor := b; patch := c; versionString := s |}.

(** [lo <= v < up] *)
Definition range (lo up : IVersion) : IConstraint :=
  {| upper := up; lower := lo; upperOperator := LessThan;
     lowerOperator := LessOrEqual |}.

Definition package (ver : IVersion) (deps : list (string * IConstraint))
    : IPackage :=
  {| dependencies := list_to_map deps; version := ver |}.

(** The store holds [author/lib] at 1.0.0, 1.3.0 and 2.0.0, and
    [author/app], whose only version needs [author/lib] below 2.0.0. *)
Definition libStore : gmap string (list IPackage) :=
  <["author/lib" := [ package (v 1 0 0 "1.0.0") [];
                      package (v 1 3 0 "1.3.0") [];
                      package (v 2 0 0 "2.0.0") [] ]]>
  (<["author/app" :=
       [ package (v 1 0 0 "1.0.0")
           [("author/lib", range (v 1 0 0 "1.0.0") (v 2 0 0 "2.0.0"))] ]]> ∅).

Definition libRoot : gmap string IConstraint :=
  <["author/app" := range (v 1 0 0 "1.0.0") (v 2 0 0 "2.0.0")]>
  (<["author/lib" := range (v 1 0 0 "1.0.0") (v 3 0 0 "3.0.0")]> ∅).

Definition libSolved : gmap string IVersion :=
  <["author/app" := v 1 0 0 "1.0.0"]> (<["author/lib" := v 1 3 0 "1.3.0"]> ∅).

Example solveDependencies_greatest_satisfying :
  solveDependencies libStore 4 libRoot = Solved libSolved.
Proof. vm_compute. reflexivity. Qed.

(** The root needs [A] and [B]; [A] needs [C] below 2.0.0 and [B] needs
    [C] from 2.0.0 on. *)
Definition disjointStore : gmap string (list IPackage) :=
  <["A" := [ package (v 1 0 0 "1.0.0")
               [("C", range (v 1 0 0 "1.0.0") (v 2 0 0 "2.0.0"))] ]]>
  (<["B" := [ package (v 1 0 0 "1.0.0")
                [("C", range (v 2 0 0 "2.0.0") (v 3 0 0 "3.0.0"))] ]]>
  (<["C" := [ package (v 1 0 0 "1.0.0") [];
              package (v 2 0 0 "2.0.0") [] ]]> ∅)).

Definition disjointRoot : gmap string IConstraint :=
  <["A" := range (v 1 0 0 "1.0.0") (v 2 0 0 "2.0.0")]>
  (<["B" := range (v 1 0 0 "1.0.0") (v 2 0 0 "2.0.0")]> ∅).

Example solveDependencies_disjoint_ranges :
  solveDependencies disjointStore 6 disjointRoot = Unsatisfiable.
Proof. vm_compute. reflexivity. Qed.

Lemma libStore_functional : storeFunctional libStore.
Proof.
  unfold storeFunctional, libStore.
  apply map_Forall_insert_2; [|apply map_Forall_insert_2;
                                [|apply map_Forall_empty]].
  - simpl. eapply bool_decide_unpack. vm_compute. reflexivity.
  - simpl. eapply bool_decide_unpack. vm_compute. reflexivity.
Qed.

Lemma solveDependencies_sound_witness :
  versionSatisfiesConstraint (v 1 3 0 "1.3.0")
    (range (v 1 0 0 "1.0.0") (v 3 0 0 "3.0.0")) = true
  ∧ versionSatisfiesConstraint (v 1 3 0 "1.3.0")
      (range (v 1 0 0 "1.0.0") (v 2 0 0 "2.0.0")) = true.
Proof.
  destruct (solveDependencies_sound libStore 4 libRoot libSolved
              libStore_functional ltac:(vm_compute; reflexivity)
              "author/lib" (v 1 3 0 "1.3.0") ltac:(vm_compute; reflexivity))
    as [Hroot Hother].
  split.
  - apply Hroot. vm_compute. reflexivity.
  - apply (Hother "author/app" (v 1 0 0 "1.0.0")
             [ package (v 1 0 0 "1.0.0")
                 [("author/lib", range (v 1 0 0 "1.0.0") (v 2 0 0 "2.0.0"))] ]
             (package (v 1 0 0 "1.0.0")
                 [("author/lib", range (v 1 0 0 "1.0.0") (v 2 0 0 "2.0.0"))])).
    + vm_compute. reflexivity.
    + vm_compute. reflexivity.
    + apply list_elem_of_singleton. reflexivity.
    + reflexivity.
    + vm_compute. reflexivity.
Defined.

End Solver.

(** ** The project loader *)

Module Loader.
Import Projects.

(** *** JavaScript objects, strings and manifests *)

(** A parsed JSON object: its own properties in insertion order, each key
    once. [o[key] = value] keeps the place of a key that is there and
    appends one that is not. *)
Fixpoint objectSet {A} (key : string) (value : A) (o : list (string * A))
    : list (string * A) :=
  match o with
  | [] => [(key, value)]
  | (k, x) :: rest =>
      if decide (k = key) then (k, value) :: rest
      else (k, x) :: objectSet key value rest
  end.

(** [Object.assign(target, ...sources)] copies the properties of the
    sources into [target] itself and returns [target]: after the call the
    object [target] referred to holds the result. *)
Definition objectAssign {A} (target : list (string * A))
    (sources : list (list (string * A))) : list (string * A) :=
  foldl (λ t source, foldl (λ t' '(key, value), objectSet key value t') t source)
        target sources.

(** [new Map(entries)]: a later entry for a key replaces an earlier one. *)
Definition mapOfEntries {A} (entries : list (string * A)) : gmap string A :=
  foldl (λ m '(key, value), <[key := value]> m) ∅ entries.

(** [s.indexOf(c)] for a character, [-1] when absent. *)
Fixpoint indexOf (c : ascii) (s : string) : Z :=
  match s with
  | EmptyString => -1
  | String c' rest =>
      if Stdlib.Strings.Ascii.eqb c' c then 0
      else let i := indexOf c rest in if (i <? 0)%Z then -1 else (i + 1)%Z
  end.

(** [s.substring(start, end)]: an index below [0] counts as [0], one above
    the length as the length, and the two are swapped when out of order. *)
Definition substring (s : string) (start finish : Z) : string :=
  let len := Z.of_nat (String.length s) in
  let a := Z.max 0 (Z.min start len) in
  let b := Z.max 0 (Z.min finish len) in
  String.substring (Z.to_nat (Z.min a b))
    (Z.to_nat (Z.max a b - Z.min a b)) s.

(** [s.includes(c)] for a character. *)
Fixpoint includes (c : ascii) (s : string) : bool :=
  match s with
  | EmptyString => false
  | String c' rest => Stdlib.Strings.Ascii.eqb c' c || includes c rest
  end.

Inductive ExposedModulesJson :=
| ExposedList (modules : list string)
| ExposedGroups (groups : list (string * list string)).

(** [IElmApplicationJson] *)
Record IElmApplicationJson := {
  appSourceDirectories : list string;
  appElmVersion : string;
  appDirect : list (string * string);
  appIndirect : list (string * string);
  appTestDirect : list (string * string);
  appTestIndirect : list (string * string)
}.

(** [IElmPackageJson] *)
Record IElmPackageJson := {
  pkgName : string;
  pkgSummary : string;
  pkgLicense : string;
  pkgVersion : string;
  pkgExposedModules : ExposedModulesJson;
  pkgElmVersion : string;
  pkgDependencies : list (string * string);
  pkgTestDependencies : list (string * string)
}.

Inductive ElmJson :=
| ApplicationJson (json : IElmApplicationJson)
| PackageJson (json : IElmPackageJson).

(** The number a string of decimal digits stands for. *)
Fixpoint decimal (s : string) (acc : N) : option N :=
  match s with
  | EmptyString => Some acc
  | String c rest =>
      d ← stdpp.strings.Ascii.is_nat c; decimal rest (acc * 10 + N.of_nat d)
  end.

(** A property name that is an array index: the decimal numeral, without
    leading zero, of a number up to [2^32 - 2]. *)
Definition arrayIndex (key : string) : option N :=
  match key with
  | EmptyString => None
  | String c rest =>
      if Stdlib.Strings.Ascii.eqb c "0" && negb (String.eqb rest EmptyString)
      then None
      else n ← decimal key 0; if (n <? 4294967295)%N then Some n else None
  end.

(** Indexed values by ascending index. *)
Definition indexOrder {A} (x y : N * A) : Prop := (x.1 ≤ y.1)%N.

#[local] Instance indexOrder_dec {A} (x y : N * A) : Decision (indexOrder x y).
Proof. unfold indexOrder. apply _. Defined.

(** [Object.values(o)]: the values of the properties whose name is an
    array index come first, by ascending index, and then those of the other
    properties in the order in which they were written. *)
Definition objectValues {A} (o : list (string * A)) : list A :=
  (merge_sort indexOrder
     (omap (λ '(key, value), (λ i, (i, value)) <$> arrayIndex key) o)).*2
  ++ (filter (λ entry : string * A, arrayIndex entry.1 = None) o).*2.

(** [flatternExposedModules] *)
Definition flatternExposedModules (exposed : ExposedModulesJson) : list string :=
  match exposed with
  | ExposedList modules => modules
  | ExposedGroups groups => foldl (λ a b, a ++ b) [] (objectValues groups)
  end.

(** *** Errors and outcomes *)

Inductive LoadError :=
| FileNotFound (path : string)
| JsonSyntaxError (path : string)
| MalformedConstraint (text : string)
| PackageFolderMissing (name : string)
| ProblemGettingPackageVersion
| ShouldNeverHappen
| UnsolvablePackageConstraints.

(** A call returns, throws, or recurses deeper than the fuel given. *)
Inductive Outcome (A : Type) :=
| Returned (a : A)
| Thrown (e : LoadError)
| OutOfFuel.
Arguments Returned {A} a.
Arguments Thrown {A} e.
Arguments OutOfFuel {A}.

Definition unsolvableMessage : string :=
  "There is a problem with elm.json. Could not solve dependencies with the given constraints. Try running `elm make` to install missing dependencies.".

(** *** The workspace during a load *)

(** [resolvedPackageCache] maps a cache key to the project object stored
    under it; [objects] is the store of project objects and [nextObject]
    the identity of the next one created; [shownErrors] is what
    [connection.window.showErrorMessage] displayed. [loads] is not a field
    of the class: it records, latest first, the cache key of every call of
    [loadPackage] that went past the cache and read a manifest. *)
Record Workspace := {
  resolvedPackageCache : gmap string nat;
  objects : gmap nat ElmProject;
  nextObject : nat;
  shownErrors : list string;
  loads : list string
}.

Definition recordLoad (key : string) (ws : Workspace) : Workspace :=
  {| resolvedPackageCache := resolvedPackageCache ws; objects := objects ws;
     nextObject := nextObject ws; shownErrors := shownErrors ws;
     loads := key :: loads ws |}.

Definition showErrorMessage (text : string) (ws : Workspace) : Workspace :=
  {| resolvedPackageCache := resolvedPackageCache ws; objects := objects ws;
     nextObject := nextObject ws; shownErrors := shownErrors ws ++ [text];
     loads := loads ws |}.

(** A new project object. *)
Definition allocate (p : ElmProject) (ws : Workspace) : nat * Workspace :=
  (nextObject ws,
   {| resolvedPackageCache := resolvedPackageCache ws;
      objects := <[nextObject ws := p]> (objects ws);
      nextObject := S (nextObject ws); shownErrors := shownErrors ws;
      loads := loads ws |}).

(** [this.resolvedPackageCache.set(cacheKey, resolvedPackage)] *)
Definition cacheSet (key : string) (p : nat) (ws : Workspace) : Workspace :=
  {| resolvedPackageCache := <[key := p]> (resolvedPackageCache ws);
     objects := objects ws; nextObject := nextObject ws;
     shownErrors := shownErrors ws; loads := loads ws |}.

Section Load.
(** The host and the helpers the loader calls: [host.readFile] rejects
    ([None]) or resolves with the text, [JSON.parse] throws ([None]) or
    returns the manifest; [parseVersion] and [parseConstraint] of
    [./util/elmUtils]; [utils.solveDependencies] applied to the package
    cache of the workspace; [join] and [resolve] of [./util/path] and
    [URI.file] of vscode-uri. *)
Variable readFile : string → option string.
Variable jsonParse : string → option ElmJson.
Variable parseVersion : string → Versions.IVersion.
Variable parseConstraint : string → option Versions.IConstraint.
Variable solveDependencies :
  gmap string Versions.IConstraint → Solver.SolveResult.
Variable pathJoin : string → string → string.
Variable pathResolve : string → string → string.
Variable uriFile : string → string.
Variable packagesRoot : string.
Variable rootFsPath : string.
Variable rootUri : string.

(** [loadElmJson(elmJsonPath)] *)
Definition loadElmJson (elmJsonPath : string) : Outcome ElmJson :=
  match readFile elmJsonPath with
  | None => Thrown (FileNotFound elmJsonPath)
  | Some text =>
      match jsonParse text with
      | None => Thrown (JsonSyntaxError elmJsonPath)
      | Some json => Returned json
      end
  end.

(** The cache key [`${packageName}@${version.string}`]. *)
Definition cacheKey (packageName : string) (version : Versions.IVersion)
    : string :=
  packageName +:+ "@" +:+ Versions.versionString version.

(** [`${this.packagesRoot}${maintainer}/${name}/${version.string}`] *)
Definition pathToPackageWithVersion (packageName : string)
    (version : Versions.IVersion) : string :=
  let slash := indexOf "/"%char packageName in
  let maintainer := substring packageName 0 slash in
  let name := substring packageName (slash + 1)
                (Z.of_nat (String.length packageName)) in
  packagesRoot +:+ maintainer +:+ "/" +:+ name +:+ "/"
    +:+ Versions.versionString version.

(** The loop of [loadDependencyMap]:
    [for (const dep in deps) dependencyMap.set(dep, await loadPackage(dep, packageVersions))],
    with the call of [loadPackage] as [load]. *)
Fixpoint loadEach (load : string → Workspace → Workspace * Outcome nat)
    (deps : list string) (dependencyMap : list (string * nat))
    (ws : Workspace) : Workspace * Outcome (list (string * nat)) :=
  match deps with
  | [] => (ws, Returned dependencyMap)
  | dep :: rest =>
      match load dep ws with
      | (ws', Returned p) =>
          loadEach load rest (objectSet dep p dependencyMap) ws'
      | (ws', Thrown e) => (ws', Thrown e)
      | (ws', OutOfFuel) => (ws', OutOfFuel)
      end
  end.

(** [loadPackage(packageName, packageVersions)]. The recursion goes
    through the dependencies of the manifests read; [fuel] bounds its
    depth. *)
Fixpoint loadPackage (fuel : nat)
    (packageVersions : gmap string Versions.IVersion) (packageName : string)
    (ws : Workspace) : Workspace * Outcome nat :=
  match fuel with
  | 0 => (ws, OutOfFuel)
  | S fuel' =>
      match packageVersions !! packageName with
      | None => (ws, Thrown ProblemGettingPackageVersion)
      | Some version =>
          match resolvedPackageCache ws !! cacheKey packageName version with
          | Some cached => (ws, Returned cached)
          | None =>
              let ws1 := recordLoad (cacheKey packageName version) ws in
              let pathToPackage := pathToPackageWithVersion packageName version in
              match loadElmJson (pathJoin pathToPackage "elm.json") with
              | Thrown e => (ws1, Thrown e)
              | OutOfFuel => (ws1, OutOfFuel)
              | Returned (ApplicationJson _) => (ws1, Thrown ShouldNeverHappen)
              | Returned (PackageJson json) =>
                  match loadEach (loadPackage fuel' packageVersions)
                          ((pkgDependencies json).*1) [] ws1 with
                  | (ws2, Returned dependencyMap) =>
                      let '(resolvedPackage, ws3) :=
                        allocate
                          {| type := Package;
                             uri := uriFile pathToPackage;
                             dependencies := dependencyMap;
                             testDependencies := [];
                             sourceDirectories := [pathJoin pathToPackage "src"];
                             testDirectories := [pathJoin pathToPackage "tests"];
                             moduleToUriMap := ∅;
                             maintainerAndPackageName := None;
                             exposedModules :=
                               list_to_set
                                 (flatternExposedModules (pkgExposedModules json)) |}
                          ws2 in
                      (cacheSet (cacheKey packageName version) resolvedPackage ws3,
                       Returned resolvedPackage)
                  | (ws2, Thrown e) => (ws2, Thrown e)
                  | (ws2, OutOfFuel) => (ws2, OutOfFuel)
                  end
              end
          end
      end
  end.

(** [loadDependencyMap(deps, packageVersions)] *)
Definition loadDependencyMap (fuel : nat)
    (packageVersions : gmap string Versions.IVersion)
    (deps : list (string * string)) (ws : Workspace)
    : Workspace * Outcome (list (string * nat)) :=
  loadEach (loadPackage fuel packageVersions) (deps.*1) [] ws.

(** The constraints of a package manifest, parsed in order; the first that
    does not parse is thrown. *)
Fixpoint parseConstraints (entries : list (string * string))
    : Outcome (list (string * Versions.IConstraint)) :=
  match entries with
  | [] => Returned []
  | (dep, text) :: rest =>
      match parseConstraint text with
      | None => Thrown (MalformedConstraint text)
      | Some c =>
          match parseConstraints rest with
          | Returned parsed => Returned ((dep, c) :: parsed)
          | other => other
          end
      end
  end.

(** [loadRootProject(elmJsonPath)]. In either branch the first argument
    of [Object.assign] is an object of the manifest, which is the object the
    later [loadDependencyMap] call reads. *)
Definition loadRootProject (fuel : nat) (elmJsonPath : string)
    (ws : Workspace) : Workspace * Outcome nat :=
  match loadElmJson elmJsonPath with
  | Thrown e => (ws, Thrown e)
  | OutOfFuel => (ws, OutOfFuel)
  | Returned (ApplicationJson json) =>
      let direct := objectAssign (appDirect json)
                      [appIndirect json; appTestDirect json; appTestIndirect json] in
      let allDependencies :=
        mapOfEntries ((λ '(dep, version), (dep, parseVersion version)) <$> direct) in
      match loadDependencyMap fuel allDependencies direct ws with
      | (ws1, Returned deps) =>
          match loadDependencyMap fuel allDependencies (appTestDirect json) ws1 with
          | (ws2, Returned testDeps) =>
              let '(project, ws3) :=
                allocate
                  {| type := Application; uri := rootUri;
                     dependencies := deps; testDependencies := testDeps;
                     sourceDirectories :=
                       pathResolve rootFsPath <$> appSourceDirectories json;
                     testDirectories := [pathJoin rootFsPath "tests"];
                     moduleToUriMap := ∅; maintainerAndPackageName := None;
                     exposedModules := ∅ |}
                  ws2 in
              (ws3, Returned project)
          | (ws2, Thrown e) => (ws2, Thrown e)
          | (ws2, OutOfFuel) => (ws2, OutOfFuel)
          end
      | (ws1, Thrown e) => (ws1, Thrown e)
      | (ws1, OutOfFuel) => (ws1, OutOfFuel)
      end
  | Returned (PackageJson json) =>
      let dependencies' := objectAssign (pkgDependencies json)
                             [pkgTestDependencies json] in
      match parseConstraints dependencies' with
      | Thrown e => (ws, Thrown e)
      | OutOfFuel => (ws, OutOfFuel)
      | Returned parsed =>
          match solveDependencies (mapOfEntries parsed) with
          | Solver.OutOfFuel => (ws, OutOfFuel)
          | Solver.MissingPackage name => (ws, Thrown (PackageFolderMissing name))
          | Solver.Unsatisfiable =>
              (showErrorMessage unsolvableMessage ws,
               Thrown UnsolvablePackageConstraints)
          | Solver.Solved solvedVersions =>
              match loadDependencyMap fuel solvedVersions dependencies' ws with
              | (ws1, Returned deps) =>
                  match loadDependencyMap fuel solvedVersions
                          (pkgTestDependencies json) ws1 with
                  | (ws2, Returned testDeps) =>
                      let '(project, ws3) :=
                        allocate
                          {| type := Package; uri := rootUri;
                             dependencies := deps; testDependencies := testDeps;
                             sourceDirectories := [pathJoin rootFsPath "src"];
                             testDirectories := [pathJoin rootFsPath "tests"];
                             moduleToUriMap := ∅;
                             maintainerAndPackageName := None;
                             exposedModules :=
                               list_to_set
                                 (flatternExposedModules (pkgExposedModules json)) |}
                          ws2 in
                      (ws3, Returned project)
                  | (ws2, Thrown e) => (ws2, Thrown e)
                  | (ws2, OutOfFuel) => (ws2, OutOfFuel)
                  end
              | (ws1, Thrown e) => (ws1, Thrown e)
              | (ws1, OutOfFuel) => (ws1, OutOfFuel)
              end
          end
      end
  end.

(** *** One load per cache key *)

Lemma append_empty (s : string) : EmptyString +:+ s = s.
Proof. reflexivity. Qed.

Lemma append_String c (a s : string) : String c a +:+ s = String c (a +:+ s).
Proof. reflexivity. Qed.

Lemma includes_append c a b :
  includes c (a +:+ String c b) = true.
Proof.
  induction a as [|c' a IH].
  - rewrite append_empty. simpl. by rewrite Stdlib.Strings.Ascii.eqb_refl.
  - rewrite append_String. simpl. apply orb_true_iff. right. exact IH.
Qed.

(** A string is split in one way at a separator that its tail is free of. *)
Lemma append_separator_inj c a a' b b' :
  includes c b = false → includes c b' = false →
  a +:+ String c b = a' +:+ String c b' → a = a' ∧ b = b'.
Proof.
  intros Hb Hb'. revert a'.
  induction a as [|x a IH]; intros [|x' a'];
    rewrite ?append_empty, ?append_String; intros Heq.
  - by injection Heq.
  - injection Heq as <- ->. by rewrite includes_append in Hb.
  - injection Heq as -> <-. by rewrite includes_append in Hb'.
  - injection Heq as -> Heq. destruct (IH a' Heq) as [-> ->]. done.
Qed.

Section Memo.
Variable packageVersions : gmap string Versions.IVersion.

Local Abbreviation cache := resolvedPackageCache.
Local Abbreviation load fuel := (loadPackage fuel packageVersions).

(** The cache key of a package name, when the name has a version. *)
Definition keyOf (packageName : string) : option string :=
  cacheKey packageName <$> packageVersions !! packageName.

(** The dependencies named by the manifest that [loadPackage] reads for a
    package name, when that manifest is a package manifest. *)
Definition manifestDeps (packageName : string) : option (list string) :=
  version ← packageVersions !! packageName;
  match loadElmJson
          (pathJoin (pathToPackageWithVersion packageName version) "elm.json") with
  | Returned (PackageJson json) => Some ((pkgDependencies json).*1)
  | _ => None
  end.

Definition cachedIn (c : gmap string nat) (packageName : string) : Prop :=
  ∃ key, keyOf packageName = Some key ∧ is_Some (c !! key).

(** With the cache [c], loading [n] reads its manifest and, the
    dependencies before [n'] being cached, goes on to load [n']. *)
Definition edge (c : gmap string nat) (n n' : string) : Prop :=
  (∃ key, keyOf n = Some key ∧ c !! key = None)
  ∧ ∃ before after, manifestDeps n = Some (before ++ n' :: after)
                    ∧ Forall (cachedIn c) before.

(** The packages whose load is under way, outermost first, each reading
    the next one and the last reading [target]. *)
Fixpoint chainTo (c : gmap string nat) (stack : list string) (target : string)
    : Prop :=
  match stack with
  | [] => True
  | n :: rest => edge c n (default target (head rest)) ∧ chainTo c rest target
  end.

(** Version strings are free of ["@"], so that a cache key names one
    package and one version string. *)
Definition versionStringsPlain : Prop :=
  map_Forall (λ _ version,
                includes "@"%char (Versions.versionString version) = false)
             packageVersions.

(** [key] is the cache key of a package whose load is under way. *)
Definition stackKey (stack : list string) (key : string) : Prop :=
  ∃ n, n ∈ stack ∧ keyOf n = Some key.

(** Every load recorded is of a package that is cached by now or whose
    load is under way, and none is recorded twice. *)
Definition recorded (stack : list string) (ws : Workspace) : Prop :=
  NoDup (loads ws)
  ∧ (∀ key, key ∈ loads ws → is_Some (cache ws !! key) ∨ stackKey stack key)
  ∧ (∀ key, stackKey stack key → key ∈ loads ws).

(** From [ws] to [ws'] loads were recorded, each once; what was cached is
    cached still, and exactly the keys loaded may have entered the cache. *)
Definition grows (ws ws' : Workspace) : Prop :=
  NoDup (loads ws')
  ∧ (∃ new, loads ws' = new ++ loads ws)
  ∧ (∀ key p, cache ws !! key = Some p → cache ws' !! key = Some p)
  ∧ (∀ key, cache ws !! key = None → is_Some (cache ws' !! key) →
            key ∈ loads ws' ∧ key ∉ loads ws).

(** Every load recorded so far has completed: its key is cached. *)
Definition loadsCached (ws : Workspace) : Prop :=
  ∀ key, key ∈ loads ws → is_Some (cache ws !! key).

Lemma loadPackage_cached fuel n ws :
  cachedIn (cache ws) n → ∃ p, load (S fuel) n ws = (ws, Returned p).
Proof.
  intros (key & Hkey & [p Hp]). unfold keyOf in Hkey. simpl.
  destruct (packageVersions !! n) as [version|]; [|done].
  injection Hkey as <-. rewrite Hp. by exists p.
Qed.

Lemma loadEach_skip (f : string → Workspace → Workspace * Outcome nat)
    before ws :
  Forall (λ d, ∃ p, f d ws = (ws, Returned p)) before →
  ∀ rest dependencyMap,
    ∃ dependencyMap', loadEach f (before ++ rest) dependencyMap ws
                      = loadEach f rest dependencyMap' ws.
Proof.
  induction 1 as [|d before [p Hp] _ IH]; intros rest dm; simpl.
  - by exists dm.
  - rewrite Hp. apply IH.
Qed.

(** A set of package names, each of which leads on to another one of the
    set, is never loaded to the end: no fuel suffices. *)
Lemma loadPackage_cycle (inCycle : string → Prop) (c : gmap string nat) :
  (∀ n, inCycle n → ∃ n', edge c n n' ∧ inCycle n') →
  ∀ fuel n ws, inCycle n → cache ws = c → (load fuel n ws).2 = OutOfFuel.
Proof.
  intros Hclosed. induction fuel as [|fuel IH]; intros n ws Hn Hc; [done|].
  destruct (Hclosed n Hn)
    as (n' & [(key & Hkey & Hmiss) (before & after & Hdeps & Hbefore)] & Hn').
  unfold keyOf in Hkey. unfold manifestDeps in Hdeps. simpl.
  destruct (packageVersions !! n) as [version|]; [|done].
  simpl in Hkey, Hdeps. injection Hkey as <-. rewrite Hc, Hmiss.
  destruct (loadElmJson _) as [[app|json]| |]; try done.
  injection Hdeps as ->.
  set (ws1 := recordLoad (cacheKey n version) ws).
  assert (Hout : (loadEach (load fuel) (before ++ n' :: after) [] ws1).2
                 = OutOfFuel).
  { destruct fuel as [|fuel'].
    - by destruct before.
    - destruct (loadEach_skip (load (S fuel')) before ws1) with
        (rest := n' :: after) (dependencyMap := @nil (string * nat))
        as [dm' ->].
      { eapply Forall_impl; [exact Hbefore|]. intros d Hd.
        apply loadPackage_cached. by rewrite <- Hc in Hd. }
      cbn [loadEach]. pose proof (IH n' ws1 Hn' Hc) as Hrec.
      destruct (load (S fuel') n' ws1) as [ws' [p|e|]]; done. }
  destruct (loadEach _ _ _ ws1) as [ws2 [dm|e|]]; done.
Qed.

Lemma chainTo_closed c stack target (names : list string) :
  chainTo c stack target → stack ⊆ names → target ∈ names →
  ∀ n, n ∈ stack → ∃ n', edge c n n' ∧ n' ∈ names.
Proof.
  induction stack as [|m rest IH]; intros Hchain Hsub Htarget n Hn.
  - by apply elem_of_nil in Hn.
  - destruct Hchain as [Hedge Hrest].
    apply elem_of_cons in Hn as [->|Hn].
    + eexists. split; [exact Hedge|].
      destruct rest as [|m' rest']; simpl; [done|].
      apply Hsub. right. by left.
    + apply IH; try done. intros x Hx. apply Hsub. by right.
Qed.

Lemma chainTo_snoc c stack n d :
  chainTo c stack n → edge c n d → chainTo c (stack ++ [n]) d.
Proof.
  induction stack as [|m rest IH]; simpl; intros Hchain Hedge; [done|].
  destruct Hchain as [Hm Hrest]. split; [|by apply IH].
  by destruct rest.
Qed.

Lemma edge_mono c c' n n' :
  edge c n n' →
  (∀ key, is_Some (c !! key) → is_Some (c' !! key)) →
  (∀ key, keyOf n = Some key → c' !! key = None) →
  edge c' n n'.
Proof.
  intros [(key & Hkey & Hmiss) (before & after & Hdeps & Hbefore)] Hgrow Hstill.
  split; [exists key; auto|]. exists before, after. split; [done|].
  eapply Forall_impl; [exact Hbefore|].
  intros d (k & Hk & Hin). exists k. auto.
Qed.

Lemma chainTo_mono c c' stack target :
  chainTo c stack target →
  (∀ key, is_Some (c !! key) → is_Some (c' !! key)) →
  (∀ n key, n ∈ stack → keyOf n = Some key → c' !! key = None) →
  chainTo c' stack target.
Proof.
  induction stack as [|m rest IH]; simpl; [done|].
  intros [Hedge Hrest] Hgrow Hstill. split.
  - eapply edge_mono; [done..|]. intros key. apply Hstill. by left.
  - apply IH; try done. intros n key Hn. apply Hstill. by right.
Qed.

Lemma keyOf_inj n n' key :
  versionStringsPlain → keyOf n = Some key → keyOf n' = Some key → n = n'.
Proof.
  unfold keyOf. intros Hplain Hn Hn'.
  destruct (packageVersions !! n) as [version|] eqn:Ev; [|done].
  destruct (packageVersions !! n') as [version'|] eqn:Ev'; [|done].
  simpl in *. injection Hn as <-. injection Hn' as Heq.
  unfold cacheKey in Heq.
  by destruct (append_separator_inj "@"%char n' n
                 (Versions.versionString version')
                 (Versions.versionString version)
                 (Hplain _ _ Ev') (Hplain _ _ Ev) Heq).
Qed.

Lemma grows_refl ws : NoDup (loads ws) → grows ws ws.
Proof.
  intros Hnd. split_and!; [done|by exists []|done|].
  intros key Hnone [p Hp]. congruence.
Qed.

Lemma grows_is_Some ws ws' key :
  grows ws ws' → is_Some (cache ws !! key) → is_Some (cache ws' !! key).
Proof. intros (_ & _ & Hkept & _) [p Hp]. exists p. by apply Hkept. Qed.

Lemma grows_trans ws1 ws2 ws3 : grows ws1 ws2 → grows ws2 ws3 → grows ws1 ws3.
Proof.
  intros (Hnd2 & [new1 Hl1] & Hmono1 & Hnew1) (Hnd3 & [new2 Hl2] & Hmono2 & Hnew2).
  split_and!; [done| |auto|].
  - exists (new2 ++ new1). by rewrite Hl2, Hl1, app_assoc.
  - intros key Hnone Hsome.
    destruct (cache ws2 !! key) as [p|] eqn:E2.
    + destruct (Hnew1 key Hnone) as [Hin Hout]; [by rewrite E2|].
      split; [|done]. rewrite Hl2. apply elem_of_app. by right.
    + destruct (Hnew2 key E2 Hsome) as [Hin Hout]. split; [done|].
      intros Hold. apply Hout. rewrite Hl1. apply elem_of_app. by right.
Qed.

Lemma grows_uncached ws ws' key :
  grows ws ws' → key ∈ loads ws → cache ws !! key = None →
  cache ws' !! key = None.
Proof.
  intros (_ & _ & _ & Hnew) Hin Hnone.
  destruct (cache ws' !! key) as [p|] eqn:E; [|done].
  destruct (Hnew key Hnone) as [_ Hout]; [by rewrite E|]. done.
Qed.

Lemma grows_recordLoad ws key :
  NoDup (loads ws) → key ∉ loads ws → grows ws (recordLoad key ws).
Proof.
  intros Hnd Hfresh. split_and!.
  - simpl. by apply NoDup_cons.
  - by exists [key].
  - done.
  - intros k Hnone [p Hp]. simpl in Hp. congruence.
Qed.

(** The loop over the dependencies of a manifest, given the property of
    the calls of [loadPackage] it makes. *)
Lemma loadEach_grows fuel (n key : string) (stack : list string) :
  (∀ d ws ws' out,
     chainTo (cache ws) (stack ++ [n]) d → recorded (stack ++ [n]) ws →
     load fuel d ws = (ws', out) → out ≠ OutOfFuel →
     grows ws ws'
     ∧ ∀ p, out = Returned p →
         cachedIn (cache ws') d ∧ recorded (stack ++ [n]) ws') →
  keyOf n = Some key →
  ∀ rest before dependencyMap ws ws' out,
    manifestDeps n = Some (before ++ rest) →
    chainTo (cache ws) stack n → cache ws !! key = None →
    Forall (cachedIn (cache ws)) before →
    recorded (stack ++ [n]) ws →
    loadEach (load fuel) rest dependencyMap ws = (ws', out) →
    out ≠ OutOfFuel →
    grows ws ws'
    ∧ ∀ dm, out = Returned dm → recorded (stack ++ [n]) ws'.
Proof.
  intros Hload Hkey.
  induction rest as [|d rest IH];
    intros before dm ws ws' out Hdeps Hchain Hmiss Hbefore Hrec Hrun Hout.
  - simpl in Hrun. injection Hrun as <- <-.
    split; [apply grows_refl; by destruct Hrec|]. by intros.
  - simpl in Hrun.
    destruct (load fuel d ws) as [wsd [p|e|]] eqn:Hd.
    + destruct (Hload d ws wsd (Returned p)) as [Hgrow Hret]; try done.
      { apply chainTo_snoc; [done|]. split; [by exists key|].
        by exists before, rest. }
      destruct (Hret p eq_refl) as [Hcached Hrecd].
      assert (Hin : key ∈ loads ws).
      { destruct Hrec as (_ & _ & Hstack). apply Hstack. exists n.
        split; [|done]. apply elem_of_app. right. by left. }
      destruct (IH (before ++ [d]) (objectSet d p dm) wsd ws' out)
        as [Hgrow' Hret']; try done.
      * by rewrite <- app_assoc.
      * eapply chainTo_mono;
          [exact Hchain|intros k; by apply grows_is_Some|].
        intros m k Hm Hk. eapply grows_uncached; [exact Hgrow| |].
        -- destruct Hrec as (_ & _ & Hstack). apply Hstack. exists m.
           split; [|done]. apply elem_of_app. by left.
        -- clear -Hchain Hm Hk. induction stack as [|m' stack' IHs];
             [by apply elem_of_nil in Hm|].
           destruct Hchain as [[(k' & Hk' & Hnone) _] Hrest].
           apply elem_of_cons in Hm as [->|Hm]; [congruence|by apply IHs].
      * by eapply grows_uncached.
      * apply Forall_app. split; [|by apply Forall_singleton].
        eapply Forall_impl; [exact Hbefore|].
        intros x (k & Hk & Hsome). exists k. split; [done|].
        by eapply grows_is_Some.
      * split; [by eapply grows_trans|done].
    + injection Hrun as <- <-.
      destruct (Hload d ws wsd (Thrown e)) as [Hgrow _]; try done.
      { apply chainTo_snoc; [done|]. split; [by exists key|].
        by exists before, rest. }
    + injection Hrun as <- <-. done.
Qed.

(** The invariant of [loadPackage]: a call that returns or throws records
    each load once, and when it returns the package is cached. *)
Lemma loadPackage_grows :
  versionStringsPlain →
  ∀ fuel n stack ws ws' out,
    chainTo (cache ws) stack n → recorded stack ws →
    load fuel n ws = (ws', out) → out ≠ OutOfFuel →
    grows ws ws'
    ∧ ∀ p, out = Returned p →
        cachedIn (cache ws') n ∧ recorded stack ws'
        ∧ ∃ version, packageVersions !! n = Some version
                     ∧ cache ws' !! cacheKey n version = Some p.
Proof.
  intros Hplain. induction fuel as [|fuel IH];
    intros n stack ws ws' out Hchain Hrec Hrun Hout.
  { simpl in Hrun. injection Hrun as <- <-. done. }
  pose proof Hrec as (Hnd & Hlogged & Hstack).
  assert (Hnotin : n ∈ stack → False).
  { intros Hn.
    pose proof (loadPackage_cycle (λ x, x ∈ stack) (cache ws)
                  (chainTo_closed _ _ _ stack Hchain (λ x Hx, Hx) Hn)
                  (S fuel) n ws Hn eq_refl) as Hcyc.
    rewrite Hrun in Hcyc. simpl in Hcyc. done. }
  simpl in Hrun.
  destruct (packageVersions !! n) as [version|] eqn:Hversion.
  2:{ injection Hrun as <- <-. split; [by apply grows_refl|]. by intros. }
  assert (Hkey : keyOf n = Some (cacheKey n version)).
  { unfold keyOf. by rewrite Hversion. }
  destruct (cache ws !! cacheKey n version) as [cached|] eqn:Hcache.
  { injection Hrun as <- <-. split; [by apply grows_refl|].
    intros p [= <-]. split_and!; [|done|by exists version].
    exists (cacheKey n version). by rewrite Hcache. }
  assert (Hfresh : cacheKey n version ∉ loads ws).
  { intros Hin. destruct (Hlogged _ Hin) as [[p Hp]|(m & Hm & Hmk)];
      [congruence|].
    apply Hnotin. by rewrite (keyOf_inj n m _ Hplain Hkey Hmk). }
  set (ws1 := recordLoad (cacheKey n version) ws) in *.
  pose proof (grows_recordLoad ws _ Hnd Hfresh) as Hgrow1.
  destruct (loadElmJson _) as [[app|json]|e|] eqn:Hjson.
  - injection Hrun as <- <-. split; [done|]. by intros.
  - assert (Hrec1 : recorded (stack ++ [n]) ws1).
    { split_and!.
      - by destruct Hgrow1.
      - intros key Hin. simpl in Hin. apply elem_of_cons in Hin as [->|Hin].
        + right. exists n. split; [|done]. apply elem_of_app. right. by left.
        + destruct (Hlogged key Hin) as [?|(m & Hm & Hmk)]; [by left|].
          right. exists m. split; [|done]. apply elem_of_app. by left.
      - intros key (m & Hm & Hmk). simpl.
        apply elem_of_app in Hm as [Hm|Hm].
        + right. apply Hstack. by exists m.
        + apply list_elem_of_singleton in Hm. subst m.
          rewrite Hkey in Hmk. injection Hmk as <-. by left. }
    assert (Hcalls : ∀ d w w' o,
      chainTo (cache w) (stack ++ [n]) d → recorded (stack ++ [n]) w →
      load fuel d w = (w', o) → o ≠ OutOfFuel →
      grows w w'
      ∧ ∀ p, o = Returned p →
          cachedIn (cache w') d ∧ recorded (stack ++ [n]) w').
    { intros d w w' o Hc Hr Hl Ho.
      destruct (IH d (stack ++ [n]) w w' o Hc Hr Hl Ho) as [Hg Hp].
      split; [done|]. intros p Heq. by destruct (Hp p Heq) as (? & ? & _). }
    destruct (loadEach _ _ _ ws1) as [ws2 [dm|e|]] eqn:Heach.
    + destruct (loadEach_grows fuel n (cacheKey n version) stack
                  Hcalls
                  Hkey ((pkgDependencies json).*1) [] [] ws1 ws2 (Returned dm))
        as [Hgrow2 Hret]; try done.
      { unfold manifestDeps. rewrite Hversion. simpl. by rewrite Hjson. }
      specialize (Hret dm eq_refl). destruct Hret as (Hnd2 & Hlogged2 & Hstack2).
      simpl in Hrun. injection Hrun as <- <-.
      pose proof (grows_trans _ _ _ Hgrow1 Hgrow2) as Hgrow.
      destruct Hgrow as (_ & [new Hnew] & Hmono & Hentered).
      split; [split_and!|]; simpl.
      * done.
      * by exists new.
      * intros key q Hq.
        destruct (decide (cacheKey n version = key)) as [<-|Hne];
          [congruence|].
        rewrite lookup_insert_ne by done. auto.
      * intros key Hnone Hsome.
        destruct (decide (cacheKey n version = key)) as [<-|Hne].
        -- split; [|done]. destruct Hgrow2 as (_ & [new2 Hnew2] & _).
           rewrite Hnew2. apply elem_of_app. right. simpl. by left.
        -- rewrite lookup_insert_ne in Hsome by done. auto.
      * intros p [= <-]. split_and!.
        -- exists (cacheKey n version). by rewrite lookup_insert_eq.
        -- split_and!; simpl; [done| |].
           ++ intros key Hin. destruct (Hlogged2 key Hin) as [[q Hq]|(m & Hm & Hmk)].
              ** left. destruct (decide (cacheKey n version = key)) as [<-|Hne];
                   [by rewrite lookup_insert_eq|].
                 rewrite lookup_insert_ne by done. by exists q.
              ** apply elem_of_app in Hm as [Hm|Hm]; [right; by exists m|].
                 apply list_elem_of_singleton in Hm. subst m.
                 rewrite Hkey in Hmk. injection Hmk as <-.
                 left. by rewrite lookup_insert_eq.
           ++ intros key Hk. rewrite Hnew. apply elem_of_app. right. auto.
        -- exists version. by rewrite lookup_insert_eq.
    + injection Hrun as <- <-.
      destruct (loadEach_grows fuel n (cacheKey n version) stack
                  Hcalls
                  Hkey ((pkgDependencies json).*1) [] [] ws1 ws2 (Thrown e))
        as [Hgrow2 _]; try done.
      { unfold manifestDeps. rewrite Hversion. simpl. by rewrite Hjson. }
      split; [by eapply grows_trans|]. by intros.
    + injection Hrun as <- <-. done.
  - injection Hrun as <- <-. split; [done|]. by intros.
  - injection Hrun as <- <-. done.
Qed.

Lemma loadPackage_once fuel name ws ws' out :
  versionStringsPlain →
  NoDup (loads ws) → loadsCached ws →
  load fuel name ws = (ws', out) → out ≠ OutOfFuel →
  NoDup (loads ws')
  ∧ ∀ p, out = Returned p →
      (∃ version, packageVersions !! name = Some version
                  ∧ cache ws' !! cacheKey name version = Some p)
      ∧ loadsCached ws'
      ∧ ∀ fuel', load (S fuel') name ws' = (ws', Returned p).
Proof.
  intros Hplain Hnd Hcached Hrun Hout.
  destruct (loadPackage_grows Hplain fuel name [] ws ws' out) as [Hgrow Hret];
    try done.
  { split_and!; [done| |].
    - intros key Hin. left. by apply Hcached.
    - intros key (m & Hm & _). by apply elem_of_nil in Hm. }
  split; [by destruct Hgrow|].
  intros p Hp. destruct (Hret p Hp) as (_ & (_ & Hlogged & _) & version & Hv & Hc).
  split_and!.
  - by exists version.
  - intros key Hin. destruct (Hlogged key Hin) as [?|(m & Hm & _)]; [done|].
    by apply elem_of_nil in Hm.
  - intros fuel'. simpl. by rewrite Hv, Hc.
Qed.

(** The same for a whole dependency map, loaded from a state in which
    every recorded load has completed. *)
Lemma loadEach_once fuel deps : ∀ dependencyMap ws ws' out,
  versionStringsPlain →
  NoDup (loads ws) → loadsCached ws →
  loadEach (load fuel) deps dependencyMap ws = (ws', out) →
  out ≠ OutOfFuel →
  NoDup (loads ws') ∧ ∀ dm, out = Returned dm → loadsCached ws'.
Proof.
  induction deps as [|d deps IH]; intros dm ws ws' out Hplain Hnd Hc Hrun Hout;
    simpl in Hrun.
  - injection Hrun as <- <-. by split.
  - destruct (load fuel d ws) as [wsd [p|e|]] eqn:Hd.
    + destruct (loadPackage_once fuel d ws wsd (Returned p)) as [Hnd' Hret];
        try done.
      destruct (Hret p eq_refl) as (_ & Hc' & _). by eapply IH.
    + injection Hrun as <- <-.
      destruct (loadPackage_once fuel d ws wsd (Thrown e)) as [Hnd' _];
        try done.
    + injection Hrun as <- <-. done.
Qed.

(** When the manifests of the store depend on each other without a cycle,
    [rank] bounding the depth below a package, fuel above the rank of a
    package suffices: its load returns or throws. *)
Lemma loadEach_finishes (f : string → Workspace → Workspace * Outcome nat)
    deps :
  (∀ d ws, d ∈ deps → (f d ws).2 ≠ OutOfFuel) →
  ∀ dependencyMap ws, (loadEach f deps dependencyMap ws).2 ≠ OutOfFuel.
Proof.
  induction deps as [|d deps IH]; intros Hf dm ws; simpl; [done|].
  pose proof (Hf d ws ltac:(by left)) as Hd.
  destruct (f d ws) as [ws' [p|e|]]; simpl in *; [|done|done].
  apply IH. intros d' ws'' Hin. apply Hf. by right.
Qed.

Lemma loadPackage_finishes (rank : string → nat) :
  (∀ n deps d, manifestDeps n = Some deps → d ∈ deps → rank d < rank n) →
  ∀ fuel n ws, rank n < fuel → (load fuel n ws).2 ≠ OutOfFuel.
Proof.
  intros Hrank. induction fuel as [|fuel IH]; intros n ws Hlt; [lia|].
  simpl. destruct (packageVersions !! n) as [version|] eqn:Hversion; [|done].
  destruct (cache ws !! cacheKey n version); [done|].
  destruct (loadElmJson _) as [[app|json]|e|] eqn:Hjson; try done.
  - pose proof (loadEach_finishes (load fuel) ((pkgDependencies json).*1))
      as Heach.
    specialize (Heach (λ d ws' Hd, IH d ws' ltac:(
      assert (rank d < rank n) by
        (eapply Hrank; [|exact Hd]; unfold manifestDeps;
         rewrite Hversion; simpl; by rewrite Hjson);
      lia))).
    specialize (Heach [] (recordLoad (cacheKey n version) ws)).
    destruct (loadEach _ _ _ _) as [ws2 [dm|e|]]; done.
  - (* [loadElmJson] itself never runs out of fuel *)
    unfold loadElmJson in Hjson.
    destruct (readFile _); [|done]. by destruct (jsonParse _).
Qed.

(** *** What a dependency map holds *)

Lemma objectSet_keys {A} key (value : A) (o : list (string * A)) :
  (objectSet key value o).*1
  = if decide (key ∈ o.*1) then o.*1 else o.*1 ++ [key].
Proof.
  induction o as [|[k x] rest IH]; csimpl.
  - destruct (decide (key ∈ [])) as [Hin|_]; [by apply elem_of_nil in Hin|done].
  - destruct (decide (k = key)) as [->|Hne]; csimpl.
    + rewrite decide_True; [done|]. apply elem_of_cons. by left.
    + rewrite IH. destruct (decide (key ∈ rest.*1)) as [Hin|Hout].
      * rewrite decide_True; [done|]. apply elem_of_cons. by right.
      * rewrite decide_False; [done|]. intros Hin.
        apply elem_of_cons in Hin as [->|Hin]; done.
Qed.

Lemma objectSet_elem {A} key (value : A) (o : list (string * A)) k v :
  (k, v) ∈ objectSet key value o → (k, v) = (key, value) ∨ (k, v) ∈ o.
Proof.
  induction o as [|[k' x] rest IH]; simpl; intros Hin.
  - apply list_elem_of_singleton in Hin. by left.
  - destruct (decide (k' = key)) as [->|Hne].
    + apply elem_of_cons in Hin as [Hin|Hin]; [by left|].
      right. apply elem_of_cons. by right.
    + apply elem_of_cons in Hin as [Hin|Hin].
      * right. apply elem_of_cons. by left.
      * destruct (IH Hin) as [?|?]; [by left|].
        right. apply elem_of_cons. by right.
Qed.

Lemma objectSet_values {A} (P : A → Prop) key value (o : list (string * A)) :
  P value → Forall P o.*2 → Forall P (objectSet key value o).*2.
Proof.
  intros Hv. induction o as [|[k x] rest IH]; csimpl; intros Ho.
  - by constructor.
  - apply Forall_cons in Ho as [Hx Hrest].
    destruct (decide (k = key)); csimpl; constructor; auto.
Qed.






(** The manifests of the packages that have a version name packages of a
    lower [rank] only. *)
Definition manifestsRanked (rank : string → nat) : Prop :=
  map_Forall (λ name _,
                match manifestDeps name with
                | Some deps => Forall (λ d, rank d < rank name) deps
                | None => True
                end)
             packageVersions.

(** X13: when the manifests depend on each other without a cycle, the
    rank of a package bounding the depth below it, a call of [loadPackage]
    returns or throws within a recursion depth of that rank. *)
Theorem loadPackage_ends_on_ranked_manifests (rank : string → nat)
    (fuel : nat) (name : string) (ws : Workspace) :
  manifestsRanked rank → rank name < fuel →
  (load fuel name ws).2 ≠ OutOfFuel.
Proof.
  intros Hranked Hlt. apply (loadPackage_finishes rank); [|done].
  intros n deps d Hdeps Hd.
  destruct (packageVersions !! n) as [version|] eqn:Hversion.
  - specialize (Hranked n version Hversion). simpl in Hranked.
    rewrite Hdeps in Hranked. rewrite Forall_forall in Hranked.
    by apply Hranked.
  - unfold manifestDeps in Hdeps. by rewrite Hversion in Hdeps.
Qed.

(** X14: when the manifests of a set of uncached packages lead from each
    of them to another one of the set, as on a dependency cycle, no call
    of [loadPackage] for one of them returns or throws: the recursion goes
    on whatever depth it is given. *)
Theorem loadPackage_never_ends_on_cycle (inCycle : string → Prop)
    (fuel : nat) (name : string) (ws : Workspace) :
  (∀ n, inCycle n → ∃ n', edge (cache ws) n n' ∧ inCycle n') →
  inCycle name →
  (load fuel name ws).2 = OutOfFuel.
Proof.
  intros Hclosed Hin.
  by apply (loadPackage_cycle inCycle (cache ws) Hclosed).
Qed.

(** *** Loads that return *)




End Memo.


(** One load cycle: [loadRootProject] from a state in which every recorded
    load has completed. The versions it passes on are those that
    [parseVersion] or the solver produced. *)
Lemma mapOfEntries_Forall {A} (P : string → A → Prop)
    (entries : list (string * A)) :
  Forall (λ entry, P entry.1 entry.2) entries →
  map_Forall P (mapOfEntries entries).
Proof.
  unfold mapOfEntries. intros Hall.
  assert (Hacc : ∀ m : gmap string A, map_Forall P m →
            map_Forall P (foldl (λ m '(key, value), <[key := value]> m)
                                m entries)).
  { induction Hall as [|[key value] rest Hentry _ IH]; intros m Hm; simpl;
      [done|].
    apply IH. by apply map_Forall_insert_2. }
  apply Hacc, map_Forall_empty.
Qed.

Lemma loadRootProject_loads_once fuel elmJsonPath ws ws' out :
  (∀ text, includes "@"%char (Versions.versionString (parseVersion text))
           = false) →
  (∀ deps versions, solveDependencies deps = Solver.Solved versions →
                    versionStringsPlain versions) →
  NoDup (loads ws) → (∀ key, key ∈ loads ws → is_Some (resolvedPackageCache ws !! key)) →
  loadRootProject fuel elmJsonPath ws = (ws', out) → out ≠ OutOfFuel →
  NoDup (loads ws').
Proof.
  intros Hparse Hsolve Hnd Hcached. unfold loadRootProject.
  assert (Htwice : ∀ versions deps testDeps w1 o1,
    versionStringsPlain versions →
    loadDependencyMap fuel versions deps ws = (w1, o1) → o1 ≠ OutOfFuel →
    NoDup (loads w1)
    ∧ ∀ dm w2 o2, o1 = Returned dm →
        loadDependencyMap fuel versions testDeps w1 = (w2, o2) →
        o2 ≠ OutOfFuel → NoDup (loads w2)).
  { intros versions deps testDeps w1 o1 Hplain Hrun1 Ho1.
    destruct (loadEach_once versions fuel (deps.*1) [] ws w1 o1)
      as [Hnd1 Hc1]; try done.
    split; [done|]. intros dm w2 o2 -> Hrun2 Ho2.
    by destruct (loadEach_once versions fuel (testDeps.*1) [] w1 w2 o2
                   Hplain Hnd1 (Hc1 dm eq_refl) Hrun2 Ho2). }
  destruct (loadElmJson elmJsonPath) as [[app|json]|e|].
  - set (direct := objectAssign (appDirect app) _).
    set (versions := mapOfEntries _).
    assert (Hplain : versionStringsPlain versions).
    { apply mapOfEntries_Forall, Forall_fmap, Forall_forall.
      intros [dep text] _. simpl. apply Hparse. }
    destruct (loadDependencyMap fuel versions direct ws) as [w1 o1] eqn:Hrun1.
    destruct o1 as [deps|e|].
    + destruct (Htwice versions direct (appTestDirect app) w1 (Returned deps))
        as [Hnd1 Hsecond]; try done.
      destruct (loadDependencyMap fuel versions (appTestDirect app) w1)
        as [w2 o2] eqn:Hrun2.
      destruct o2 as [testDeps|e|]; simpl; intros [= <- <-] Hout; try done.
      * by eapply (Hsecond deps w2 (Returned testDeps)).
      * by eapply (Hsecond deps w2 (Thrown e)).
    + intros [= <- <-] _.
      by destruct (Htwice versions direct [] w1 (Thrown e)).
    + by intros [= <- <-].
  - destruct (parseConstraints _) as [parsed|e|];
      [|by intros [= <- <-]..].
    destruct (solveDependencies (mapOfEntries parsed)) as [versions| | |] eqn:Hs;
      [|by intros [= <- <-]..].
    pose proof (Hsolve _ _ Hs) as Hplain.
    set (dependencies' := objectAssign (pkgDependencies json) _).
    destruct (loadDependencyMap fuel versions dependencies' ws) as [w1 o1]
      eqn:Hrun1.
    destruct o1 as [deps|e|].
    + destruct (Htwice versions dependencies' (pkgTestDependencies json) w1
                  (Returned deps)) as [Hnd1 Hsecond]; try done.
      destruct (loadDependencyMap fuel versions (pkgTestDependencies json) w1)
        as [w2 o2] eqn:Hrun2.
      destruct o2 as [testDeps|e|]; simpl; intros [= <- <-] Hout; try done.
      * by eapply (Hsecond deps w2 (Returned testDeps)).
      * by eapply (Hsecond deps w2 (Thrown e)).
    + intros [= <- <-] _.
      by destruct (Htwice versions dependencies' [] w1 (Thrown e)).
    + by intros [= <- <-].
  - by intros [= <- <-].
  - by intros [= <- <-].
Qed.

(** What [loadRootProject] does with the answer of the solver: when the
    manifest is a package manifest whose constraints parse
    and the solver reports that they cannot be solved, [loadRootProject]
    shows the message about the constraints, throws the error of unsolvable
    constraints, which is not the error of a file that is not found, returns
    no project, and loads and caches nothing. *)
Theorem loadRootProject_unsolvable (fuel : nat) (elmJsonPath : string)
    (ws : Workspace) (json : IElmPackageJson)
    (parsed : list (string * Versions.IConstraint)) :
  loadElmJson elmJsonPath = Returned (PackageJson json) →
  parseConstraints
    (objectAssign (pkgDependencies json) [pkgTestDependencies json])
  = Returned parsed →
  solveDependencies (mapOfEntries parsed) = Solver.Unsatisfiable →
  ∃ ws',
    loadRootProject fuel elmJsonPath ws
    = (ws', Thrown UnsolvablePackageConstraints)
    ∧ shownErrors ws' = shownErrors ws ++ [unsolvableMessage]
    ∧ resolvedPackageCache ws' = resolvedPackageCache ws
    ∧ objects ws' = objects ws
    ∧ loads ws' = loads ws
    ∧ (∀ p, (loadRootProject fuel elmJsonPath ws).2 ≠ Returned p)
    ∧ (∀ path, (loadRootProject fuel elmJsonPath ws).2
               ≠ Thrown (FileNotFound path)).
Proof.
  intros Hjson Hparsed Hsolve. exists (showErrorMessage unsolvableMessage ws).
  unfold loadRootProject. rewrite Hjson, Hparsed, Hsolve. simpl.
  split_and!; done.
Qed.

(** *** The project graph that a load builds *)

(** Every project object referred to is in the store, and the dependencies
    of an object were created before it. *)
Definition storeClosed (ws : Workspace) : Prop :=
  (∀ key p, resolvedPackageCache ws !! key = Some p → p < nextObject ws)
  ∧ (∀ q P, objects ws !! q = Some P →
       q < nextObject ws
       ∧ Forall (λ dep, dep < q)
                ((dependencies P).*2 ++ (testDependencies P).*2))
  ∧ (∀ q, q < nextObject ws → is_Some (objects ws !! q)).

Lemma storeClosed_allocate P ws project ws' :
  storeClosed ws →
  Forall (λ dep, dep < nextObject ws)
         ((dependencies P).*2 ++ (testDependencies P).*2) →
  allocate P ws = (project, ws') →
  storeClosed ws' ∧ project = nextObject ws
  ∧ nextObject ws' = S (nextObject ws) ∧ objects ws' !! project = Some P
  ∧ resolvedPackageCache ws' = resolvedPackageCache ws.
Proof.
  intros (Hcache & Hobjects & Hall) Hdeps. unfold allocate.
  intros [= <- <-]. simpl. split_and!; try done.
  - split_and!; simpl.
    + intros key p Hp. specialize (Hcache key p Hp). lia.
    + intros q Q Hq. apply lookup_insert_Some in Hq as [[<- <-]|[Hne Hq]].
      * split; [lia|done].
      * destruct (Hobjects q Q Hq). split; [lia|done].
    + intros q Hlt. destruct (decide (nextObject ws = q)) as [<-|Hne].
      * rewrite lookup_insert_eq. by eexists.
      * rewrite lookup_insert_ne by done. apply Hall. lia.
  - by rewrite lookup_insert_eq.
Qed.

Lemma storeClosed_cacheSet key p ws :
  storeClosed ws → p < nextObject ws → storeClosed (cacheSet key p ws).
Proof.
  intros (Hcache & Hobjects & Hall) Hp. split_and!; simpl; [|done|done].
  intros k q Hq. apply lookup_insert_Some in Hq as [[_ <-]|[_ Hq]]; [done|].
  by eapply Hcache.
Qed.

Lemma loadEach_closed (f : string → Workspace → Workspace * Outcome nat)
    deps :
  (∀ d ws ws' out, storeClosed ws → f d ws = (ws', out) →
     storeClosed ws' ∧ nextObject ws ≤ nextObject ws'
     ∧ ∀ p, out = Returned p → p < nextObject ws') →
  ∀ dependencyMap ws ws' out,
    storeClosed ws → Forall (λ q, q < nextObject ws) dependencyMap.*2 →
    loadEach f deps dependencyMap ws = (ws', out) →
    storeClosed ws' ∧ nextObject ws ≤ nextObject ws'
    ∧ ∀ dm, out = Returned dm → Forall (λ q, q < nextObject ws') dm.*2.
Proof.
  intros Hf. induction deps as [|d deps IH];
    intros dm0 ws ws' out Hclosed Hdm Hrun; simpl in Hrun.
  - injection Hrun as <- <-. split_and!; [done|lia|]. by intros dm [= <-].
  - destruct (f d ws) as [wsd [p|e|]] eqn:Hd.
    + destruct (Hf _ _ _ _ Hclosed Hd) as (Hc & Hle & Hp).
      destruct (IH (objectSet d p dm0) wsd ws' out) as (Hc' & Hle' & Hdm');
        [done| |done|].
      * apply objectSet_values; [by apply Hp|].
        eapply Forall_impl; [exact Hdm|]. simpl. intros; lia.
      * split_and!; [done|lia|done].
    + injection Hrun as <- <-.
      destruct (Hf _ _ _ _ Hclosed Hd) as (Hc & Hle & _).
      split_and!; try done.
    + injection Hrun as <- <-.
      destruct (Hf _ _ _ _ Hclosed Hd) as (Hc & Hle & _).
      split_and!; try done.
Qed.

Lemma loadPackage_closed packageVersions fuel : ∀ name ws ws' out,
  storeClosed ws → loadPackage fuel packageVersions name ws = (ws', out) →
  storeClosed ws' ∧ nextObject ws ≤ nextObject ws'
  ∧ ∀ p, out = Returned p → p < nextObject ws'.
Proof.
  induction fuel as [|fuel IH]; intros name ws ws' out Hclosed Hrun;
    cbn [loadPackage] in Hrun.
  { injection Hrun as <- <-. split_and!; [done|lia|done]. }
  destruct (packageVersions !! name) as [version|].
  2:{ injection Hrun as <- <-. split_and!; [done|lia|done]. }
  destruct (resolvedPackageCache ws !! cacheKey name version) as [cached|]
    eqn:Hcache.
  { injection Hrun as <- <-. split_and!; [done|lia|]. intros p [= <-].
    destruct Hclosed as (Hc & _). by eapply Hc. }
  assert (Hclosed1 : storeClosed (recordLoad (cacheKey name version) ws))
    by done.
  destruct (loadElmJson _) as [[app|json]|e|].
  - injection Hrun as <- <-. split_and!; [done|simpl; lia|done].
  - destruct (loadEach _ _ _ _) as [ws2 [dm|e|]] eqn:Heach.
    + destruct (λ H, loadEach_closed _ _ IH [] _ _ _ Hclosed1 H Heach)
        as (Hc2 & Hle & Hdm); [by constructor|].
      specialize (Hdm dm eq_refl).
      destruct (allocate _ ws2) as [resolvedPackage ws3] eqn:Halloc.
      injection Hrun as <- <-.
      apply storeClosed_allocate in Halloc
        as (Hc3 & -> & Hnext & _ & _); [|done|].
      2:{ simpl. by rewrite app_nil_r. }
      simpl in Hle. split_and!.
      * apply storeClosed_cacheSet; [done|lia].
      * simpl. lia.
      * intros p [= <-]. simpl. lia.
    + injection Hrun as <- <-.
      destruct (λ H, loadEach_closed _ _ IH [] _ _ _ Hclosed1 H Heach)
        as (Hc2 & Hle & _); [by constructor|].
      split_and!; try done.
    + injection Hrun as <- <-.
      destruct (λ H, loadEach_closed _ _ IH [] _ _ _ Hclosed1 H Heach)
        as (Hc2 & Hle & _); [by constructor|].
      split_and!; try done.
  - injection Hrun as <- <-. split_and!; [done|simpl; lia|done].
  - injection Hrun as <- <-. split_and!; [done|simpl; lia|done].
Qed.

Lemma loadDependencyMap_closed fuel packageVersions deps ws ws' dm :
  storeClosed ws →
  loadDependencyMap fuel packageVersions deps ws = (ws', Returned dm) →
  storeClosed ws' ∧ Forall (λ q, q < nextObject ws') dm.*2
  ∧ nextObject ws ≤ nextObject ws'.
Proof.
  unfold loadDependencyMap. intros Hclosed Hrun.
  destruct (λ H, loadEach_closed _ _ (loadPackage_closed packageVersions fuel)
                     [] _ _ _ Hclosed H Hrun) as (Hc & Hle & Hdm);
    [by constructor|].
  split_and!; [done|by apply Hdm|done].
Qed.

Lemma loadRootProject_closed fuel elmJsonPath ws ws' root :
  storeClosed ws →
  loadRootProject fuel elmJsonPath ws = (ws', Returned root) →
  storeClosed ws' ∧ is_Some (objects ws' !! root).
Proof.
  unfold loadRootProject. intros Hclosed Hrun.
  destruct (loadElmJson elmJsonPath) as [[app|json]|e|]; try done;
    cbv zeta in Hrun.
  - destruct (loadDependencyMap fuel _ _ ws) as [ws1 [deps|e|]] eqn:E1;
      try done.
    destruct (loadDependencyMap fuel _ _ ws1) as [ws2 [testDeps|e|]] eqn:E2;
      try done.
    destruct (loadDependencyMap_closed _ _ _ _ _ _ Hclosed E1)
      as (Hc1 & Hdeps & Hle1).
    destruct (loadDependencyMap_closed _ _ _ _ _ _ Hc1 E2)
      as (Hc2 & Htest & Hle2).
    destruct (allocate _ ws2) as [project ws3] eqn:Halloc.
    injection Hrun as <- <-.
    apply storeClosed_allocate in Halloc as (Hc3 & _ & _ & Hobj & _);
      [by rewrite Hobj|done|].
    simpl. apply Forall_app. split; [|done].
    eapply Forall_impl; [exact Hdeps|]. simpl. intros; lia.
  - destruct (parseConstraints _) as [parsed|e|]; try done.
    destruct (solveDependencies _) as [versions| | |]; try done.
    destruct (loadDependencyMap fuel _ _ ws) as [ws1 [deps|e|]] eqn:E1;
      try done.
    destruct (loadDependencyMap fuel _ _ ws1) as [ws2 [testDeps|e|]] eqn:E2;
      try done.
    destruct (loadDependencyMap_closed _ _ _ _ _ _ Hclosed E1)
      as (Hc1 & Hdeps & Hle1).
    destruct (loadDependencyMap_closed _ _ _ _ _ _ Hc1 E2)
      as (Hc2 & Htest & Hle2).
    destruct (allocate _ ws2) as [project ws3] eqn:Halloc.
    injection Hrun as <- <-.
    apply storeClosed_allocate in Halloc as (Hc3 & _ & _ & Hobj & _);
      [by rewrite Hobj|done|].
    simpl. apply Forall_app. split; [|done].
    eapply Forall_impl; [exact Hdeps|]. simpl. intros; lia.
Qed.

(** X15: the project graph that [loadRootProject] leaves in the store is
    closed and has no cycle: every dependency of a project is a project of
    the store that was created before it. Exposure propagation from the
    root therefore ends on it, within a recursion depth of the root's
    identity, also after discovery has filled the module tables. *)
Theorem loadRootProject_graph_is_ranked (fuel : nat) (elmJsonPath : string)
    (ws ws' : Workspace) (root : nat) :
  storeClosed ws →
  loadRootProject fuel elmJsonPath ws = (ws', Returned root) →
  Exposure.wellRanked (λ q, q) (objects ws')
  ∧ is_Some (objects ws' !! root)
  ∧ ∀ heap, Exposure.sameShape (objects ws') heap →
      ∃ heap', Exposure.findExposedModulesOfDependencies (S root) root root
                 heap = Some heap'.
Proof.
  intros Hclosed Hrun.
  destruct (loadRootProject_closed _ _ _ _ _ Hclosed Hrun) as [Hc Hroot].
  assert (Hwell : Exposure.wellRanked (λ q, q) (objects ws')).
  { intros q P Hq. simpl. destruct Hc as (_ & Hobjects & Hall).
    destruct (Hobjects q P Hq) as [Hlt Hdeps].
    eapply Forall_impl; [exact Hdeps|]. simpl. intros dep Hdep.
    split; [done|]. apply Hall. lia. }
  split_and!; [done|done|]. intros heap Hsame.
  destruct (Exposure.findExposedModulesOfDependencies_returns (λ q, q) root
              (S root) root heap) as (heap' & Hrun' & _).
  - eapply Exposure.sameShape_ranked; [exact Hsame|].
    by apply Exposure.wellRanked_ranked.
  - by eapply Exposure.sameShape_is_Some.
  - lia.
  - by exists heap'.
Qed.

(** *** The names of the dependencies of an application *)

Lemma assign_keys {A} (source : list (string * A)) : ∀ t,
  (∃ extra, (foldl (λ t' '(key, value), objectSet key value t') t source).*1
            = t.*1 ++ extra)
  ∧ (NoDup t.*1 →
     NoDup (foldl (λ t' '(key, value), objectSet key value t') t source).*1)
  ∧ ∀ name,
      name ∈ (foldl (λ t' '(key, value), objectSet key value t') t source).*1
      ↔ name ∈ t.*1 ∨ name ∈ source.*1.
Proof.
  induction source as [|[k v] rest IH]; intros t; csimpl.
  - split_and!; [exists []; by rewrite app_nil_r|done|].
    intros name. split; [by left|]. intros [?|Hin]; [done|].
    by apply elem_of_nil in Hin.
  - destruct (IH (objectSet k v t)) as ([extra He] & Hnd & Hmem).
    pose proof (objectSet_keys k v t) as Hk.
    split_and!.
    + rewrite He, Hk. destruct (decide (k ∈ t.*1)); [by exists extra|].
      exists ([k] ++ extra). by rewrite app_assoc.
    + intros Ht. apply Hnd. rewrite Hk. destruct (decide (k ∈ t.*1)); [done|].
      apply NoDup_app. split_and!; [done| |apply NoDup_singleton].
      intros x Hx Hx'. apply list_elem_of_singleton in Hx'. by subst.
    + intros name. rewrite Hmem, Hk, elem_of_cons.
      destruct (decide (k ∈ t.*1)) as [Hin|Hout].
      * split; [intros [?|?]; auto|]. intros [?|[->|?]]; auto.
      * rewrite elem_of_app, list_elem_of_singleton.
        split; [intros [[?|?]|?]; auto|]. intros [?|[?|?]]; auto.
Qed.



Lemma objectValues_elem {A} (o : list (string * A)) (value : A) :
  value ∈ objectValues o ↔ ∃ key, (key, value) ∈ o.
Proof.
  unfold objectValues. rewrite elem_of_app. split.
  - intros [Hin|Hin].
    + apply list_elem_of_fmap_1 in Hin as ([i x] & -> & Hin).
      rewrite merge_sort_Permutation in Hin.
      apply list_elem_of_omap in Hin as ([key y] & Hin & Hi).
      destruct (arrayIndex key) as [j|]; [|done]. simpl in Hi.
      injection Hi as <- <-. by exists key.
    + apply list_elem_of_fmap_1 in Hin as ([key x] & -> & Hin).
      apply list_elem_of_filter in Hin as [_ Hin]. by exists key.
  - intros [key Hin]. destruct (arrayIndex key) as [i|] eqn:Hi.
    + left. apply (list_elem_of_fmap_2' snd _ (i, value)); [|done].
      rewrite merge_sort_Permutation. apply list_elem_of_omap.
      exists (key, value). split; [done|]. by rewrite Hi.
    + right. apply (list_elem_of_fmap_2' snd _ (key, value)); [|done].
      by apply list_elem_of_filter.
Qed.

Lemma objectValues_named {A} (o : list (string * A)) :
  Forall (λ entry, arrayIndex entry.1 = None) o → objectValues o = o.*2.
Proof.
  unfold objectValues. intros Hall.
  assert (Hnone : omap (λ '(key, value), (λ i, (i, value)) <$> arrayIndex key) o
                  = []).
  { induction Hall as [|[key value] rest Hkey _ IH]; [done|].
    simpl in *. by rewrite Hkey. }
  assert (Hall' : filter (λ entry : string * A, arrayIndex entry.1 = None) o
                  = o).
  { clear Hnone. induction Hall as [|entry rest Hkey _ IH]; [done|].
    rewrite filter_cons_True by done. by rewrite IH. }
  by rewrite Hnone, Hall'.
Qed.

(** X17: [flatternExposedModules] of the grouped form of
    [exposed-modules] is the modules of the groups one after the other, in
    the order of [Object.values]: the groups whose name is an array index
    first, by ascending index, then the other groups in the order written,
    which is the order of all groups when no name is an array index. A
    module is in the result exactly when it is in one of the groups. *)
Theorem flatternExposedModules_groups (groups : list (string * list string)) :
  flatternExposedModules (ExposedGroups groups) = concat (objectValues groups)
  ∧ (Forall (λ group, arrayIndex group.1 = None) groups →
     flatternExposedModules (ExposedGroups groups) = concat groups.*2)
  ∧ ∀ module, module ∈ flatternExposedModules (ExposedGroups groups)
              ↔ ∃ group modules, (group, modules) ∈ groups
                                 ∧ module ∈ modules.
Proof.
  assert (Hflat : flatternExposedModules (ExposedGroups groups)
                  = concat (objectValues groups)).
  { unfold flatternExposedModules.
    assert (Hacc : ∀ (lists : list (list string)) acc,
              foldl (λ a b, a ++ b) acc lists = acc ++ concat lists).
    { induction lists as [|l lists IH]; intros acc; simpl.
      - by rewrite app_nil_r.
      - by rewrite IH, app_assoc. }
    by rewrite Hacc. }
  split_and!; [done| |].
  - intros Hnamed. by rewrite Hflat, objectValues_named.
  - intros module. rewrite Hflat.
    rewrite list_elem_of_In, in_concat. split.
    + intros (modules & Hin & Hmod). apply list_elem_of_In in Hin, Hmod.
      apply objectValues_elem in Hin as [group Hin].
      by exists group, modules.
    + intros (group & modules & Hin & Hmod). exists modules.
      split; apply list_elem_of_In; [|done].
      apply objectValues_elem. by exists group.
Qed.

(** Groups named [b], [10] and [2]: the two array indices come first, the
    smaller one before the larger. *)
Example flatternExposedModules_index_names :
  flatternExposedModules
    (ExposedGroups [("b", ["B"]); ("10", ["Ten"]); ("2", ["Two"])])
  = ["Two"; "Ten"; "B"].
Proof. vm_compute. reflexivity. Qed.

End Load.

(** *** A package store, an application and a package *)

(** The helpers of [./util/elmUtils] for the manifests below: a version is
    three numbers separated by dots, a constraint is
    [lower op v op upper]. *)
Fixpoint digits (s : string) (acc : N) : option N :=
  match s with
  | EmptyString => Some acc
  | String c rest =>
      d ← stdpp.strings.Ascii.is_nat c; digits rest (acc * 10 + N.of_nat d)
  end.

Definition parseNumber (s : string) : option N :=
  match s with
  | EmptyString => None
  | _ => digits s 0
  end.

Definition parseVersionText (s : string) : option Versions.IVersion :=
  match Discovery.split "."%char s with
  | [a; b; c] =>
      x ← parseNumber a; y ← parseNumber b; z ← parseNumber c;
      Some {| Versions.major := x; Versions.minor := y; Versions.patch := z;
              Versions.versionString := s |}
  | _ => None
  end.

Definition demoParseVersion (s : string) : Versions.IVersion :=
  default {| Versions.major := 0; Versions.minor := 0; Versions.patch := 0;
             Versions.versionString := s |}
          (parseVersionText s).

Definition parseOperator (s : string) : option Versions.Operator :=
  if decide (s = "<") then Some Versions.LessThan
  else if decide (s = "<=") then Some Versions.LessOrEqual
  else None.

Definition demoParseConstraint (s : string) : option Versions.IConstraint :=
  match Discovery.split " "%char s with
  | [lo; loOp; _; upOp; up] =>
      l ← parseVersionText lo; lop ← parseOperator loOp;
      uop ← parseOperator upOp; u ← parseVersionText up;
      Some {| Versions.upper := u; Versions.lower := l;
              Versions.upperOperator := uop; Versions.lowerOperator := lop |}
  | _ => None
  end.

Definition demoPackageJson (name version : string)
    (exposed : ExposedModulesJson) (deps : list string) : ElmJson :=
  PackageJson
    {| pkgName := name; pkgSummary := ""; pkgLicense := "BSD-3-Clause";
       pkgVersion := version; pkgExposedModules := exposed;
       pkgElmVersion := "0.19.0 <= v < 0.20.0";
       pkgDependencies := (λ d, (d, "1.0.0 <= v < 2.0.0")) <$> deps;
       pkgTestDependencies := [] |}.

(** The application pins six packages; [elm/html] and [elm/virtual-dom]
    both depend on [elm/json], and all depend on [elm/core]. *)
Definition demoApplication : ElmJson :=
  ApplicationJson
    {| appSourceDirectories := ["src"]; appElmVersion := "0.19.1";
       appDirect := [("elm/core", "1.0.5"); ("elm/html", "1.0.0")];
       appIndirect := [("elm/json", "1.1.3"); ("elm/virtual-dom", "1.0.2")];
       appTestDirect := [("elm-explorations/test", "1.2.2")];
       appTestIndirect := [("elm/random", "1.0.0")] |}.

(** The package of the unsatisfiable scenario of the specification. *)
Definition demoLibrary : ElmJson :=
  PackageJson
    {| pkgName := "author/project"; pkgSummary := ""; pkgLicense := "MIT";
       pkgVersion := "1.0.0"; pkgExposedModules := ExposedList ["Project"];
       pkgElmVersion := "0.19.0 <= v < 0.20.0";
       pkgDependencies := [("A", "1.0.0 <= v < 2.0.0")];
       pkgTestDependencies := [("B", "1.0.0 <= v < 2.0.0")] |}.

Definition demoFiles : gmap string ElmJson :=
  list_to_map
    [ ("/app/elm.json", demoApplication);
      ("/lib/elm.json", demoLibrary);
      ("/elm/packages/elm/core/1.0.5/elm.json",
       demoPackageJson "elm/core" "1.0.5" (ExposedList ["Basics"; "List"]) []);
      ("/elm/packages/elm/json/1.1.3/elm.json",
       demoPackageJson "elm/json" "1.1.3"
         (ExposedGroups [("Json", ["Json.Decode"; "Json.Encode"])])
         ["elm/core"]);
      ("/elm/packages/elm/virtual-dom/1.0.2/elm.json",
       demoPackageJson "elm/virtual-dom" "1.0.2" (ExposedList ["VirtualDom"])
         ["elm/core"; "elm/json"]);
      ("/elm/packages/elm/html/1.0.0/elm.json",
       demoPackageJson "elm/html" "1.0.0" (ExposedList ["Html"])
         ["elm/core"; "elm/json"; "elm/virtual-dom"]);
      ("/elm/packages/elm/random/1.0.0/elm.json",
       demoPackageJson "elm/random" "1.0.0" (ExposedList ["Random"])
         ["elm/core"]);
      ("/elm/packages/elm-explorations/test/1.2.2/elm.json",
       demoPackageJson "elm-explorations/test" "1.2.2" (ExposedList ["Test"])
         ["elm/core"; "elm/random"; "elm/html"]) ].

(** The host reads the files above; the text of a file stands for itself. *)
Definition demoReadFile (path : string) : option string :=
  if decide (is_Some (demoFiles !! path)) then Some path else None.

Definition demoJsonParse (text : string) : option ElmJson := demoFiles !! text.

Definition demoJoin (a b : string) : string := a +:+ "/" +:+ b.

Definition demoLoadPackage (fuel : nat) :=
  loadPackage demoReadFile demoJsonParse demoJoin (λ p, "file://" +:+ p)
    "/elm/packages/" fuel.

Definition demoLoadRootProject
    (solve : gmap string Versions.IConstraint → Solver.SolveResult)
    (fuel : nat) (root : string) :=
  loadRootProject demoReadFile demoJsonParse demoParseVersion
    demoParseConstraint solve demoJoin demoJoin (λ p, "file://" +:+ p)
    "/elm/packages/" root ("file://" +:+ root) fuel
    (demoJoin root "elm.json").

Definition newWorkspace : Workspace :=
  {| resolvedPackageCache := ∅; objects := ∅; nextObject := 0;
     shownErrors := []; loads := [] |}.

Definition demoVersions : gmap string Versions.IVersion :=
  mapOfEntries
    [ ("elm/core", demoParseVersion "1.0.5");
      ("elm/html", demoParseVersion "1.0.0");
      ("elm/json", demoParseVersion "1.1.3");
      ("elm/virtual-dom", demoParseVersion "1.0.2") ].

(** [elm/html] needs [elm/core] and [elm/json] itself and again through
    [elm/virtual-dom]: each is loaded once. *)
Example loadPackage_diamond :
  let '(ws', out) := demoLoadPackage 4 demoVersions "elm/html" newWorkspace in
  out = Returned 3
  ∧ loads ws' = [ "elm/virtual-dom@1.0.2"; "elm/json@1.1.3"; "elm/core@1.0.5";
                  "elm/html@1.0.0" ].
Proof. vm_compute. done. Qed.

Definition demoRank (name : string) : nat :=
  if decide (name = "elm/core") then 0
  else if decide (name = "elm/json") then 1
  else if decide (name = "elm/virtual-dom") then 2
  else 3.


Lemma loadRootProject_unsolvable_witness :
  (demoLoadRootProject (Solver.solveDependencies Solver.disjointStore 6) 3
     "/lib" newWorkspace).2
  = Thrown UnsolvablePackageConstraints.
Proof.
  destruct (loadRootProject_unsolvable demoReadFile demoJsonParse
              demoParseVersion demoParseConstraint
              (Solver.solveDependencies Solver.disjointStore 6)
              demoJoin demoJoin (λ p, "file://" +:+ p) "/elm/packages/"
              "/lib" "file:///lib" 3 "/lib/elm.json" newWorkspace
              {| pkgName := "author/project"; pkgSummary := "";
                 pkgLicense := "MIT"; pkgVersion := "1.0.0";
                 pkgExposedModules := ExposedList ["Project"];
                 pkgElmVersion := "0.19.0 <= v < 0.20.0";
                 pkgDependencies := [("A", "1.0.0 <= v < 2.0.0")];
                 pkgTestDependencies := [("B", "1.0.0 <= v < 2.0.0")] |}
              [ ("A", Solver.range (Solver.v 1 0 0 "1.0.0")
                        (Solver.v 2 0 0 "2.0.0"));
                ("B", Solver.range (Solver.v 1 0 0 "1.0.0")
                        (Solver.v 2 0 0 "2.0.0")) ])
    as (ws' & Hrun & _).
  - vm_compute. reflexivity.
  - vm_compute. reflexivity.
  - vm_compute. reflexivity.
  - exact (f_equal snd Hrun).
Defined.

(** With the solver of the specification on a store for which the
    constraints of the manifest have no solution, [loadRootProject] returns
    no project, whatever fuel the solver and the loader are given. *)
Lemma loadRootProject_unsatisfiable_never_returns
    (readFile : string → option string) (jsonParse : string → option ElmJson)
    (parseVersion : string → Versions.IVersion)
    (parseConstraint : string → option Versions.IConstraint)
    (store : gmap string (list Versions.IPackage))
    (pathJoin pathResolve : string → string → string)
    (uriFile : string → string) (packagesRoot rootFsPath rootUri : string)
    (solverFuel fuel : nat) (elmJsonPath : string) (ws : Workspace)
    (json : IElmPackageJson) (parsed : list (string * Versions.IConstraint)) :
  loadElmJson readFile jsonParse elmJsonPath = Returned (PackageJson json) →
  parseConstraints parseConstraint
    (objectAssign (pkgDependencies json) [pkgTestDependencies json])
  = Returned parsed →
  (∀ versions, ¬ Solver.consistent store (mapOfEntries parsed) versions) →
  ∀ p, (loadRootProject readFile jsonParse parseVersion parseConstraint
          (Solver.solveDependencies store solverFuel) pathJoin pathResolve
          uriFile packagesRoot rootFsPath rootUri fuel elmJsonPath ws).2
       ≠ Returned p.
Proof.
  intros Hjson Hparsed Hnone p. unfold loadRootProject.
  rewrite Hjson, Hparsed.
  pose proof (Solver.solveDependencies_unsatisfiable store solverFuel
                (mapOfEntries parsed) Hnone) as Hsolve.
  destruct (Solver.solveDependencies store solverFuel (mapOfEntries parsed))
    as [versions| | |]; try done.
  by destruct (Hsolve versions).
Qed.

(** *** A package in both dependency maps

    The package [author/both] needs [author/a] below 2.0.0 and its tests
    need it from 2.0.0 on; the store has [author/a] at 1.0.0 and 2.0.0. *)

Definition overwriteManifest : IElmPackageJson :=
  {| pkgName := "author/both"; pkgSummary := ""; pkgLicense := "MIT";
     pkgVersion := "1.0.0"; pkgExposedModules := ExposedList ["Both"];
     pkgElmVersion := "0.19.0 <= v < 0.20.0";
     pkgDependencies := [("author/a", "1.0.0 <= v < 2.0.0")];
     pkgTestDependencies := [("author/a", "2.0.0 <= v < 3.0.0")] |}.

Definition overwriteFiles : gmap string ElmJson :=
  list_to_map
    [ ("/both/elm.json", PackageJson overwriteManifest);
      ("/elm/packages/author/a/1.0.0/elm.json",
       demoPackageJson "author/a" "1.0.0" (ExposedList ["A"]) []);
      ("/elm/packages/author/a/2.0.0/elm.json",
       demoPackageJson "author/a" "2.0.0" (ExposedList ["A"]) []) ].

Definition overwriteStore : gmap string (list Versions.IPackage) :=
  {[ "author/a" := [ Solver.package (Solver.v 1 0 0 "1.0.0") [];
                     Solver.package (Solver.v 2 0 0 "2.0.0") [] ] ]}.

Definition overwriteLoad : Workspace * Outcome nat :=
  loadRootProject
    (λ path, if decide (is_Some (overwriteFiles !! path)) then Some path
             else None)
    (λ text, overwriteFiles !! text) demoParseVersion demoParseConstraint
    (Solver.solveDependencies overwriteStore 6) demoJoin demoJoin
    (λ p, "file://" +:+ p) "/elm/packages/" "/both" "file:///both" 3
    "/both/elm.json" newWorkspace.

(** Both constraints of the manifest hold of [version]. *)
Definition satisfiesBoth (version : Versions.IVersion) : bool :=
  Versions.versionSatisfiesConstraint version
    (Solver.range (Solver.v 1 0 0 "1.0.0") (Solver.v 2 0 0 "2.0.0"))
  && Versions.versionSatisfiesConstraint version
       (Solver.range (Solver.v 2 0 0 "2.0.0") (Solver.v 3 0 0 "3.0.0")).

(** C4 fails on the code: no version of [author/a] in the store satisfies
    the constraint of the dependencies together with that of the test
    dependencies, and [loadRootProject] shows no message and returns a
    project whose dependency [author/a] is the package at 2.0.0, which the
    constraint of the dependencies excludes. [Object.assign] has replaced
    that constraint by the one of the test dependencies before the solver
    is asked. *)
Theorem loadRootProject_overwrites_constraint :
  Forall (λ package, satisfiesBoth (Versions.version package) = false)
         (default [] (overwriteStore !! "author/a"))
  ∧ parseConstraints demoParseConstraint
      (objectAssign (pkgDependencies overwriteManifest)
         [pkgTestDependencies overwriteManifest])
    = Returned [("author/a",
                 Solver.range (Solver.v 2 0 0 "2.0.0")
                   (Solver.v 3 0 0 "3.0.0"))]
  ∧ overwriteLoad.2 = Returned 1
  ∧ shownErrors overwriteLoad.1 = []
  ∧ (Projects.dependencies <$> objects overwriteLoad.1 !! 1)
    = Some [("author/a", 0)]
  ∧ (Projects.uri <$> objects overwriteLoad.1 !! 0)
    = Some "file:///elm/packages/author/a/2.0.0"
  ∧ Versions.versionSatisfiesConstraint (Solver.v 2 0 0 "2.0.0")
      (Solver.range (Solver.v 1 0 0 "1.0.0") (Solver.v 2 0 0 "2.0.0"))
    = false.
Proof.
  split_and!; try (vm_compute; reflexivity).
  vm_compute. repeat constructor.
Qed.

(** The names under which a project returned by [loadRootProject] holds
    its dependencies and its test dependencies. *)
Definition dependencyNames (result : Workspace * Outcome nat)
    : option (list string * list string) :=
  match result with
  | (ws, Returned root) =>
      p ← objects ws !! root;
      Some ((Projects.dependencies p).*1, (Projects.testDependencies p).*1)
  | _ => None
  end.

(** C6 fails on the code: the manifest lists [elm/core] and [elm/html]
    under [dependencies.direct], and the project that [loadRootProject]
    returns has an entry for each of the six packages of the manifest in
    its [dependencies], the indirect and the test dependencies included;
    [Object.assign] wrote them into the object of the direct ones. *)
Theorem loadRootProject_application_dependencies :
  dependencyNames
    (demoLoadRootProject (λ _, Solver.Unsatisfiable) 4 "/app" newWorkspace)
  = Some ([ "elm/core"; "elm/html"; "elm/json"; "elm/virtual-dom";
            "elm-explorations/test"; "elm/random" ],
          [ "elm-explorations/test" ]).
Proof. vm_compute. reflexivity. Qed.

(** *** Dependency maps, failures and cycles on the store *)





Lemma loadPackage_ends_on_ranked_manifests_witness :
  (demoLoadPackage 4 demoVersions "elm/html" newWorkspace).2 ≠ OutOfFuel.
Proof.
  apply (loadPackage_ends_on_ranked_manifests demoReadFile demoJsonParse
           demoJoin (λ p, "file://" +:+ p) "/elm/packages/" demoVersions
           demoRank 4 "elm/html" newWorkspace).
  - unfold manifestsRanked, demoVersions, mapOfEntries. simpl foldl.
    repeat apply map_Forall_insert_2; [..|apply map_Forall_empty];
      vm_compute; repeat constructor.
  - vm_compute. lia.
Defined.

(** Two packages that depend on each other. *)
Definition cyclicFiles : gmap string ElmJson :=
  list_to_map
    [ ("/elm/packages/a/x/1.0.0/elm.json",
       demoPackageJson "a/x" "1.0.0" (ExposedList ["X"]) ["a/y"]);
      ("/elm/packages/a/y/1.0.0/elm.json",
       demoPackageJson "a/y" "1.0.0" (ExposedList ["Y"]) ["a/x"]) ].

Definition cyclicReadFile (path : string) : option string :=
  if decide (is_Some (cyclicFiles !! path)) then Some path else None.

Definition cyclicJsonParse (text : string) : option ElmJson :=
  cyclicFiles !! text.

Definition cyclicVersions : gmap string Versions.IVersion :=
  mapOfEntries
    [ ("a/x", demoParseVersion "1.0.0"); ("a/y", demoParseVersion "1.0.0") ].


Lemma loadPackage_never_ends_on_cycle_witness :
  (loadPackage cyclicReadFile cyclicJsonParse demoJoin (λ p, "file://" +:+ p)
     "/elm/packages/" 40 cyclicVersions "a/x" newWorkspace).2 = OutOfFuel.
Proof.
  apply (loadPackage_never_ends_on_cycle cyclicReadFile cyclicJsonParse
           demoJoin (λ p, "file://" +:+ p) "/elm/packages/" cyclicVersions
           (λ n, n = "a/x" ∨ n = "a/y") 40 "a/x" newWorkspace); [|by left].
  intros n [-> | ->].
  - exists "a/y". split; [|by right]. split.
    + eexists. split; [vm_compute; reflexivity|apply lookup_empty].
    + exists [], []. split; [vm_compute; reflexivity|constructor].
  - exists "a/x". split; [|by left]. split.
    + eexists. split; [vm_compute; reflexivity|apply lookup_empty].
    + exists [], []. split; [vm_compute; reflexivity|constructor].
Defined.

Definition demoLoaded : Workspace :=
  (demoLoadRootProject (λ _, Solver.Unsatisfiable) 4 "/app" newWorkspace).1.

Lemma loadRootProject_graph_is_ranked_witness :
  ∃ heap', Exposure.findExposedModulesOfDependencies 7 6 6
             (objects demoLoaded) = Some heap'.
Proof.
  destruct (loadRootProject_graph_is_ranked demoReadFile demoJsonParse
              demoParseVersion demoParseConstraint (λ _, Solver.Unsatisfiable)
              demoJoin demoJoin (λ p, "file://" +:+ p) "/elm/packages/"
              "/app" "file:///app" 4 "/app/elm.json" newWorkspace demoLoaded 6)
    as (_ & _ & Hends).
  - split_and!; simpl.
    + intros key p Hp. by rewrite lookup_empty in Hp.
    + intros q P Hq. by rewrite lookup_empty in Hq.
    + intros q Hq. lia.
  - vm_compute. reflexivity.
  - apply Hends. intros q. by destruct (objects demoLoaded !! q).
Defined.


End Loader.

(** ** The source directories of the project graph *)

Module SourceDirectories.
Import Projects.

(** *** Paths under the directories of the root project *)

(** [getPath(uri)]: the first of the source and test directories of the
    root project that [uri.fsPath] starts with. *)
Definition getPath (rootProject : ElmProject) (fsPath : string)
    : option string :=
  find (λ elmFolder, String.prefix elmFolder fsPath)
       (sourceDirectories rootProject ++ testDirectories rootProject).

(** [hasPath(uri)] is [!!this.getPath(uri)]: the empty string counts as
    no path. *)
Definition hasPath (rootProject : ElmProject) (fsPath : string) : bool :=
  match getPath rootProject fsPath with
  | Some elmFolder => negb (String.eqb elmFolder EmptyString)
  | None => false
  end.

(** *** The directories to search *)

Section Directories.
Variable normalizeUri : string → string.

(** The entries [[normalizeUri(sourceDir), project]] that the map starts
    from: the source directories of the project and, for the root project,
    its test directories. *)
Definition ownDirectories (isRoot : bool) (project : nat) (p : ElmProject)
    : list (string * nat) :=
  (λ sourceDir, (normalizeUri sourceDir, project))
    <$> (sourceDirectories p ++ (if isRoot then testDirectories p else [])).

(** [found.forEach((project, sourceDir) => sourceDirs.set(sourceDir, project))];
    with the empty map for [sourceDirs] this is [new Map(found)]. A
    [Map<string, ElmProject>] is its entries in insertion order. *)
Definition setAll (found sourceDirs : list (string * nat))
    : list (string * nat) :=
  foldl (λ m '(sourceDir, project), Loader.objectSet sourceDir project m)
        sourceDirs found.

(** [deps.forEach((dep) => this.getSourceDirectories(dep).forEach(...))],
    with the recursive call as [recurse]. *)
Fixpoint addDependencies (recurse : nat → option (list (string * nat)))
    (deps : list (string * nat)) (sourceDirs : list (string * nat))
    : option (list (string * nat)) :=
  match deps with
  | [] => Some sourceDirs
  | (_, dep) :: rest =>
      found ← recurse dep;
      addDependencies recurse rest (setAll found sourceDirs)
  end.

(** [getSourceDirectories(project)]; [fuel] bounds the depth of the
    recursion through the dependency maps. *)
Fixpoint getSourceDirectories (fuel : nat) (heap : gmap nat ElmProject)
    (rootProject project : nat) : option (list (string * nat)) :=
  match fuel with
  | 0 => None
  | S fuel' =>
      p ← heap !! project;
      let isRoot := bool_decide (project = rootProject) in
      sourceDirs ← addDependencies (getSourceDirectories fuel' heap rootProject)
                      (dependencies p)
                      (setAll (ownDirectories isRoot project p) []);
      if isRoot
      then addDependencies (getSourceDirectories fuel' heap rootProject)
             (testDependencies p) sourceDirs
      else Some sourceDirs
  end.

(** An entry names a directory of its project: a source directory, or a
    test directory of the root project. *)
Definition ownedBy (heap : gmap nat ElmProject) (rootProject : nat)
    (entry : string * nat) : Prop :=
  ∃ p, heap !! entry.2 = Some p
       ∧ (entry.1 ∈ normalizeUri <$> sourceDirectories p
          ∨ (entry.2 = rootProject
             ∧ entry.1 ∈ normalizeUri <$> testDirectories p)).

Lemma setAll_elem found sourceDirs entry :
  entry ∈ setAll found sourceDirs → entry ∈ sourceDirs ∨ entry ∈ found.
Proof.
  unfold setAll. revert sourceDirs.
  induction found as [|[dir q] rest IH]; intros sourceDirs Hin; simpl in Hin.
  - by left.
  - destruct (IH _ Hin) as [Hset|Hrest].
    + destruct entry as [k v].
      apply Loader.objectSet_elem in Hset as [->|Hold]; [|by left].
      right. apply elem_of_cons. by left.
    + right. apply elem_of_cons. by right.
Qed.

Lemma setAll_keys found sourceDirs :
  (NoDup sourceDirs.*1 → NoDup (setAll found sourceDirs).*1)
  ∧ ∀ dir, dir ∈ (setAll found sourceDirs).*1
           ↔ dir ∈ sourceDirs.*1 ∨ dir ∈ found.*1.
Proof.
  destruct (Loader.assign_keys found sourceDirs) as (_ & Hnd & Hmem).
  by split.
Qed.

Lemma ownDirectories_ownedBy heap rootProject project p :
  heap !! project = Some p →
  Forall (ownedBy heap rootProject)
         (ownDirectories (bool_decide (project = rootProject)) project p).
Proof.
  intros Hp. apply Forall_forall. intros [dir q] Hin.
  unfold ownDirectories in Hin.
  apply list_elem_of_fmap_1 in Hin as (sourceDir & [= -> ->] & Hin).
  exists p. split; [done|]. simpl.
  apply elem_of_app in Hin as [Hin|Hin].
  - left. by apply list_elem_of_fmap_2.
  - right. destruct (bool_decide_reflect (project = rootProject)) as [Heq|Hne].
    + split; [done|]. by apply list_elem_of_fmap_2.
    + by apply elem_of_nil in Hin.
Qed.

Lemma addDependencies_sound heap rootProject recurse :
  (∀ dep found, recurse dep = Some found →
     Forall (ownedBy heap rootProject) found) →
  ∀ deps sourceDirs result,
    Forall (ownedBy heap rootProject) sourceDirs →
    NoDup sourceDirs.*1 →
    addDependencies recurse deps sourceDirs = Some result →
    Forall (ownedBy heap rootProject) result ∧ NoDup result.*1.
Proof.
  intros Hrec deps.
  induction deps as [|[name dep] rest IH]; intros sourceDirs result Hall Hnd Hrun;
    simpl in Hrun.
  - by injection Hrun as <-.
  - destruct (recurse dep) as [found|] eqn:Hfound; simpl in Hrun; [|done].
    apply (IH (setAll found sourceDirs)); [|by apply setAll_keys|done].
    apply Forall_forall. intros entry Hin.
    apply setAll_elem in Hin as [Hin|Hin].
    + rewrite Forall_forall in Hall. by apply Hall.
    + pose proof (Hrec dep found Hfound) as Hf.
      rewrite Forall_forall in Hf. by apply Hf.
Qed.

(** X18: the directories that [getSourceDirectories] returns are unique,
    and each is bound to a project of the graph that has it as a source
    directory, or is a test directory of the root project: the test
    directories of dependencies are never searched. *)
Theorem getSourceDirectories_sound (fuel : nat) (heap : gmap nat ElmProject)
    (rootProject project : nat) (sourceDirs : list (string * nat)) :
  getSourceDirectories fuel heap rootProject project = Some sourceDirs →
  NoDup sourceDirs.*1 ∧ Forall (ownedBy heap rootProject) sourceDirs.
Proof.
  revert project sourceDirs.
  induction fuel as [|fuel IH]; intros project sourceDirs Hrun; simpl in Hrun;
    [done|].
  destruct (heap !! project) as [p|] eqn:Hp; simpl in Hrun; [|done].
  assert (Hrec : ∀ dep found,
            getSourceDirectories fuel heap rootProject dep = Some found →
            Forall (ownedBy heap rootProject) found).
  { intros dep found Hfound. by destruct (IH dep found Hfound). }
  destruct (addDependencies _ (dependencies p) _) as [dirs1|] eqn:E1;
    simpl in Hrun; [|done].
  destruct (λ Hall Hnd, addDependencies_sound heap rootProject _ Hrec _ _ _
                          Hall Hnd E1) as [Hall1 Hnd1].
  - apply Forall_forall. intros entry Hin.
    apply setAll_elem in Hin as [Hin|Hin]; [by apply elem_of_nil in Hin|].
    pose proof (ownDirectories_ownedBy heap rootProject project p Hp) as Hown.
    rewrite Forall_forall in Hown. by apply Hown.
  - apply setAll_keys. apply NoDup_nil_2.
  - destruct (bool_decide (project = rootProject)).
    + destruct (addDependencies_sound heap rootProject _ Hrec _ _ _
                  Hall1 Hnd1 Hrun) as [Hall2 Hnd2].
      by split.
    + injection Hrun as <-. by split.
Qed.

Lemma addDependencies_covers recurse : ∀ deps sourceDirs result,
  addDependencies recurse deps sourceDirs = Some result →
  (∀ dir, dir ∈ sourceDirs.*1 → dir ∈ result.*1)
  ∧ ∀ dep, dep ∈ deps.*2 →
      ∃ found, recurse dep = Some found
               ∧ ∀ dir, dir ∈ found.*1 → dir ∈ result.*1.
Proof.
  induction deps as [|[name dep] rest IH]; intros sourceDirs result Hrun;
    simpl in Hrun.
  - injection Hrun as <-. split; [done|]. intros dep Hin.
    by apply elem_of_nil in Hin.
  - destruct (recurse dep) as [found|] eqn:Hfound; simpl in Hrun; [|done].
    destruct (IH _ _ Hrun) as [Hkept Hdeps].
    pose proof (setAll_keys found sourceDirs) as [_ Hmem].
    split.
    + intros dir Hin. apply Hkept, Hmem. by left.
    + intros dep' Hin. csimpl in Hin. apply elem_of_cons in Hin as [->|Hin].
      * exists found. split; [done|]. intros dir Hdir.
        apply Hkept, Hmem. by right.
      * by apply Hdeps.
Qed.

(** X19: [getSourceDirectories] leaves out no directory of the graph below
    a project: its result holds every source directory of the project, the
    test directories of the root project, and every directory that the
    call for one of the dependencies it reads returns. *)
Theorem getSourceDirectories_covers (fuel : nat) (heap : gmap nat ElmProject)
    (rootProject project : nat) (p : ElmProject)
    (sourceDirs : list (string * nat)) :
  getSourceDirectories (S fuel) heap rootProject project = Some sourceDirs →
  heap !! project = Some p →
  (∀ dir, dir ∈ sourceDirectories p → normalizeUri dir ∈ sourceDirs.*1)
  ∧ (project = rootProject →
     ∀ dir, dir ∈ testDirectories p → normalizeUri dir ∈ sourceDirs.*1)
  ∧ ∀ dep, Exposure.reads rootProject project p dep →
      ∃ found, getSourceDirectories fuel heap rootProject dep = Some found
               ∧ ∀ dir, dir ∈ found.*1 → dir ∈ sourceDirs.*1.
Proof.
  intros Hrun Hp. cbn [getSourceDirectories] in Hrun.
  rewrite Hp in Hrun. simpl in Hrun.
  destruct (addDependencies _ (dependencies p) _) as [dirs1|] eqn:E1;
    simpl in Hrun; [|done].
  destruct (addDependencies_covers _ _ _ _ E1) as [Hkept1 Hdeps1].
  assert (Hstep : (∀ dir, dir ∈ dirs1.*1 → dir ∈ sourceDirs.*1)
                  ∧ ∀ dep, project = rootProject →
                      dep ∈ (testDependencies p).*2 →
                      ∃ found,
                        getSourceDirectories fuel heap rootProject dep
                        = Some found
                        ∧ ∀ dir, dir ∈ found.*1 → dir ∈ sourceDirs.*1).
  { destruct (bool_decide_reflect (project = rootProject)) as [Heq|Hne].
    - destruct (addDependencies_covers _ _ _ _ Hrun) as [Hkept2 Hdeps2].
      split; [done|]. intros dep _ Hin. by apply Hdeps2.
    - injection Hrun as <-. split; [done|]. by intros dep Heq. }
  destruct Hstep as [Hkept2 Htest].
  assert (Hown : ∀ dir,
            dir ∈ sourceDirectories p
                  ++ (if bool_decide (project = rootProject)
                      then testDirectories p else []) →
            normalizeUri dir ∈ sourceDirs.*1).
  { intros dir Hin. apply Hkept2, Hkept1.
    apply (setAll_keys _ []). right. unfold ownDirectories.
    rewrite <- list_fmap_compose.
    by apply (list_elem_of_fmap_2'
                (fst ∘ (λ sourceDir, (normalizeUri sourceDir, project)))
                _ dir). }
  split_and!.
  - intros dir Hin. apply Hown, elem_of_app. by left.
  - intros Heq dir Hin. apply Hown, elem_of_app. right.
    by rewrite bool_decide_eq_true_2.
  - intros dep [Hin|[Heq Hin]].
    + destruct (Hdeps1 dep Hin) as (found & Hfound & Hsub).
      exists found. split; [done|]. intros dir Hdir. by apply Hkept2, Hsub.
    + by apply Htest.
Qed.

(** X20: on a project graph whose dependencies go down in rank, which has
    no cycle, [getSourceDirectories] returns for every project of the
    graph, within a recursion depth of the rank of the project. *)
Theorem getSourceDirectories_returns (rank : nat → nat)
    (heap : gmap nat ElmProject) (rootProject : nat) :
  Exposure.wellRanked rank heap →
  ∀ fuel project,
    is_Some (heap !! project) → rank project < fuel →
    is_Some (getSourceDirectories fuel heap rootProject project).
Proof.
  intros Hwell. apply Exposure.wellRanked_ranked in Hwell.
  induction fuel as [|fuel IH]; intros project [p Hp] Hlt; [lia|].
  simpl. rewrite Hp. simpl.
  assert (Hrec : ∀ dep, (dep ∈ (dependencies p).*2
                         ∨ dep ∈ (testDependencies p).*2) →
            rank dep < fuel
            ∧ is_Some (getSourceDirectories fuel heap rootProject dep)).
  { intros dep Hdep. destruct (Hwell project p dep Hp Hdep) as [Hr Hsome].
    split; [lia|]. apply IH; [done|lia]. }
  assert (Hloop : ∀ deps sourceDirs,
            (∀ dep, dep ∈ deps.*2 →
               dep ∈ (dependencies p).*2 ∨ dep ∈ (testDependencies p).*2) →
            is_Some (addDependencies
                       (getSourceDirectories fuel heap rootProject)
                       deps sourceDirs)).
  { induction deps as [|[name dep] rest IHdeps]; intros sourceDirs Hdeps;
      simpl; [by eexists|].
    destruct (Hrec dep) as [_ [found ->]].
    { apply Hdeps. csimpl. apply elem_of_cons. by left. }
    simpl. apply IHdeps. intros dep' Hin. apply Hdeps. csimpl.
    apply elem_of_cons. by right. }
  destruct (Hloop (dependencies p)
              (setAll (ownDirectories (bool_decide (project = rootProject))
                         project p) [])) as [dirs1 ->]; [by left|].
  simpl. destruct (bool_decide (project = rootProject)); [|by eexists].
  apply Hloop. by right.
Qed.

End Directories.

(** *** Prefixes *)

Lemma prefix_append (a b : string) :
  String.prefix a b = true ↔ ∃ rest, b = a +:+ rest.
Proof.
  revert b. induction a as [|c a IH]; intros b.
  - split; [intros _; by exists b|]. by destruct b.
  - destruct b as [|c' b].
    + split; [done|]. by intros [rest Hrest].
    + change (String.prefix (String c a) (String c' b))
        with (if ascii_dec c c' then String.prefix a b else false).
      destruct (ascii_dec c c') as [<-|Hne].
      * rewrite IH. split; intros [rest Hrest]; exists rest.
        -- by rewrite Hrest.
        -- change (String c a +:+ rest) with (String c (a +:+ rest)) in Hrest.
           by injection Hrest.
      * split; [done|]. intros [rest Hrest].
        change (String c a +:+ rest) with (String c (a +:+ rest)) in Hrest.
        injection Hrest as Hc _. by destruct Hne.
Qed.

(** X21: when no directory of the root project is the empty string,
    [hasPath] holds of exactly the paths that continue the characters of
    one of its source or test directories, so also of a path in a sibling
    directory whose name continues the name of such a directory. *)
Theorem hasPath_iff_continues_directory (rootProject : ElmProject)
    (fsPath : string) :
  Forall (λ elmFolder, elmFolder ≠ EmptyString)
         (sourceDirectories rootProject ++ testDirectories rootProject) →
  hasPath rootProject fsPath = true
  ↔ ∃ elmFolder rest,
      elmFolder ∈ sourceDirectories rootProject ++ testDirectories rootProject
      ∧ fsPath = elmFolder +:+ rest.
Proof.
  unfold hasPath, getPath.
  generalize (sourceDirectories rootProject ++ testDirectories rootProject).
  intros dirs Hnonempty. split.
  - destruct (find _ dirs) as [elmFolder|] eqn:Hfind; [|done]. intros _.
    apply find_some in Hfind as [Hin Hprefix].
    apply prefix_append in Hprefix as [rest ->].
    exists elmFolder, rest. split; [|done]. by apply list_elem_of_In.
  - intros (elmFolder & rest & Hin & ->).
    destruct (find _ dirs) as [found|] eqn:Hfind.
    + apply find_some in Hfind as [Hfound _].
      rewrite Forall_forall in Hnonempty.
      apply list_elem_of_In in Hfound. specialize (Hnonempty found Hfound).
      apply negb_true_iff, String.eqb_neq. done.
    + apply list_elem_of_In in Hin.
      pose proof (find_none _ _ Hfind elmFolder Hin) as Hno. simpl in Hno.
      assert (Hyes : String.prefix elmFolder (elmFolder +:+ rest) = true).
      { apply prefix_append. by exists rest. }
      congruence.
Qed.

Lemma getSourceDirectories_sound_witness :
  NoDup [("/app/src", 0); ("/app/tests", 0);
         ("file:///pkg/elm/json/1.1.3/src", 1);
         ("file:///pkg/elm/core/1.0.5/src", 2)].*1
  ∧ Forall (ownedBy (λ dir, dir) Exposure.demoHeap 0)
           [("/app/src", 0); ("/app/tests", 0);
            ("file:///pkg/elm/json/1.1.3/src", 1);
            ("file:///pkg/elm/core/1.0.5/src", 2)].
Proof.
  apply (getSourceDirectories_sound (λ dir, dir) 3 Exposure.demoHeap 0 0).
  vm_compute. reflexivity.
Defined.

Lemma getSourceDirectories_covers_witness :
  ∃ found,
    getSourceDirectories (λ dir, dir) 2 Exposure.demoHeap 0 1 = Some found
    ∧ ∀ dir, dir ∈ found.*1 →
        dir ∈ [("/app/src", 0); ("/app/tests", 0);
               ("file:///pkg/elm/json/1.1.3/src", 1);
               ("file:///pkg/elm/core/1.0.5/src", 2)].*1.
Proof.
  destruct (getSourceDirectories_covers (λ dir, dir) 2 Exposure.demoHeap 0 0
              Exposure.demoRoot
              [("/app/src", 0); ("/app/tests", 0);
               ("file:///pkg/elm/json/1.1.3/src", 1);
               ("file:///pkg/elm/core/1.0.5/src", 2)])
    as (_ & _ & Hdeps).
  - vm_compute. reflexivity.
  - vm_compute. reflexivity.
  - apply Hdeps. left. simpl. by apply list_elem_of_singleton.
Defined.

Lemma getSourceDirectories_returns_witness :
  is_Some (getSourceDirectories (λ dir, dir) 3 Exposure.demoHeap 0 0).
Proof.
  apply (getSourceDirectories_returns (λ dir, dir) (λ project, 2 - project)
           Exposure.demoHeap 0).
  - eapply bool_decide_unpack. vm_compute. reflexivity.
  - by eexists.
  - simpl. lia.
Defined.

Lemma hasPath_iff_continues_directory_witness :
  hasPath Exposure.demoRoot "/app/src-old/Main.elm" = true
  ↔ ∃ elmFolder rest,
      elmFolder ∈ sourceDirectories Exposure.demoRoot
                  ++ testDirectories Exposure.demoRoot
      ∧ "/app/src-old/Main.elm" = elmFolder +:+ rest.
Proof.
  apply (hasPath_iff_continues_directory Exposure.demoRoot
           "/app/src-old/Main.elm").
  simpl. repeat constructor; discriminate.
Defined.

Example hasPath_of_sibling_directory :
  hasPath Exposure.demoRoot "/app/src-old/Main.elm" = true
  ∧ hasPath Exposure.demoRoot "/app/lib/Main.elm" = false.
Proof. split; reflexivity. Qed.

End SourceDirectories.

(** ** Maps keyed by syntax nodes *)

Module SyntaxNodes.

(** A key of a [SyntaxNodeMap]: an object that has an [id] property or
    has none. Two objects for one node of the tree have the same [id]. *)
Record SyntaxNode := {
  id : option N;
  text : string
}.

Inductive Result (A : Type) :=
| Returned (a : A)
| Thrown (message : string).
Arguments Returned {A} a.
Arguments Thrown {A} message.

Definition missingId : string := "SyntaxNodeMap key must have an `id` property".

Section Map.
Context {V : Type}.

(** [set(key, value)] *)
Definition set (key : SyntaxNode) (value : V) (map : gmap N V)
    : Result (gmap N V) :=
  match id key with
  | None => Thrown missingId
  | Some i => Returned (<[i := value]> map)
  end.

(** [get(key)] *)
Definition get (key : SyntaxNode) (map : gmap N V) : Result (option V) :=
  match id key with
  | None => Thrown missingId
  | Some i => Returned (map !! i)
  end.

(** [has(key)] *)
Definition has (key : SyntaxNode) (map : gmap N V) : Result bool :=
  match id key with
  | None => Thrown missingId
  | Some i => Returned (bool_decide (is_Some (map !! i)))
  end.

(** [mapValues(callback)]:
    [this.map.forEach((val, key) => { this.map.set(key, callback(val)) })].
    The loop goes through the entries of the map and writes into the same
    map; setting a key that is there adds no entry, so each entry is
    visited once, with the value it had. *)
Definition mapValues (callback : V → V) (map : gmap N V) : gmap N V :=
  map_fold (λ key val current, <[key := callback val]> current) map map.

Lemma mapValues_fold (callback : V → V) (base entries : gmap N V) (i : N) :
  map_fold (λ key val current, <[key := callback val]> current) base entries
    !! i
  = match entries !! i with
    | Some val => Some (callback val)
    | None => base !! i
    end.
Proof.
  apply (map_fold_weak_ind (λ result visited,
    result !! i = match visited !! i with
                  | Some val => Some (callback val)
                  | None => base !! i
                  end)).
  - by rewrite lookup_empty.
  - intros key val visited result Hfresh IH.
    destruct (decide (key = i)) as [->|Hne].
    + by rewrite !lookup_insert_eq.
    + by rewrite !lookup_insert_ne.
Qed.

(** X22: a value set for a node is what [get] returns for every key
    object with the [id] of that node, and [has] holds of it; the entries
    of the other nodes are as they were. *)
Theorem set_then_get (key same other : SyntaxNode) (value : V)
    (map : gmap N V) (i : N) :
  id key = Some i → id same = Some i → id other ≠ Some i →
  ∃ map', set key value map = Returned map'
    ∧ get same map' = Returned (Some value)
    ∧ has same map' = Returned true
    ∧ get other map' = get other map
    ∧ has other map' = has other map.
Proof.
  intros Hkey Hsame Hother. unfold set, get, has. rewrite Hkey, Hsame.
  eexists. split; [done|]. rewrite lookup_insert_eq.
  split_and!; [done|done| |].
  - destruct (id other) as [j|]; [|done].
    rewrite lookup_insert_ne; [done|]. congruence.
  - destruct (id other) as [j|]; [|done].
    rewrite lookup_insert_ne; [done|]. congruence.
Qed.

(** X23: [mapValues] replaces the value of every entry by the callback
    of that value and adds or removes no entry, although it writes into
    the map it is going through. *)
Theorem mapValues_applies_callback (callback : V → V) (map : gmap N V) :
  mapValues callback map = callback <$> map
  ∧ ∀ key, get key (mapValues callback map)
           = match get key map with
             | Returned found => Returned (callback <$> found)
             | Thrown message => Thrown message
             end
           ∧ has key (mapValues callback map) = has key map.
Proof.
  assert (Hlookup : ∀ i, mapValues callback map !! i = callback <$> map !! i).
  { intros i. unfold mapValues. rewrite mapValues_fold.
    by destruct (map !! i). }
  split.
  - apply map_eq. intros i. by rewrite Hlookup, lookup_fmap.
  - intros key. unfold get, has. destruct (id key) as [i|]; [|done].
    rewrite Hlookup. split; [done|]. f_equal.
    apply bool_decide_ext. by rewrite fmap_is_Some.
Qed.

(** A key without an [id] is refused by every method. *)
Lemma key_without_id (key : SyntaxNode) (value : V) (map : gmap N V) :
  id key = None →
  set key value map = Thrown missingId
  ∧ get key map = Thrown missingId
  ∧ has key map = Thrown missingId.
Proof. unfold set, get, has. by intros ->. Qed.

End Map.

Lemma set_then_get_witness :
  ∃ map', set {| id := Some 7%N; text := "view" |} "Html msg"
              ({[ 3%N := "Int" ]} : gmap N string) = Returned map'
    ∧ get {| id := Some 7%N; text := "view model" |} map'
      = Returned (Some "Html msg").
Proof.
  destruct (set_then_get {| id := Some 7%N; text := "view" |}
              {| id := Some 7%N; text := "view model" |}
              {| id := Some 3%N; text := "update" |} "Html msg"
              ({[ 3%N := "Int" ]} : gmap N string) 7%N)
    as (map' & Hset & Hget & _); [done|done|done|].
  by exists map'.
Defined.

End SyntaxNodes.

(** ** The cache of package versions *)

Module PackageCache.

(** [IVersion]. A component is an integer, or a number that
    [Number.isInteger] rejects, as the [NaN] that a folder name which is
    no version parses to. *)
Record IVersion := {
  major : option Z;
  minor : option Z;
  patch : option Z;
  versionString : string
}.

Definition isInteger (n : option Z) : bool :=
  match n with Some _ => true | None => false end.

(** The test that [get] makes on the version of a folder name. *)
Definition integerVersion (version : IVersion) : bool :=
  isInteger (major version) && isInteger (minor version)
  && isInteger (patch version).

(** A value of [elmJson.dependencies]: the constraint text of a package
    manifest, or one of the two objects of an application manifest. *)
Inductive DependencyValue :=
| ConstraintText (constraint : string)
| DependencyGroup (group : list (string * string)).

(** [Object.entries(elmJson.dependencies)] *)
Definition dependencyEntries (elmJson : Loader.ElmJson)
    : list (string * DependencyValue) :=
  match elmJson with
  | Loader.ApplicationJson json =>
      [ ("direct", DependencyGroup (Loader.appDirect json));
        ("indirect", DependencyGroup (Loader.appIndirect json)) ]
  | Loader.PackageJson json =>
      (λ '(name, constraint), (name, ConstraintText constraint))
        <$> Loader.pkgDependencies json
  end.

Inductive CacheError :=
| FolderMissing (path : string)
| ManifestUnreadable (path : string)
| ConstraintMalformed (name : string).

Inductive Result (A : Type) :=
| Returned (a : A)
| Thrown (e : CacheError).
Arguments Returned {A} a.
Arguments Thrown {A} e.

Section Get.
Context {Constraint : Type}.
(** What the cache is given and what it calls: the packages root and
    [loadElmJson] of its constructor, which throws ([None]) or returns the
    manifest; [readdirSync] of [fs], which throws ([None]) or returns the
    names in the folder; [parseVersion] and [parseContraint] of
    [./util/elmUtils]; [path.join]. *)
Variable packagesRoot : string.
Variable loadElmJson : string → option Loader.ElmJson.
Variable readdirSync : string → option (list string).
Variable parseVersion : string → IVersion.
Variable parseContraint : DependencyValue → option Constraint.
Variable pathJoin : string → string → string.

(** [IPackage] *)
Record IPackage := {
  dependencies : gmap string Constraint;
  version : IVersion
}.

(** The cache, and the folders listed so far, latest first; the latter is
    no field of the class. *)
Record ElmPackageCache := {
  cache : gmap string (list IPackage);
  listed : list string
}.

(** The [map] over the entries of the dependencies: the first constraint
    that [parseContraint] rejects is thrown. *)
Fixpoint parseDependencies (entries : list (string * DependencyValue))
    : Result (list (string * Constraint)) :=
  match entries with
  | [] => Returned []
  | (name, constraint) :: rest =>
      match parseContraint constraint with
      | None => Thrown (ConstraintMalformed name)
      | Some c =>
          match parseDependencies rest with
          | Returned parsed => Returned ((name, c) :: parsed)
          | Thrown e => Thrown e
          end
      end
  end.

(** [`${this.packagesRoot}${maintainer}/${name}/`] *)
Definition pathToPackage (packageName : string) : string :=
  let slash := Loader.indexOf "/"%char packageName in
  let maintainer := Loader.substring packageName 0 slash in
  let name := Loader.substring packageName (slash + 1)
                (Z.of_nat (String.length packageName)) in
  packagesRoot +:+ maintainer +:+ "/" +:+ name +:+ "/".

(** [path.join(pathToPackage, folderName, "elm.json")] *)
Definition elmJsonPath (packageName folderName : string) : string :=
  pathJoin (pathJoin (pathToPackage packageName) folderName) "elm.json".

(** The loop [for (const folderName of readDir)]. *)
Fixpoint readVersions (packageName : string) (readDir : list string)
    (allVersions : list IPackage) : Result (list IPackage) :=
  match readDir with
  | [] => Returned allVersions
  | folderName :: rest =>
      let version := parseVersion folderName in
      if integerVersion version then
        match loadElmJson (elmJsonPath packageName folderName) with
        | None => Thrown (ManifestUnreadable (elmJsonPath packageName folderName))
        | Some elmJson =>
            match parseDependencies (dependencyEntries elmJson) with
            | Thrown e => Thrown e
            | Returned parsed =>
                readVersions packageName rest
                  (allVersions
                   ++ [{| dependencies := Loader.mapOfEntries parsed;
                          version := version |}])
            end
        end
      else readVersions packageName rest allVersions
  end.

(** [get(packageName)] *)
Definition get (packageName : string) (st : ElmPackageCache)
    : ElmPackageCache * Result (list IPackage) :=
  match cache st !! packageName with
  | Some cached => (st, Returned cached)
  | None =>
      let st1 := {| cache := cache st;
                    listed := pathToPackage packageName :: listed st |} in
      match readdirSync (pathToPackage packageName) with
      | None => (st1, Thrown (FolderMissing (pathToPackage packageName)))
      | Some readDir =>
          match readVersions packageName readDir [] with
          | Thrown e => (st1, Thrown e)
          | Returned allVersions =>
              ({| cache := <[packageName := allVersions]> (cache st1);
                  listed := listed st1 |},
               Returned allVersions)
          end
      end
  end.

(** The package that [get] makes of a version folder. *)
Definition packageOf (packageName folderName : string) (package : IPackage)
    : Prop :=
  version package = parseVersion folderName
  ∧ ∃ elmJson parsed,
      loadElmJson (elmJsonPath packageName folderName) = Some elmJson
      ∧ parseDependencies (dependencyEntries elmJson) = Returned parsed
      ∧ dependencies package = Loader.mapOfEntries parsed.

Lemma readVersions_packages packageName readDir : ∀ allVersions result,
  readVersions packageName readDir allVersions = Returned result →
  ∃ new, result = allVersions ++ new
         ∧ Forall2 (packageOf packageName)
             (filter (λ folderName,
                        integerVersion (parseVersion folderName) = true)
                     readDir)
             new.
Proof.
  induction readDir as [|folderName rest IH]; intros allVersions result Hrun;
    simpl in Hrun.
  - injection Hrun as <-. exists []. split; [by rewrite app_nil_r|].
    constructor.
  - destruct (integerVersion (parseVersion folderName)) eqn:Hint.
    + destruct (loadElmJson _) as [elmJson|] eqn:Hjson; [|done].
      destruct (parseDependencies _) as [parsed|e] eqn:Hparsed; [|done].
      destruct (IH _ _ Hrun) as (new & -> & Hnew).
      eexists. split; [by rewrite <- app_assoc|].
      rewrite filter_cons_True by done. constructor; [|done].
      split; [done|]. by exists elmJson, parsed.
    + destruct (IH _ _ Hrun) as (new & -> & Hnew).
      exists new. split; [done|].
      rewrite filter_cons_False; [done|]. by rewrite Hint.
Qed.

(** X24: the versions that [get] returns for a package that is not in
    the cache are made of the folders of the package whose names parse to
    a version of three integers, one package per such folder and in the
    order of the listing, each with the version of the folder name and the
    parsed dependencies of the manifest in the folder; the other names of
    the listing are passed over. *)
Theorem get_versions_of_folders (packageName : string)
    (st st' : ElmPackageCache) (allVersions : list IPackage) :
  cache st !! packageName = None →
  get packageName st = (st', Returned allVersions) →
  ∃ readDir,
    readdirSync (pathToPackage packageName) = Some readDir
    ∧ Forall2 (packageOf packageName)
        (filter (λ folderName,
                   integerVersion (parseVersion folderName) = true)
                readDir)
        allVersions
    ∧ version <$> allVersions
      = filter (λ v, integerVersion v = true) (parseVersion <$> readDir).
Proof.
  unfold get. intros -> Hrun.
  destruct (readdirSync _) as [readDir|]; [|done].
  destruct (readVersions _ _ _) as [result|e] eqn:Hread; [|done].
  injection Hrun as _ <-.
  destruct (readVersions_packages _ _ _ _ Hread) as (new & -> & Hnew).
  exists readDir. split_and!; [done|done|]. simpl.
  clear Hread. revert new Hnew.
  induction readDir as [|folderName rest IH]; intros new Hnew.
  - by apply Forall2_nil_inv_l in Hnew as ->.
  - csimpl. destruct (integerVersion (parseVersion folderName)) eqn:Hint.
    + rewrite filter_cons_True in Hnew by done.
      apply Forall2_cons_inv_l in Hnew
        as (package & packages & [Hversion _] & Hrest & ->).
      rewrite filter_cons_True by done. csimpl.
      by rewrite Hversion, (IH packages).
    + rewrite filter_cons_False in Hnew by by rewrite Hint.
      rewrite filter_cons_False by by rewrite Hint.
      by apply IH.
Qed.

(** A call of [get] that returns has the versions in the cache under the
    name of the package; a call that throws leaves the cache as it was; no
    call touches the entry of another package. *)
Lemma get_cache_after (packageName : string) (st st' : ElmPackageCache)
    (out : Result (list IPackage)) :
  get packageName st = (st', out) →
  (∀ other, other ≠ packageName → cache st' !! other = cache st !! other)
  ∧ match out with
    | Returned allVersions =>
        cache st' !! packageName = Some allVersions
        ∧ get packageName st' = (st', Returned allVersions)
    | Thrown _ => cache st' = cache st
    end.
Proof.
  unfold get.
  destruct (cache st !! packageName) as [cached|] eqn:Hcache.
  { intros [= <- <-]. by rewrite Hcache. }
  destruct (readdirSync _) as [readDir|]; [|by intros [= <- <-]].
  destruct (readVersions _ _ _) as [result|e]; [|by intros [= <- <-]].
  intros [= <- <-]. simpl. split.
  - intros other Hne. by rewrite lookup_insert_ne.
  - by rewrite lookup_insert_eq.
Qed.

(** A sequence of calls of [get]. *)
Fixpoint gets (names : list string) (st : ElmPackageCache) : ElmPackageCache :=
  match names with
  | [] => st
  | name :: rest => gets rest (get name st).1
  end.

Lemma get_keeps_cached packageName name st versions :
  cache st !! name = Some versions →
  cache (get packageName st).1 !! name = Some versions.
Proof.
  intros Hcached.
  destruct (get packageName st) as [st' out] eqn:Hget.
  destruct (get_cache_after _ _ _ _ Hget) as [Hother Hout]. simpl.
  destruct (decide (name = packageName)) as [->|Hne].
  - unfold get in Hget. rewrite Hcached in Hget. by injection Hget as <- _.
  - by rewrite Hother.
Qed.

(** X25: once [get] has returned the versions of a package, every later
    call for it returns the same versions and changes nothing, so lists no
    folder and reads no manifest, whatever packages were asked for in
    between and whether those calls returned or threw. *)
Theorem get_returns_cached_versions (packageName : string)
    (between : list string) (st st' : ElmPackageCache)
    (allVersions : list IPackage) :
  get packageName st = (st', Returned allVersions) →
  get packageName (gets between st')
  = (gets between st', Returned allVersions).
Proof.
  intros Hget.
  destruct (get_cache_after _ _ _ _ Hget) as [_ [Hcached _]].
  clear Hget. revert st' Hcached.
  induction between as [|name rest IH]; intros st' Hcached; simpl.
  - unfold get. by rewrite Hcached.
  - apply IH. by apply get_keeps_cached.
Qed.

End Get.

(** *** A packages folder *)

Definition demoFolderVersion (s : string) : IVersion :=
  match Discovery.split "."%char s with
  | [a; b; c] =>
      {| major := Z.of_N <$> Loader.parseNumber a;
         minor := Z.of_N <$> Loader.parseNumber b;
         patch := Z.of_N <$> Loader.parseNumber c; versionString := s |}
  | _ => {| major := None; minor := None; patch := None; versionString := s |}
  end.

Definition demoReaddirSync (path : string) : option (list string) :=
  if decide (path = "/elm/packages/elm/json/")
  then Some [".DS_Store"; "1.1.3"; "docs"]
  else if decide (path = "/elm/packages/elm/core/") then Some ["1.0.5"]
  else None.

Definition demoParseContraint (value : DependencyValue)
    : option Versions.IConstraint :=
  match value with
  | ConstraintText constraint => Loader.demoParseConstraint constraint
  | DependencyGroup _ => None
  end.

(** [path.join] leaves one separator between the two parts. *)
Fixpoint withoutTrailingSlash (s : string) : string :=
  match s with
  | EmptyString => EmptyString
  | String c rest =>
      if decide (rest = EmptyString) then
        (if Stdlib.Strings.Ascii.eqb c "/" then EmptyString else s)
      else String c (withoutTrailingSlash rest)
  end.

Definition demoFolderJoin (a b : string) : string :=
  withoutTrailingSlash a +:+ "/" +:+ b.

Definition demoGet :=
  get "/elm/packages/" (λ path, Loader.demoFiles !! path) demoReaddirSync
    demoFolderVersion demoParseContraint demoFolderJoin.

Definition emptyCache : @ElmPackageCache Versions.IConstraint :=
  {| cache := ∅; listed := [] |}.

Definition demoFetched : list (@IPackage Versions.IConstraint) :=
  match (demoGet "elm/json" emptyCache).2 with
  | Returned allVersions => allVersions
  | Thrown _ => []
  end.

Lemma get_versions_of_folders_witness :
  ∃ readDir,
    demoReaddirSync (pathToPackage "/elm/packages/" "elm/json")
    = Some readDir
    ∧ Forall2
        (packageOf "/elm/packages/" (λ path, Loader.demoFiles !! path)
           demoFolderVersion demoParseContraint demoFolderJoin "elm/json")
        (filter (λ folderName,
                   integerVersion (demoFolderVersion folderName) = true)
                readDir)
        demoFetched
    ∧ version <$> demoFetched
      = filter (λ v, integerVersion v = true) (demoFolderVersion <$> readDir).
Proof.
  apply (get_versions_of_folders "/elm/packages/"
           (λ path, Loader.demoFiles !! path) demoReaddirSync
           demoFolderVersion demoParseContraint demoFolderJoin "elm/json"
           emptyCache (demoGet "elm/json" emptyCache).1 demoFetched).
  - reflexivity.
  - vm_compute. reflexivity.
Defined.

Example get_passes_over_other_folders :
  versionString <$> (version <$> demoFetched) = ["1.1.3"]
  ∧ listed (demoGet "elm/json" emptyCache).1 = ["/elm/packages/elm/json/"].
Proof. vm_compute. done. Qed.

Lemma get_returns_cached_versions_witness :
  demoGet "elm/json"
    (gets "/elm/packages/" (λ path, Loader.demoFiles !! path) demoReaddirSync
       demoFolderVersion demoParseContraint demoFolderJoin
       ["elm/core"; "elm/missing"] (demoGet "elm/json" emptyCache).1)
  = (gets "/elm/packages/" (λ path, Loader.demoFiles !! path) demoReaddirSync
       demoFolderVersion demoParseContraint demoFolderJoin
       ["elm/core"; "elm/missing"] (demoGet "elm/json" emptyCache).1,
     Returned demoFetched).
Proof.
  apply (get_returns_cached_versions "/elm/packages/"
           (λ path, Loader.demoFiles !! path) demoReaddirSync
           demoFolderVersion demoParseContraint demoFolderJoin "elm/json"
           ["elm/core"; "elm/missing"] emptyCache).
  vm_compute. reflexivity.
Defined.

End PackageCache.
